(** * lePong: lifecycle manager, frame loop and match rules

    A shallow embedding of the runtime core of lePong (src/lepong.cpp,
    src/Game/Paddle.cpp, src/lepong/Graphics/Graphics.cpp) together with the
    properties its specification states about it, and further properties
    read off the code.

    Conventions of the embedding:
    - the process-wide statics of the C++ code are fields of a state record
      that is threaded through every procedure by a small state monad;
    - a computation that has no defined result (an array read out of range,
      a signed overflow, an exhausted iteration budget) is [None];
    - [unsigned] and [int] are [Z] with the 32-bit wrap-around written out;
    - [float] is IEEE-754 binary32, carried by [spec_float];
    - the calls a procedure makes are recorded in a ghost list, so that
      "is invoked", "is never evaluated" and "in this order" can be stated. *)

From Stdlib Require Import ZArith Lia Bool List String.
From Stdlib Require Import Floats.SpecFloat.
From stdpp Require Import base tactics option list.

Local Open Scope Z_scope.

(** ** A state monad with undefined results *)

Definition M (S A : Type) : Type := S -> option (A * S).

Definition ret {S A : Type} (a : A) : M S A := fun s => Some (a, s).

Definition bind {S A B : Type} (c : M S A) (k : A -> M S B) : M S B :=
  fun s => match c s with
           | Some (a, s') => k a s'
           | None => None
           end.

Definition undefined {S A : Type} : M S A := fun _ => None.

Definition gets {S A : Type} (f : S -> A) : M S A := fun s => Some (f s, s).

Definition modify {S : Type} (f : S -> S) : M S unit := fun s => Some (tt, f s).

Definition when {S : Type} (b : bool) (c : M S unit) : M S unit :=
  if b then c else ret tt.

Declare Scope prog_scope.
Delimit Scope prog_scope with prog.
Notation "x <- c ;; k" := (bind c (fun x => k))
  (at level 100, c at next level, right associativity) : prog_scope.
Notation "c ;; k" := (bind c (fun _ => k))
  (at level 100, right associativity) : prog_scope.
Local Open Scope prog_scope.

(** ** Machine integers *)

Definition UINT_MODULUS : Z := 2 ^ 32.
Definition INT_MAX : Z := 2 ^ 31 - 1.
Definition INT_MIN : Z := - 2 ^ 31.

(** Conversion to [unsigned]: reduction modulo 2^32. *)
Definition to_unsigned (z : Z) : Z := z mod UINT_MODULUS.

(** [static_cast<int>] of an [unsigned] value: the two's complement reading. *)
Definition to_int (u : Z) : Z :=
  let r := to_unsigned u in
  if r <=? INT_MAX then r else r - UINT_MODULUS.

(** ** Lifecycle manager (lepong.cpp, [Lifetime], [TryInitItems],
       [CleanupItemsStartingAt], [CleanupItems]) *)

Module Lifecycle.

(** The calls the manager makes on the items of its list, by index. *)
Inductive Call : Type :=
| CallInit (i : Z)
| CallCleanup (i : Z).

Section Manager.
(** [W] is whatever process state the item procedures read and write. *)
Context {W : Type}.

(** [class Lifetime]: a pair of function pointers. *)
Record Lifetime : Type := MkLifetime {
  mInit : M W bool;
  mCleanup : M W unit
}.

(** The manager runs over the items' state and the ghost call list; the
    item procedures themselves cannot touch the call list. *)
Definition Mgr (A : Type) : Type := M (W * list Call) A.

Definition call {A : Type} (c : Call) (p : M W A) : Mgr A :=
  fun '(w, calls) =>
    match p w with
    | Some (a, w') => Some (a, (w', calls ++ [c]))
    | None => None
    end.

(** [lifetimes[i].Init()]; reading outside the array is undefined. *)
Definition Lifetime_Init (lifetimes : list Lifetime) (i : Z) : Mgr bool :=
  match lifetimes !! Z.to_nat i with
  | Some item => call (CallInit i) (mInit item)
  | None => undefined
  end.

(** [lifetimes[i].Cleanup()]. *)
Definition Lifetime_Cleanup (lifetimes : list Lifetime) (i : Z) : Mgr unit :=
  match lifetimes !! Z.to_nat i with
  | Some item => call (CallCleanup i) (mCleanup item)
  | None => undefined
  end.

(** The loop of [CleanupItemsStartingAt]:
    [for (...; i >= 0; --i) lifetimes[i].Cleanup();] *)
Fixpoint CleanupItems_loop (fuel : nat) (lifetimes : list Lifetime) (i : Z)
  : Mgr unit :=
  if 0 <=? i then
    match fuel with
    | O => undefined
    | S fuel' =>
        Lifetime_Cleanup lifetimes i ;;
        CleanupItems_loop fuel' lifetimes (i - 1)
    end
  else ret tt.

(** [CleanupItemsStartingAt(lifetimes, index)]: the loop starts at
    [static_cast<int>(index) - 1]; the subtraction is on [int], so it is
    undefined when it leaves the range of [int]. *)
Definition CleanupItemsStartingAt (lifetimes : list Lifetime) (index : Z)
  : Mgr unit :=
  let i := to_int index - 1 in
  if i <? INT_MIN then undefined
  else CleanupItems_loop (Z.to_nat (i + 1)) lifetimes i.

(** The loop of [TryInitItems]:
    [for (unsigned i = 0; succeeded && i < NumItems; ++i)]. *)
Fixpoint TryInitItems_loop (fuel : nat) (lifetimes : list Lifetime)
    (i : Z) (succeeded : bool) : Mgr bool :=
  if succeeded && (i <? Z.of_nat (length lifetimes)) then
    match fuel with
    | O => undefined
    | S fuel' =>
        succeeded' <- Lifetime_Init lifetimes i ;;
        when (negb succeeded') (CleanupItemsStartingAt lifetimes i) ;;
        TryInitItems_loop fuel' lifetimes (to_unsigned (i + 1)) succeeded'
    end
  else ret succeeded.

Definition TryInitItems (lifetimes : list Lifetime) : Mgr bool :=
  TryInitItems_loop (length lifetimes) lifetimes 0 true.

(** [CleanupItems]: [NumItems] is a [std::size_t] passed for an
    [unsigned] parameter. *)
Definition CleanupItems (lifetimes : list Lifetime) : Mgr unit :=
  CleanupItemsStartingAt lifetimes (to_unsigned (Z.of_nat (length lifetimes))).

(** *** What the manager is expected to do, stated on the list itself *)

(** Run the init procedures of [items] from left to right, as long as each
    one reports success; [Some w'] when all of them did. *)
Fixpoint inits_succeed (items : list Lifetime) (w : W) : option W :=
  match items with
  | [] => Some w
  | item :: rest =>
      match mInit item w with
      | Some (true, w') => inits_succeed rest w'
      | _ => None
      end
  end.

(** Run the cleanup procedures of [items] from right to left. *)
Fixpoint cleanups_reversed (items : list Lifetime) (w : W) : option W :=
  match items with
  | [] => Some w
  | item :: rest =>
      match cleanups_reversed rest w with
      | Some w' => snd <$> mCleanup item w'
      | None => None
      end
  end.

(** The indices [0, 1, ..., n-1] as the code writes them. *)
Definition indices (n : nat) : list Z := Z.of_nat <$> seq 0 n.

(** The contract of the spec for [tryInitItems], by recursion on the
    items still to start: [started] holds the items already started, in
    list order. The result carries the calls made. *)
Fixpoint try_init_contract (started todo : list Lifetime) (w : W)
  : option (bool * W * list Call) :=
  let n := Z.of_nat (length started) in
  match todo with
  | [] => Some (true, w, [])
  | item :: rest =>
      match mInit item w with
      | Some (true, w') =>
          match try_init_contract (started ++ [item]) rest w' with
          | Some (r, w'', calls) => Some (r, w'', CallInit n :: calls)
          | None => None
          end
      | Some (false, w') =>
          match cleanups_reversed started w' with
          | Some w'' =>
              Some (false, w'',
                    CallInit n :: (CallCleanup <$> reverse (indices (length started))))
          | None => None
          end
      | None => None
      end
  end.

End Manager.

Arguments Lifetime : clear implicits.

(** A list to run the manager on: each item writes its tag into a journal
    when started and the opposite when stopped; [ok] is what its init
    returns. *)
Definition journal_item (tag : Z) (ok : bool) : Lifetime (list Z) :=
  MkLifetime
    (fun journal => Some (ok, journal ++ [tag]))
    (fun journal => Some (tt, journal ++ [- tag])).

Definition three_then_failure : list (Lifetime (list Z)) :=
  [ journal_item 1 true; journal_item 2 true; journal_item 3 true;
    journal_item 4 false; journal_item 5 true ].

Definition four_successes : list (Lifetime (list Z)) :=
  [ journal_item 1 true; journal_item 2 true; journal_item 3 true;
    journal_item 4 true ].

End Lifecycle.

(** ** binary32 arithmetic *)

Module F32.

Definition prec : Z := 24.
Definition emax : Z := 128.

Definition float : Type := spec_float.

Definition add : float -> float -> float := SFadd prec emax.
Definition sub : float -> float -> float := SFsub prec emax.
Definition mul : float -> float -> float := SFmul prec emax.
Definition div : float -> float -> float := SFdiv prec emax.
Definition sqrt : float -> float := SFsqrt prec emax.
Definition neg : float -> float := SFopp.
Definition abs : float -> float := SFabs.

(** [a < b] and [a > b]; both are false when an operand is a NaN. *)
Definition lt (a b : float) : bool := SFltb a b.
Definition gt (a b : float) : bool := SFltb b a.

(** [static_cast<float>] of an integer, and integer literals such as
    [2.0f], rounded to nearest even. *)
Definition of_int (z : Z) : float := binary_normalize prec emax z 0 false.

Definition zero : float := S754_zero false.

(** The literal [0.1f]: the binary32 number nearest to 1/10. *)
Definition one_tenth : float := div (of_int 1) (of_int 10).

(** A float that is a number: neither an infinity nor a NaN. *)
Definition is_finite (a : float) : bool :=
  match a with
  | S754_zero _ | S754_finite _ _ _ => true
  | S754_infinity _ | S754_nan => false
  end.

Definition is_zero (a : float) : bool :=
  match a with
  | S754_zero _ => true
  | _ => false
  end.

(** [num / den < a], read on the exact value of a positive finite [a]. *)
Definition above_ratio (num den : Z) (a : float) : bool :=
  match a with
  | S754_finite false m e =>
      if 0 <=? e then num <? den * (Z.pos m * 2 ^ e)
      else num * 2 ^ (- e) <? den * Z.pos m
  | _ => false
  end.

(** [a < num / den], read on the exact value of a positive finite [a]. *)
Definition below_ratio (num den : Z) (a : float) : bool :=
  match a with
  | S754_finite false m e =>
      if 0 <=? e then den * (Z.pos m * 2 ^ e) <? num
      else den * Z.pos m <? num * 2 ^ (- e)
  | _ => false
  end.

(** A finite float that is not a zero. *)
Definition is_regular (a : float) : bool :=
  match a with
  | S754_finite _ _ _ => true
  | _ => false
  end.

(** [+1.0f] or [-1.0f]. *)
Definition is_sign (a : float) : Prop := a = of_int 1 \/ a = of_int (-1).

(** [0.707 < |a| < 0.7072]. *)
Definition near_0707 (a : float) : bool :=
  above_ratio 707 1000 (abs a) && below_ratio 7072 10000 (abs a).

(** [0.9999 < a < 1.0001]. *)
Definition near_1 (a : float) : bool :=
  above_ratio 9999 10000 a && below_ratio 10001 10000 a.

End F32.

(** ** Vectors (lepong/Math) *)

Module Vector2i.
Record t : Type := Make { x : Z; y : Z }.
End Vector2i.

Module Vector2f.
Record t : Type := Make { x : F32.float; y : F32.float }.

(** Modelled from the spec: Math.h is absent; [v * s] and [a + b] are the
    componentwise operations the update formula of the spec needs. *)
Definition scale (v : t) (s : F32.float) : t :=
  Make (F32.mul (x v) s) (F32.mul (y v) s).

(** Modelled from the spec: Math.h is absent; the componentwise sum behind
    [position += ...]. *)
Definition add (a b : t) : t :=
  Make (F32.add (x a) (x b)) (F32.add (y a) (y b)).

(** Modelled from the spec: Math.h is absent; the Euclidean length that
    "normalized" refers to. *)
Definition Length (v : t) : F32.float :=
  F32.sqrt (F32.add (F32.mul (x v) (x v)) (F32.mul (y v) (y v))).

(** Modelled from the spec: Math.h is absent; "normalized" is division of
    each component by the vector's length. *)
Definition Normalize (v : t) : t :=
  Make (F32.div (x v) (Length v)) (F32.div (y v) (Length v)).
(** A unit vector along a diagonal, up to rounding. *)
Definition is_diagonal_unit (v : t) : bool :=
  F32.near_0707 (x v) && F32.near_0707 (y v) && F32.near_1 (Length v).
End Vector2f.

(** ** Game objects *)

Module GameObject.
Record t : Type := Make {
  position : Vector2f.t;
  moveDirection : Vector2f.t;
  moveSpeed : F32.float
}.

Definition set_position (v : Vector2f.t) (o : t) : t :=
  Make v (moveDirection o) (moveSpeed o).
Definition set_moveDirection (v : Vector2f.t) (o : t) : t :=
  Make (position o) v (moveSpeed o).
Definition set_moveSpeed (s : F32.float) (o : t) : t :=
  Make (position o) (moveDirection o) s.

(** Modelled from the spec: GameObject.cpp is absent; the spec gives
    [position += moveDirection * moveSpeed * delta]. *)
Definition Update (delta : F32.float) (o : t) : t :=
  set_position
    (Vector2f.add (position o)
       (Vector2f.scale (Vector2f.scale (moveDirection o) (moveSpeed o)) delta))
    o.
End GameObject.

(** ** Paddle (Game/Paddle.cpp) *)

Module Paddle.
(** [class Paddle : public GameObject]. *)
Record t : Type := Make {
  base : GameObject.t;
  size : Vector2f.t;
  front : F32.float
}.

Definition position (p : t) : Vector2f.t := GameObject.position (base p).
Definition moveDirection (p : t) : Vector2f.t := GameObject.moveDirection (base p).
Definition moveSpeed (p : t) : F32.float := GameObject.moveSpeed (base p).

Definition set_base (o : GameObject.t) (p : t) : t := Make o (size p) (front p).

Definition set_position_x (v : F32.float) (p : t) : t :=
  set_base
    (GameObject.set_position (Vector2f.Make v (Vector2f.y (position p))) (base p))
    p.

Definition kMinTerrainOffset (p : t) : F32.float :=
  F32.mul (Vector2f.y (size p)) F32.one_tenth.

Definition kCollidesTop (winSize : Vector2i.t) (p : t) : bool :=
  F32.gt (F32.add (Vector2f.y (position p)) (kMinTerrainOffset p))
         (F32.sub (F32.of_int (Vector2i.y winSize))
                  (F32.div (Vector2f.y (size p)) (F32.of_int 2))).

Definition kCollidesBottom (winSize : Vector2i.t) (p : t) : bool :=
  F32.lt (F32.sub (Vector2f.y (position p)) (kMinTerrainOffset p))
         (F32.div (Vector2f.y (size p)) (F32.of_int 2)).

(** [Paddle::CollideAgainstTerrain]; its second argument is the position
    saved by [Update] before the move. *)
Definition CollideAgainstTerrain (winSize : Vector2i.t)
    (postUpdatePosition : Vector2f.t) (p : t) : t :=
  if kCollidesTop winSize p || kCollidesBottom winSize p
  then set_base (GameObject.set_position postUpdatePosition (base p)) p
  else p.

(** [Paddle::Update]. *)
Definition Update (delta : F32.float) (winSize : Vector2i.t) (p : t) : t :=
  let kPostUpdatePosition := position p in
  let p' := set_base (GameObject.Update delta (base p)) p in
  CollideAgainstTerrain winSize kPostUpdatePosition p'.

(** [Paddle::Reset]: only the vertical coordinate is written. *)
Definition Reset (winSize : Vector2i.t) (p : t) : t :=
  set_base
    (GameObject.Make
       (Vector2f.Make (Vector2f.x (position p))
          (F32.div (F32.of_int (Vector2i.y winSize)) (F32.of_int 2)))
       (Vector2f.Make F32.zero F32.zero)
       F32.zero)
    p.
(** The paddle has no horizontal motion to make in a step of [delta]: its
    direction has a zero first component, speed and [delta] are numbers,
    and its column is an ordinary number. *)
Definition moves_vertically (delta : F32.float) (p : t) : bool :=
  F32.is_zero (Vector2f.x (moveDirection p))
  && F32.is_finite (moveSpeed p)
  && F32.is_finite delta
  && F32.is_regular (Vector2f.x (position p)).

(** The state [Reset] puts a paddle in, its column apart. *)
Definition is_reset (winSize : Vector2i.t) (p : t) : Prop :=
  Vector2f.y (position p) = F32.div (F32.of_int (Vector2i.y winSize)) (F32.of_int 2)
  /\ moveDirection p = Vector2f.Make F32.zero F32.zero
  /\ moveSpeed p = F32.zero.
End Paddle.

(** ** Ball *)

Module Ball.
Record t : Type := Make {
  base : GameObject.t;
  radius : F32.float
}.

Definition position (b : t) : Vector2f.t := GameObject.position (base b).
Definition moveDirection (b : t) : Vector2f.t := GameObject.moveDirection (base b).
Definition moveSpeed (b : t) : F32.float := GameObject.moveSpeed (base b).

Definition set_base (o : GameObject.t) (b : t) : t := Make o (radius b).
Definition set_moveDirection (v : Vector2f.t) (b : t) : t :=
  set_base (GameObject.set_moveDirection v (base b)) b.
Definition set_moveSpeed (s : F32.float) (b : t) : t :=
  set_base (GameObject.set_moveSpeed s (base b)) b.

(** [sBall.Update(delta)] is the inherited [GameObject::Update]. *)
Definition Update (delta : F32.float) (b : t) : t :=
  set_base (GameObject.Update delta (base b)) b.
End Ball.

(** [enum class Side]: which vertical boundary the ball has crossed. *)
Module Side.
Inductive t : Type := None | Left | Right.
End Side.

(** ** The game (lepong.cpp) *)

(** The leaves of the lifetime tables: [skSystemLifetimes], the first two
    entries of [kStateLifetimes], and [skGraphicsResourceLifetimes]. *)
Inductive Leaf : Type :=
| LogSystem | WindowSystem | GraphicsSystem | GLSystem | TimeSystem
| GameWindow | Context
| PaddleProgram | BallProgram | Quad | TexturedQuad.

#[global] Instance Leaf_eq_dec : EqDecision Leaf.
Proof. solve_decision. Defined.

(** Ghost record of what a run did, oldest first. *)
Inductive Event : Type :=
| EvLeafInit (leaf : Leaf) (ok : bool)
| EvLeafCleanup (leaf : Leaf)
| EvOnBeginRun
| EvOnFinishRun
| EvPollEvents (continue : bool)
| EvOnKeyEvent (key : Z) (pressed : bool)
| EvLaunchBall
| EvOnUpdate
| EvOnRender
| EvCollideWithTerrain (before after : Ball.t)
| EvCollideWith (paddle : Z) (hit : bool)
| EvGetTouchingSide (side : Side.t)
| EvUpdateScores (lostSide : Side.t)
| EvResetGameState.

(** What the embedded files call but do not define. [X] is the state of the
    collaborators outside the core: window system, clock, random numbers,
    graphics driver, together with the handles the game keeps on them
    ([sWindow], [sContext], the two programs and the two meshes). The
    procedures stored in the lifetime tables only act on this state; they
    are taken as arbitrary procedures on it. *)
Class Externals (X : Type) : Type := MkExternals {
(** Game/Ball.h and Ball.cpp *)
Ball_skDefaultMoveSpeed : F32.float;
Ball_CollideWithTerrain : Vector2i.t -> Ball.t -> Ball.t;
Ball_CollideWith : Paddle.t -> Ball.t -> bool * Ball.t;
Ball_GetTouchingSide : Vector2i.t -> Ball.t -> Side.t;
Ball_Reset : Vector2i.t -> Ball.t -> Ball.t;
(** [static_cast<unsigned>] of a [Side]: the enumerators' values *)
Side_to_unsigned : Side.t -> Z;
(** the key handlers declared in Game/Paddle.h *)
Paddle_OnMoveUpPressed : Paddle.t -> Paddle.t;
Paddle_OnMoveDownPressed : Paddle.t -> Paddle.t;
Paddle_OnMoveUpReleased : Paddle.t -> Paddle.t;
Paddle_OnMoveDownReleased : Paddle.t -> Paddle.t;
(** Math/Math.h *)
RandomSignFloat : X -> F32.float * X;
(** Window: the key events delivered to the callback during the poll,
    and the value the poll returns *)
Window_PollEvents : X -> (list (Z * bool) * bool) * X;
Window_ShowWindow : X -> X;
Window_HideWindow : X -> X;
(** Time *)
Time_Get : X -> F32.float * X;
SeedRandom : X -> X;
(** the procedures stored in the lifetime tables *)
Leaf_Init : Leaf -> X -> bool * X;
Leaf_Cleanup : Leaf -> X -> X;
(** clear, draw the ball and both paddles, swap buffers *)
DrawFrame : Ball.t -> Paddle.t -> Paddle.t -> X -> X
}.

Module Game.

Definition skWinSize : Vector2i.t := Vector2i.Make 1280 720.
Definition skBallRadius : F32.float := F32.of_int 20.
Definition skPaddleSize : Vector2f.t := Vector2f.Make (F32.of_int 25) (F32.of_int 150).

(** Virtual-key codes of Windows.h. *)
Definition VK_SPACE : Z := 32.
Definition VK_UP : Z := 38.
Definition VK_DOWN : Z := 40.
Definition skP2Up : Z := VK_UP.
Definition skP2Down : Z := VK_DOWN.
Definition skP1Up : Z := 87.   (* 'W' *)
Definition skP1Down : Z := 83. (* 'S' *)

Section World.
Context {X : Type} `{Externals X}.

(** The statics of lepong.cpp, the collaborators' state and the ghost trace. *)
Record World : Type := MkWorld {
  sInitialized : bool;
  sRunning : bool;
  sPlaying : bool;
  sPlayerScores : list Z;
  sBall : Ball.t;
  sPaddle1 : Paddle.t;
  sPaddle2 : Paddle.t;
  sLastTime : F32.float;
  externals : X;
  trace : list Event
}.

Definition set_sInitialized (b : bool) (w : World) : World :=
  MkWorld b (sRunning w) (sPlaying w) (sPlayerScores w) (sBall w)
          (sPaddle1 w) (sPaddle2 w) (sLastTime w) (externals w) (trace w).
Definition set_sRunning (b : bool) (w : World) : World :=
  MkWorld (sInitialized w) b (sPlaying w) (sPlayerScores w) (sBall w)
          (sPaddle1 w) (sPaddle2 w) (sLastTime w) (externals w) (trace w).
Definition set_sPlaying (b : bool) (w : World) : World :=
  MkWorld (sInitialized w) (sRunning w) b (sPlayerScores w) (sBall w)
          (sPaddle1 w) (sPaddle2 w) (sLastTime w) (externals w) (trace w).
Definition set_sPlayerScores (l : list Z) (w : World) : World :=
  MkWorld (sInitialized w) (sRunning w) (sPlaying w) l (sBall w)
          (sPaddle1 w) (sPaddle2 w) (sLastTime w) (externals w) (trace w).
Definition set_sBall (b : Ball.t) (w : World) : World :=
  MkWorld (sInitialized w) (sRunning w) (sPlaying w) (sPlayerScores w) b
          (sPaddle1 w) (sPaddle2 w) (sLastTime w) (externals w) (trace w).
Definition set_sPaddle1 (p : Paddle.t) (w : World) : World :=
  MkWorld (sInitialized w) (sRunning w) (sPlaying w) (sPlayerScores w) (sBall w)
          p (sPaddle2 w) (sLastTime w) (externals w) (trace w).
Definition set_sPaddle2 (p : Paddle.t) (w : World) : World :=
  MkWorld (sInitialized w) (sRunning w) (sPlaying w) (sPlayerScores w) (sBall w)
          (sPaddle1 w) p (sLastTime w) (externals w) (trace w).
Definition set_sLastTime (t : F32.float) (w : World) : World :=
  MkWorld (sInitialized w) (sRunning w) (sPlaying w) (sPlayerScores w) (sBall w)
          (sPaddle1 w) (sPaddle2 w) t (externals w) (trace w).
Definition set_externals (x : X) (w : World) : World :=
  MkWorld (sInitialized w) (sRunning w) (sPlaying w) (sPlayerScores w) (sBall w)
          (sPaddle1 w) (sPaddle2 w) (sLastTime w) x (trace w).
Definition set_trace (t : list Event) (w : World) : World :=
  MkWorld (sInitialized w) (sRunning w) (sPlaying w) (sPlayerScores w) (sBall w)
          (sPaddle1 w) (sPaddle2 w) (sLastTime w) (externals w) t.

(** A procedure of the game. *)
Definition Prog (A : Type) : Type := M World A.

(** Append an event to the ghost trace. *)
Definition note (e : Event) : Prog unit :=
  modify (fun w => set_trace (trace w ++ [e]) w).

(** Run a collaborator's procedure on the collaborators' state. *)
Definition extern {A : Type} (f : X -> A * X) : Prog A :=
  fun w => let '(a, x) := f (externals w) in Some (a, set_externals x w).

Definition extern_ (f : X -> X) : Prog unit :=
  modify (fun w => set_externals (f (externals w)) w).

(** *** Lifetime tables and [Init] *)

(** Run the manager from inside the game; its per-list call record is
    not part of the game's state. *)
Definition managed {A : Type} (c : Lifecycle.Mgr (W := World) A) : Prog A :=
  fun w => match c (w, []) with
           | Some (a, (w', _)) => Some (a, w')
           | None => None
           end.

(** The entries of the tables that are not lists themselves: the five
    subsystems ([Log::Init] ... [Time::Init]) and, in lepong.cpp,
    [InitGameWindow], [InitContext], [InitPaddleProgram], [InitBallProgram],
    [InitQuad] and [InitTexturedQuad], each with its cleanup. Each one calls
    the collaborators, keeps the handle it gets and reports whether it is
    valid; [Leaf_Init leaf] stands for the whole procedure. *)
Definition LeafInit (leaf : Leaf) : Prog bool :=
  ok <- extern (Leaf_Init leaf) ;;
  note (EvLeafInit leaf ok) ;;
  ret ok.

Definition LeafCleanup (leaf : Leaf) : Prog unit :=
  extern_ (Leaf_Cleanup leaf) ;;
  note (EvLeafCleanup leaf).

Definition leaf_lifetime (leaf : Leaf) : Lifecycle.Lifetime World :=
  Lifecycle.MkLifetime (LeafInit leaf) (LeafCleanup leaf).

Definition skSystemLifetimes : list (Lifecycle.Lifetime World) :=
  [ leaf_lifetime LogSystem;
    leaf_lifetime WindowSystem;
    leaf_lifetime GraphicsSystem;
    leaf_lifetime GLSystem;
    leaf_lifetime TimeSystem ].

Definition InitGameSystems : Prog bool :=
  managed (Lifecycle.TryInitItems skSystemLifetimes).

Definition CleanupGameSystems : Prog unit :=
  managed (Lifecycle.CleanupItems skSystemLifetimes).

Definition skGraphicsResourceLifetimes : list (Lifecycle.Lifetime World) :=
  [ leaf_lifetime PaddleProgram;
    leaf_lifetime BallProgram;
    leaf_lifetime Quad;
    leaf_lifetime TexturedQuad ].

Definition InitGraphicsResources : Prog bool :=
  managed (Lifecycle.TryInitItems skGraphicsResourceLifetimes).

Definition CleanupGraphicsResources : Prog unit :=
  managed (Lifecycle.CleanupItems skGraphicsResourceLifetimes).

Definition kStateLifetimes : list (Lifecycle.Lifetime World) :=
  [ leaf_lifetime GameWindow;
    leaf_lifetime Context;
    Lifecycle.MkLifetime InitGraphicsResources CleanupGraphicsResources ].

Definition InitState : Prog bool :=
  managed (Lifecycle.TryInitItems kStateLifetimes).

Definition CleanupState : Prog unit :=
  managed (Lifecycle.CleanupItems kStateLifetimes).

Definition kGameLifetimes : list (Lifecycle.Lifetime World) :=
  [ Lifecycle.MkLifetime InitGameSystems CleanupGameSystems;
    Lifecycle.MkLifetime InitState CleanupState ].

(** [Init]. [LEPONG_CHECK_OR_RETURN_VAL(c, v)] (Check.h, absent) is read
    as its name says: return [v] unless [c] holds. *)
Definition Init : Prog bool :=
  initialized <- gets sInitialized ;;
  if initialized then ret false
  else
    ok <- managed (Lifecycle.TryInitItems kGameLifetimes) ;;
    modify (set_sInitialized ok) ;;
    gets sInitialized.

(** *** Keyboard *)

Definition OnKeyUp (key : Z) : Prog unit :=
  if key =? skP2Up then modify (fun w => set_sPaddle2 (Paddle_OnMoveUpReleased (sPaddle2 w)) w)
  else if key =? skP2Down then modify (fun w => set_sPaddle2 (Paddle_OnMoveDownReleased (sPaddle2 w)) w)
  else if key =? skP1Up then modify (fun w => set_sPaddle1 (Paddle_OnMoveUpReleased (sPaddle1 w)) w)
  else if key =? skP1Down then modify (fun w => set_sPaddle1 (Paddle_OnMoveDownReleased (sPaddle1 w)) w)
  else ret tt.

Definition OnKeyDown (key : Z) : Prog unit :=
  if key =? skP2Up then modify (fun w => set_sPaddle2 (Paddle_OnMoveUpPressed (sPaddle2 w)) w)
  else if key =? skP2Down then modify (fun w => set_sPaddle2 (Paddle_OnMoveDownPressed (sPaddle2 w)) w)
  else if key =? skP1Up then modify (fun w => set_sPaddle1 (Paddle_OnMoveUpPressed (sPaddle1 w)) w)
  else if key =? skP1Down then modify (fun w => set_sPaddle1 (Paddle_OnMoveDownPressed (sPaddle1 w)) w)
  else ret tt.

Definition LaunchBall : Prog unit :=
  note EvLaunchBall ;;
  modify (fun w => set_sBall (Ball.set_moveSpeed Ball_skDefaultMoveSpeed (sBall w)) w) ;;
  rx <- extern RandomSignFloat ;;
  ry <- extern RandomSignFloat ;;
  modify (fun w => set_sBall (Ball.set_moveDirection (Vector2f.Make rx ry) (sBall w)) w) ;;
  modify (fun w =>
    set_sBall
      (Ball.set_moveDirection (Vector2f.Normalize (Ball.moveDirection (sBall w))) (sBall w))
      w).

Definition OnKeyEvent (key : Z) (pressed : bool) : Prog unit :=
  note (EvOnKeyEvent key pressed) ;;
  playing <- gets sPlaying ;;
  if playing then
    if pressed then OnKeyDown key else OnKeyUp key
  else if pressed && (key =? VK_SPACE) then
    modify (set_sPlaying true) ;;
    LaunchBall
  else ret tt.

(** *** Frame loop *)

Definition ResetGameState : Prog unit :=
  note EvResetGameState ;;
  modify (fun w => set_sBall (Ball_Reset skWinSize (sBall w)) w) ;;
  modify (fun w => set_sPaddle1 (Paddle.Reset skWinSize (sPaddle1 w)) w) ;;
  modify (fun w => set_sPaddle2 (Paddle.Reset skWinSize (sPaddle2 w)) w) ;;
  modify (set_sPlaying false).

Definition kBorderOffset : F32.float := F32.of_int 50.

Definition PositionPaddlesOnTerrain : Prog unit :=
  modify (fun w => set_sPaddle1 (Paddle.set_position_x kBorderOffset (sPaddle1 w)) w) ;;
  modify (fun w =>
    set_sPaddle2
      (Paddle.set_position_x
         (F32.sub (F32.of_int (Vector2i.x skWinSize)) kBorderOffset) (sPaddle2 w))
      w).

(** [OnBeginRun]: show the window and log the context, reset the game,
    place the paddles, seed the random numbers. *)
Definition OnBeginRun : Prog unit :=
  note EvOnBeginRun ;;
  extern_ Window_ShowWindow ;;
  ResetGameState ;;
  PositionPaddlesOnTerrain ;;
  extern_ SeedRandom.

Definition GetTimeDelta : Prog F32.float :=
  kNow <- extern Time_Get ;;
  last <- gets sLastTime ;;
  let kTimeDelta := F32.sub kNow last in
  modify (set_sLastTime kNow) ;;
  ret kTimeDelta.

(** [++sPlayerScores[1u - static_cast<unsigned>(lostSide)]] on an array of
    two [unsigned]. *)
Definition UpdateScores (lostSide : Side.t) : Prog unit :=
  note (EvUpdateScores lostSide) ;;
  let kScoreIndex := to_unsigned (1 - to_unsigned (Side_to_unsigned lostSide)) in
  scores <- gets sPlayerScores ;;
  match scores !! Z.to_nat kScoreIndex with
  | Some score =>
      modify (set_sPlayerScores (<[Z.to_nat kScoreIndex := to_unsigned (score + 1)]> scores))
  | None => undefined
  end.

Definition CheckBallSideCollision : Prog unit :=
  kSide <- gets (fun w => Ball_GetTouchingSide skWinSize (sBall w)) ;;
  note (EvGetTouchingSide kSide) ;;
  match kSide with
  | Side.None => ret tt
  | _ => UpdateScores kSide ;; ResetGameState
  end.

(** [sBall.CollideWithTerrain(skWinSize)]. *)
Definition sBall_CollideWithTerrain : Prog unit :=
  before <- gets sBall ;;
  let after := Ball_CollideWithTerrain skWinSize before in
  note (EvCollideWithTerrain before after) ;;
  modify (set_sBall after).

(** [sBall.CollideWith(sPaddle1)] and [sBall.CollideWith(sPaddle2)]. *)
Definition sBall_CollideWith (paddle : Z) (which : World -> Paddle.t) : Prog bool :=
  w <- gets (fun w => w) ;;
  let '(hit, after) := Ball_CollideWith (which w) (sBall w) in
  note (EvCollideWith paddle hit) ;;
  modify (set_sBall after) ;;
  ret hit.

Definition OnUpdate (delta : F32.float) : Prog unit :=
  note EvOnUpdate ;;
  modify (fun w => set_sBall (Ball.Update delta (sBall w)) w) ;;
  modify (fun w => set_sPaddle1 (Paddle.Update delta skWinSize (sPaddle1 w)) w) ;;
  modify (fun w => set_sPaddle2 (Paddle.Update delta skWinSize (sPaddle2 w)) w) ;;
  sBall_CollideWithTerrain ;;
  kCollides <- (hit1 <- sBall_CollideWith 1 sPaddle1 ;;
                if hit1 then ret true else sBall_CollideWith 2 sPaddle2) ;;
  when (negb kCollides) CheckBallSideCollision.

Definition OnRender : Prog unit :=
  note EvOnRender ;;
  w <- gets (fun w => w) ;;
  extern_ (DrawFrame (sBall w) (sPaddle1 w) (sPaddle2 w)).

Definition OnFinishRun : Prog unit :=
  note EvOnFinishRun ;;
  extern_ Window_HideWindow.

(** [Window::PollEvents()]: the window procedure hands each pending key
    event to the registered callback, then the poll returns. *)
Fixpoint deliver (keys : list (Z * bool)) : Prog unit :=
  match keys with
  | [] => ret tt
  | (key, pressed) :: rest => OnKeyEvent key pressed ;; deliver rest
  end.

Definition PollEvents : Prog bool :=
  polled <- extern Window_PollEvents ;;
  let '(keys, continue) := polled in
  note (EvPollEvents continue) ;;
  deliver keys ;;
  ret continue.

(** The body of the [while (sRunning)] loop of [Run]. *)
Definition Run_body : Prog unit :=
  continue <- PollEvents ;;
  modify (set_sRunning continue) ;;
  cDelta <- GetTimeDelta ;;
  OnUpdate cDelta ;;
  OnRender.

(** The [while (sRunning)] loop of [Run]. *)
Fixpoint Run_loop (fuel : nat) : Prog unit :=
  running <- gets sRunning ;;
  if running then
    match fuel with
    | O => undefined
    | S fuel' => Run_body ;; Run_loop fuel'
    end
  else ret tt.

(** [Run]; [fuel] bounds the number of frames. *)
Definition Run (fuel : nat) : Prog unit :=
  w <- gets (fun w => w) ;;
  if sInitialized w && negb (sRunning w) then
    modify (set_sRunning true) ;;
    OnBeginRun ;;
    Run_loop fuel ;;
    OnFinishRun
  else ret tt.

Definition Cleanup : Prog unit :=
  w <- gets (fun w => w) ;;
  if sInitialized w && negb (sRunning w) then
    managed (Lifecycle.CleanupItems kGameLifetimes) ;;
    modify (set_sInitialized false)
  else ret tt.

End World.

Arguments World : clear implicits.
Arguments Prog : clear implicits.

End Game.

(** ** The absent parts, modelled from the spec

    Used to run the game on concrete inputs. The general theorems below
    quantify over every instance of [Externals]. *)

Module SpecModel.

(** Scripted collaborators: what the window system, the clock and the
    random numbers will answer, which leaf initializations fail, and a
    count of the frames presented. *)
Record Script : Type := MkScript {
  polls : list (list (Z * bool) * bool);
  times : list F32.float;
  signs : list bool;
  failing : list Leaf;
  shown : bool;
  frames : nat
}.

(** Modelled from the spec: Window is absent; "pollEvents() -> bool (false
    signals shutdown)" with key events delivered to the callback. With
    nothing left in the script the window is closed. *)
Definition Window_PollEvents (s : Script) : (list (Z * bool) * bool) * Script :=
  match polls s with
  | [] => (([], false), s)
  | p :: rest => (p, MkScript rest (times s) (signs s) (failing s) (shown s) (frames s))
  end.

(** Modelled from the spec: Time is absent; "a monotonically
    non-decreasing seconds-resolution time source". *)
Definition Time_Get (s : Script) : F32.float * Script :=
  match times s with
  | [] => (F32.zero, s)
  | t :: rest => (t, MkScript (polls s) rest (signs s) (failing s) (shown s) (frames s))
  end.

(** Modelled from the spec: Math.h is absent; "each axis independently
    chosen as +1 or -1". *)
Definition RandomSignFloat (s : Script) : F32.float * Script :=
  match signs s with
  | [] => (F32.of_int 1, s)
  | b :: rest =>
      (if b then F32.of_int 1 else F32.of_int (-1),
       MkScript (polls s) (times s) rest (failing s) (shown s) (frames s))
  end.

Definition Leaf_Init (leaf : Leaf) (s : Script) : bool * Script :=
  (bool_decide (leaf ∉ failing s), s).

Definition set_shown (b : bool) (s : Script) : Script :=
  MkScript (polls s) (times s) (signs s) (failing s) b (frames s).

Definition DrawFrame (_ : Ball.t) (_ _ : Paddle.t) (s : Script) : Script :=
  MkScript (polls s) (times s) (signs s) (failing s) (shown s) (S (frames s)).

(** Modelled from the spec: Ball.cpp is absent; "if the ball's vertical
    position plus radius exceeds either terrain edge, reflect
    moveDirection.y (negate it) and correct position to remain in
    bounds". *)
Definition Ball_CollideWithTerrain (winSize : Vector2i.t) (b : Ball.t) : Ball.t :=
  let pos := Ball.position b in
  let dir := Ball.moveDirection b in
  let top := F32.of_int (Vector2i.y winSize) in
  let bounce (y : F32.float) :=
    Ball.set_base
      (GameObject.Make
         (Vector2f.Make (Vector2f.x pos) y)
         (Vector2f.Make (Vector2f.x dir) (F32.neg (Vector2f.y dir)))
         (Ball.moveSpeed b))
      b in
  if F32.gt (F32.add (Vector2f.y pos) (Ball.radius b)) top
  then bounce (F32.sub top (Ball.radius b))
  else if F32.lt (F32.sub (Vector2f.y pos) (Ball.radius b)) F32.zero
  then bounce (Ball.radius b)
  else b.

(** The speed gained at each paddle bounce; the spec says "a fixed
    increment" without giving it. *)
Definition skMoveSpeedIncrement : F32.float := F32.of_int 50.

(** Modelled from the spec: Ball.cpp is absent; "axis-aligned
    bounding-box overlap test between the ball's bounding square (side =
    2 x radius) and the paddle rectangle. On overlap: reflect
    moveDirection.x (negate it), and increase moveSpeed by a fixed
    increment". *)
Definition Ball_CollideWith (p : Paddle.t) (b : Ball.t) : bool * Ball.t :=
  let bp := Ball.position b in
  let pp := Paddle.position p in
  let r := Ball.radius b in
  let hw := F32.div (Vector2f.x (Paddle.size p)) (F32.of_int 2) in
  let hh := F32.div (Vector2f.y (Paddle.size p)) (F32.of_int 2) in
  let overlap :=
    F32.lt (F32.sub (Vector2f.x bp) r) (F32.add (Vector2f.x pp) hw) &&
    F32.gt (F32.add (Vector2f.x bp) r) (F32.sub (Vector2f.x pp) hw) &&
    F32.lt (F32.sub (Vector2f.y bp) r) (F32.add (Vector2f.y pp) hh) &&
    F32.gt (F32.add (Vector2f.y bp) r) (F32.sub (Vector2f.y pp) hh) in
  if overlap then
    (true,
     Ball.set_base
       (GameObject.Make bp
          (Vector2f.Make (F32.neg (Vector2f.x (Ball.moveDirection b)))
                         (Vector2f.y (Ball.moveDirection b)))
          (F32.add (Ball.moveSpeed b) skMoveSpeedIncrement))
       b)
  else (false, b).

(** Modelled from the spec: Ball.cpp is absent; "check whether the ball's
    horizontal position has crossed fully past the left or right terrain
    edge". *)
Definition Ball_GetTouchingSide (winSize : Vector2i.t) (b : Ball.t) : Side.t :=
  let x := Vector2f.x (Ball.position b) in
  if F32.lt (F32.add x (Ball.radius b)) F32.zero then Side.Left
  else if F32.gt (F32.sub x (Ball.radius b)) (F32.of_int (Vector2i.x winSize))
  then Side.Right
  else Side.None.

(** Modelled from the spec: Ball.cpp is absent; the ball returns to its
    "fixed starting positions/velocities", "ball centered". *)
Definition Ball_Reset (winSize : Vector2i.t) (b : Ball.t) : Ball.t :=
  Ball.set_base
    (GameObject.Make
       (Vector2f.Make (F32.div (F32.of_int (Vector2i.x winSize)) (F32.of_int 2))
                      (F32.div (F32.of_int (Vector2i.y winSize)) (F32.of_int 2)))
       (Vector2f.Make F32.zero F32.zero)
       F32.zero)
    b.

(** Modelled from the spec: Ball.h is absent; [Side] seen as an
    [unsigned]. [UpdateScores] indexes a two-element array with
    [1u - side], which stays inside the array for both sides only with
    these values. *)
Definition Side_to_unsigned (s : Side.t) : Z :=
  match s with
  | Side.Left => 0
  | Side.Right => 1
  | Side.None => 2
  end.

(** [Paddle::skDefaultMoveSpeed] (Game/Paddle.h). *)
Definition Paddle_skDefaultMoveSpeed : F32.float := F32.of_int 300.

(** Modelled from the spec: the key handlers of the paddle are absent;
    "four movement keys (two per paddle, up/down)". *)
Definition Paddle_move (dy : F32.float) (p : Paddle.t) : Paddle.t :=
  Paddle.set_base
    (GameObject.Make (Paddle.position p)
       (Vector2f.Make F32.zero dy) Paddle_skDefaultMoveSpeed)
    p.

(** The launch speed of the ball; the spec says "a default constant"
    without giving it. *)
Definition Ball_skDefaultMoveSpeed : F32.float := F32.of_int 500.

#[global] Instance spec_externals : Externals Script :=
  MkExternals Script
    Ball_skDefaultMoveSpeed
    Ball_CollideWithTerrain
    Ball_CollideWith
    Ball_GetTouchingSide
    Ball_Reset
    Side_to_unsigned
    (* up pressed, down pressed, up released, down released *)
    (Paddle_move (F32.of_int 1))
    (Paddle_move (F32.of_int (-1)))
    (Paddle_move F32.zero)
    (Paddle_move F32.zero)
    RandomSignFloat
    Window_PollEvents
    (* show, hide *)
    (set_shown true)
    (set_shown false)
    Time_Get
    (* seeding leaves the scripted signs as they are *)
    (fun s => s)
    Leaf_Init
    (fun _ s => s)
    DrawFrame.

(** The world at process start: the static initializers of lepong.cpp. *)
Definition start_paddle (front : Z) : Paddle.t :=
  Paddle.Make
    (GameObject.Make (Vector2f.Make F32.zero F32.zero)
       (Vector2f.Make F32.zero F32.zero) F32.zero)
    Game.skPaddleSize (F32.of_int front).

Definition start_ball : Ball.t :=
  Ball.Make
    (GameObject.Make (Vector2f.Make F32.zero F32.zero)
       (Vector2f.Make F32.zero F32.zero) F32.zero)
    Game.skBallRadius.

(** A paddle of the game's size at height [y] of column [x], moving
    vertically in direction [dy] at the paddle speed. *)
Definition paddle_at (x y dy : Z) : Paddle.t :=
  Paddle.Make
    (GameObject.Make (Vector2f.Make (F32.of_int x) (F32.of_int y))
       (Vector2f.Make F32.zero (F32.of_int dy)) Paddle_skDefaultMoveSpeed)
    Game.skPaddleSize (F32.of_int 1).

(** A ball of the game's radius at [(x, y)], moving at speed [speed] along
    the normalized direction [(dx, dy)]. *)
Definition ball_at (x y dx dy speed : Z) : Ball.t :=
  Ball.Make
    (GameObject.Make (Vector2f.Make (F32.of_int x) (F32.of_int y))
       (Vector2f.Normalize (Vector2f.Make (F32.of_int dx) (F32.of_int dy)))
       (F32.of_int speed))
    Game.skBallRadius.

(** A world in the middle of a rally, nothing scripted, nothing recorded. *)
Definition world_in_play (ball : Ball.t) (p1 p2 : Paddle.t) (scores : list Z)
  : Game.World Script :=
  Game.MkWorld true true true scores ball p1 p2 F32.zero
    (MkScript [] [] [] [] true 0) [].

(** The ball leaves through the top right corner. *)
Definition corner_frame : Game.World Script :=
  world_in_play (ball_at 1290 710 1 1 500)
    (paddle_at 50 360 0) (paddle_at 1230 360 0) [0; 0].

(** The ball reaches the left paddle. *)
Definition rally_frame : Game.World Script :=
  world_in_play (ball_at 70 360 (-1) 1 500)
    (paddle_at 50 360 0) (paddle_at 1230 360 0) [0; 0].

(** The ball leaves through the right side at mid height. *)
Definition point_frame : Game.World Script :=
  world_in_play (ball_at 1290 360 1 0 500)
    (paddle_at 50 360 0) (paddle_at 1230 360 0) [3; 2].

(** A script for a short run: the launch key in the first frame, the
    window closed in the second. *)
Definition short_run : Script :=
  MkScript [([(32, true)], true); ([], false)]
           [F32.of_int 1; F32.of_int 2] [true; false] [] false 0.

Definition start_world (s : Script) : Game.World Script :=
  Game.MkWorld false false false [0; 0] start_ball
    (start_paddle 1) (start_paddle (-1)) F32.zero s [].

End SpecModel.

(** ** Shader and program creation (lepong/Graphics/Graphics.cpp) *)

Module Graphics.

(** OpenGL enumerants; GL.h names the values of the OpenGL headers. *)
Definition gl_FragmentShader : Z := 35632.
Definition gl_VertexShader : Z := 35633.
Definition gl_CompileStatus : Z := 35713.
Definition gl_LinkStatus : Z := 35714.
Definition gl_InfoLogLength : Z := 35716.

(** The driver entry points the two procedures go through. [G] is the
    state of the OpenGL driver. A [GLuint] or [GLint] is the [Z] the
    driver hands back. *)
Class Driver (G : Type) : Type := MkDriver {
  glCreateShader : Z -> G -> Z * G;
  glShaderSource : Z -> string -> G -> G;
  glCompileShader : Z -> G -> G;
  glGetShaderiv : Z -> Z -> G -> Z * G;
  glGetShaderInfoLog : Z -> Z -> G -> string * G;
  glDeleteShader : Z -> G -> G;
  glCreateProgram : G -> Z * G;
  glAttachShader : Z -> Z -> G -> G;
  glLinkProgram : Z -> G -> G;
  glGetProgramiv : Z -> Z -> G -> Z * G;
  glGetProgramInfoLog : Z -> Z -> G -> string * G;
  glDeleteProgram : Z -> G -> G
}.

(** Ghost record of the driver calls and of the lines sent to the log. *)
Inductive Event : Type :=
| EvCreateShader (type shader : Z)
| EvShaderSource (shader : Z) (source : string)
| EvCompileShader (shader : Z)
| EvGetShaderiv (shader name value : Z)
| EvGetShaderInfoLog (shader bufSize : Z) (text : string)
| EvDeleteShader (shader : Z)
| EvCreateProgram (program : Z)
| EvAttachShader (program shader : Z)
| EvLinkProgram (program : Z)
| EvGetProgramiv (program name value : Z)
| EvGetProgramInfoLog (program bufSize : Z) (text : string)
| EvDeleteProgram (program : Z)
| EvLog (line : string).

Section Procedures.
Context {G : Type} `{Driver G}.

Record State : Type := MkState {
  driver : G;
  events : list Event
}.

Definition Prog (A : Type) : Type := M State A.

Definition note (e : Event) : Prog unit :=
  modify (fun st => MkState (driver st) (events st ++ [e])).

Definition gl {A : Type} (f : G -> A * G) : Prog A :=
  fun st => let '(a, g) := f (driver st) in Some (a, MkState g (events st)).

Definition gl_ (f : G -> G) : Prog unit :=
  modify (fun st => MkState (f (driver st)) (events st)).

(** [gl::] wrappers; each records the call. *)
Definition gl_CreateShader (type : Z) : Prog Z :=
  shader <- gl (glCreateShader type) ;;
  note (EvCreateShader type shader) ;;
  ret shader.
Definition gl_ShaderSource (shader : Z) (source : string) : Prog unit :=
  gl_ (glShaderSource shader source) ;; note (EvShaderSource shader source).
Definition gl_CompileShader (shader : Z) : Prog unit :=
  gl_ (glCompileShader shader) ;; note (EvCompileShader shader).
Definition gl_GetShaderiv (shader name : Z) : Prog Z :=
  value <- gl (glGetShaderiv shader name) ;;
  note (EvGetShaderiv shader name value) ;;
  ret value.
Definition gl_GetShaderInfoLog (shader bufSize : Z) : Prog string :=
  text <- gl (glGetShaderInfoLog shader bufSize) ;;
  note (EvGetShaderInfoLog shader bufSize text) ;;
  ret text.
Definition gl_DeleteShader (shader : Z) : Prog unit :=
  gl_ (glDeleteShader shader) ;; note (EvDeleteShader shader).
Definition gl_CreateProgram : Prog Z :=
  program <- gl glCreateProgram ;;
  note (EvCreateProgram program) ;;
  ret program.
Definition gl_AttachShader (program shader : Z) : Prog unit :=
  gl_ (glAttachShader program shader) ;; note (EvAttachShader program shader).
Definition gl_LinkProgram (program : Z) : Prog unit :=
  gl_ (glLinkProgram program) ;; note (EvLinkProgram program).
Definition gl_GetProgramiv (program name : Z) : Prog Z :=
  value <- gl (glGetProgramiv program name) ;;
  note (EvGetProgramiv program name value) ;;
  ret value.
Definition gl_GetProgramInfoLog (program bufSize : Z) : Prog string :=
  text <- gl (glGetProgramInfoLog program bufSize) ;;
  note (EvGetProgramInfoLog program bufSize text) ;;
  ret text.
Definition gl_DeleteProgram (program : Z) : Prog unit :=
  gl_ (glDeleteProgram program) ;; note (EvDeleteProgram program).

(** [Log::Log(line)]. *)
Definition Log_Log (line : string) : Prog unit := note (EvLog line).

Definition GetItemiv (item name : Z) (getItemiv : Z -> Z -> Prog Z) : Prog Z :=
  getItemiv item name.

Definition ShaderCompileFailed (shader : Z) : Prog bool :=
  value <- GetItemiv shader gl_CompileStatus gl_GetShaderiv ;;
  ret (value =? 0).

Definition ProgramLinkFailed (program : Z) : Prog bool :=
  value <- GetItemiv program gl_LinkStatus gl_GetProgramiv ;;
  ret (value =? 0).

(** [LogItemInfo]: the info log is read into a buffer of
    [kInfoLogLength] characters and logged as a C string. With no
    character in the buffer there is no string to read, and a negative
    length is no array size: no defined result in either case. *)
Definition LogItemInfo (item : Z) (getItemiv : Z -> Z -> Prog Z)
    (getItemInfo : Z -> Z -> Prog string) : Prog unit :=
  kInfoLogLength <- GetItemiv item gl_InfoLogLength getItemiv ;;
  if kInfoLogLength <=? 0 then undefined
  else
    kInfoLogData <- getItemInfo item kInfoLogLength ;;
    Log_Log kInfoLogData.

Definition LogShaderInfo (shader : Z) : Prog unit :=
  Log_Log "Shader info:" ;;
  LogItemInfo shader gl_GetShaderiv gl_GetShaderInfoLog.

Definition LogProgramInfo (program : Z) : Prog unit :=
  Log_Log "Program info:" ;;
  LogItemInfo program gl_GetProgramiv gl_GetProgramInfoLog.

(** [CreateShaderFromSource]; a null [source] is [None].
    [LEPONG_ASSERT_OR_RETURN_VAL(c, v)] (Assert.h, absent) is read as
    its name says: return [v] unless [c] holds. *)
Definition CreateShaderFromSource (type : Z) (source : option string) : Prog Z :=
  match source with
  | None => ret 0
  | Some text =>
      if negb ((type =? gl_VertexShader) || (type =? gl_FragmentShader)) then ret 0
      else
        shader <- gl_CreateShader type ;;
        gl_ShaderSource shader text ;;
        gl_CompileShader shader ;;
        kCompileFailed <- ShaderCompileFailed shader ;;
        if kCompileFailed then
          LogShaderInfo shader ;;
          gl_DeleteShader shader ;;
          ret 0
        else ret shader
  end.

Definition CreateProgramFromShaders (vert frag : Z) : Prog Z :=
  if negb (negb (vert =? 0) && negb (frag =? 0)) then ret 0
  else
    program <- gl_CreateProgram ;;
    gl_AttachShader program vert ;;
    gl_AttachShader program frag ;;
    gl_LinkProgram program ;;
    kLinkFailed <- ProgramLinkFailed program ;;
    if kLinkFailed then
      LogProgramInfo program ;;
      gl_DeleteProgram program ;;
      ret 0
    else ret program.

(** *** The driver's side of the two procedures *)

(** What the driver answers while a shader is created and compiled: the
    name, the compile status, and the driver afterwards. *)
Definition compiled (type : Z) (text : string) (g : G) : Z * Z * G :=
  let '(shader, g1) := glCreateShader type g in
  let g2 := glCompileShader shader (glShaderSource shader text g1) in
  let '(status, g3) := glGetShaderiv shader gl_CompileStatus g2 in
  (shader, status, g3).

(** What the driver answers while a program is created and linked. *)
Definition linked (vert frag : Z) (g : G) : Z * Z * G :=
  let '(program, g1) := glCreateProgram g in
  let g2 := glLinkProgram program
              (glAttachShader program frag (glAttachShader program vert g1)) in
  let '(status, g3) := glGetProgramiv program gl_LinkStatus g2 in
  (program, status, g3).

End Procedures.

(** A driver for concrete runs: names are handed out in increasing
    order; a shader fails to compile when its source is empty, a program
    fails to link when a shader that failed is attached to it; the info
    log of a failed object is a fixed line. *)
Record Toy : Type := MkToy {
  next : Z;
  failed : list Z
}.

Definition toy_log : string := "error".

Definition toy_create (g : Toy) : Z * Toy :=
  (next g, MkToy (next g + 1) (failed g)).

Definition toy_fail (item : Z) (g : Toy) : Toy :=
  MkToy (next g) (item :: failed g).

Definition toy_get (item : Z) (name : Z) (g : Toy) : Z * Toy :=
  (if name =? gl_InfoLogLength
   then (if bool_decide (item ∈ failed g) then 6 else 0)
   else (if bool_decide (item ∈ failed g) then 0 else 1),
   g).

#[global] Instance toy_driver : Driver Toy :=
  MkDriver Toy
    (fun _ g => toy_create g)
    (fun shader text g => if String.eqb text EmptyString then toy_fail shader g else g)
    (fun _ g => g)
    toy_get
    (fun _ _ g => (toy_log, g))
    (fun _ g => g)
    toy_create
    (fun program shader g =>
       if bool_decide (shader ∈ failed g) then toy_fail program g else g)
    (fun _ g => g)
    toy_get
    (fun _ _ g => (toy_log, g))
    (fun _ g => g).

End Graphics.

(** ** The OpenGL library (lepong/Graphics/Graphics.cpp, [Init], [Cleanup],
       [LoadOpenGLFunction]) *)

Module GraphicsLibrary.

(** The entry points of Windows the three procedures go through. [O] is
    the state of the operating system. A module handle or a procedure
    address is the [Z] the system hands back, 0 for null. *)
Class System (O : Type) : Type := MkSystem {
  LoadLibraryA : string -> O -> Z * O;
  FreeLibrary : Z -> O -> O;
  wglGetProcAddress : string -> O -> Z * O;
  GetProcAddress : Z -> string -> O -> Z * O
}.

(** Ghost record of the system calls. *)
Inductive Event : Type :=
| EvLoadLibraryA (name : string) (handle : Z)
| EvFreeLibrary (handle : Z)
| EvWglGetProcAddress (name : string) (address : Z)
| EvGetProcAddress (handle : Z) (name : string) (address : Z).

(** What a client of Graphics.h can call. *)
Inductive Call : Type :=
| CallInit
| CallCleanup
| CallLoadOpenGLFunction (name : option string).

Section Procedures.
Context {O : Type} `{System O}.

(** [sOpenGLLibrary] with the system's state and the ghost record. *)
Record State : Type := MkState {
  system : O;
  sOpenGLLibrary : Z;
  events : list Event
}.

Definition Prog (A : Type) : Type := M State A.

Definition note (e : Event) : Prog unit :=
  modify (fun st => MkState (system st) (sOpenGLLibrary st) (events st ++ [e])).

Definition os {A : Type} (f : O -> A * O) : Prog A :=
  fun st =>
    let '(a, o) := f (system st) in Some (a, MkState o (sOpenGLLibrary st) (events st)).

Definition os_ (f : O -> O) : Prog unit :=
  modify (fun st => MkState (f (system st)) (sOpenGLLibrary st) (events st)).

Definition set_sOpenGLLibrary (handle : Z) : Prog unit :=
  modify (fun st => MkState (system st) handle (events st)).

(** [Graphics::Init]. [LEPONG_ASSERT_OR_RETURN_VAL(c, v)] (Assert.h,
    absent) is read as its name says: return [v] unless [c] holds. *)
Definition Init : Prog bool :=
  library <- gets sOpenGLLibrary ;;
  if negb (library =? 0) then ret false
  else
    handle <- os (LoadLibraryA "OpenGL32.dll") ;;
    note (EvLoadLibraryA "OpenGL32.dll" handle) ;;
    set_sOpenGLLibrary handle ;;
    ret (negb (handle =? 0)).

(** [Graphics::Cleanup]. *)
Definition Cleanup : Prog unit :=
  library <- gets sOpenGLLibrary ;;
  if library =? 0 then ret tt
  else
    os_ (FreeLibrary library) ;;
    note (EvFreeLibrary library) ;;
    set_sOpenGLLibrary 0.

(** [Graphics::LoadOpenGLFunction]; a null [name] is [None]. *)
Definition LoadOpenGLFunction (name : option string) : Prog Z :=
  library <- gets sOpenGLLibrary ;;
  match name with
  | Some text =>
      if library =? 0 then ret 0
      else
        kFunction <- os (wglGetProcAddress text) ;;
        note (EvWglGetProcAddress text kFunction) ;;
        if kFunction =? 0 then
          address <- os (GetProcAddress library text) ;;
          note (EvGetProcAddress library text address) ;;
          ret address
        else ret kFunction
  | None => ret 0
  end.

Definition call (c : Call) : Prog unit :=
  match c with
  | CallInit => _ <- Init ;; ret tt
  | CallCleanup => Cleanup
  | CallLoadOpenGLFunction name => _ <- LoadOpenGLFunction name ;; ret tt
  end.

Fixpoint calls (cs : list Call) : Prog unit :=
  match cs with
  | [] => ret tt
  | c :: rest => call c ;; calls rest
  end.

End Procedures.

(** The discipline of a module handle, checked along a record; the state
    of the check is the handle held, 0 for none. A library is loaded only
    when none is held, freed only when it is the one held, and a procedure
    is looked up only while one is held, in that one. [None] when the
    record breaks the discipline. *)
Definition step (held : Z) (e : Event) : option Z :=
  match e with
  | EvLoadLibraryA _ handle => if held =? 0 then Some handle else None
  | EvFreeLibrary handle =>
      if negb (held =? 0) && (handle =? held) then Some 0 else None
  | EvWglGetProcAddress _ _ => if held =? 0 then None else Some held
  | EvGetProcAddress handle _ _ =>
      if negb (held =? 0) && (handle =? held) then Some held else None
  end.

Fixpoint replay (record : list Event) (held : Z) : option Z :=
  match record with
  | [] => Some held
  | e :: rest =>
      match step held e with
      | Some held' => replay rest held'
      | None => None
      end
  end.

(** The handle in [sOpenGLLibrary] is the one the record leaves held. *)
Definition consistent {O : Type} (st : State (O := O)) : Prop :=
  replay (events st) 0 = Some (sOpenGLLibrary st).

(** A system for concrete runs: the library loads at the handle [base]
    unless [missing]; [wglGetProcAddress] knows the names of [extensions]
    and [GetProcAddress] those of [exports], each at the address given. *)
Record Toy : Type := MkToy {
  base : Z;
  missing : bool;
  extensions : list (string * Z);
  exports : list (string * Z)
}.

Definition toy_find (name : string) (table : list (string * Z)) : Z :=
  match List.find (fun entry => String.eqb (fst entry) name) table with
  | Some entry => snd entry
  | None => 0
  end.

#[global] Instance toy_system : System Toy :=
  MkSystem Toy
    (fun _ o => (if missing o then 0 else base o, o))
    (fun _ o => o)
    (fun name o => (toy_find name (extensions o), o))
    (fun _ name o => (toy_find name (exports o), o)).

End GraphicsLibrary.

(** ** The paddle program (lepong.cpp, [InitPaddleProgram],
       [CreateProgramWithWinSizeUniform], [LoadWinSizeUniform];
       Game/Paddle.cpp, [MakePaddleFragmentShader]) *)

Module Programs.

(** The driver entry points [LoadWinSizeUniform] goes through, besides
    those of [Graphics.Driver]. *)
Class UniformDriver (G : Type) : Type := MkUniformDriver {
  glUseProgram : Z -> G -> G;
  glGetUniformLocation : Z -> string -> G -> Z * G;
  glUniform2f : Z -> F32.float -> F32.float -> G -> G
}.

(** Ghost record: the calls recorded by the procedures of Graphics.cpp,
    and the three calls above. *)
Inductive Event : Type :=
| EvGraphics (e : Graphics.Event)
| EvUseProgram (program : Z)
| EvGetUniformLocation (program : Z) (name : string) (location : Z)
| EvUniform2f (location : Z) (x y : F32.float).

Section Procedures.
Context {G : Type} `{Graphics.Driver G} `{UniformDriver G}.

(** The driver, [sPaddleProgram] and the ghost record. *)
Record State : Type := MkState {
  driver : G;
  sPaddleProgram : Z;
  events : list Event
}.

Definition Prog (A : Type) : Type := M State A.

Definition note (e : Event) : Prog unit :=
  modify (fun st => MkState (driver st) (sPaddleProgram st) (events st ++ [e])).

(** Run a procedure of Graphics.cpp on the driver; what it records is
    appended to the record. *)
Definition graphics {A : Type} (c : Graphics.Prog A) : Prog A :=
  fun st =>
    match c (Graphics.MkState (driver st) []) with
    | Some (a, after) =>
        Some (a, MkState (Graphics.driver after) (sPaddleProgram st)
                   (events st ++ (EvGraphics <$> Graphics.events after)))
    | None => None
    end.

Definition gl_UseProgram (program : Z) : Prog unit :=
  modify (fun st =>
    MkState (glUseProgram program (driver st)) (sPaddleProgram st) (events st)) ;;
  note (EvUseProgram program).

Definition gl_GetUniformLocation (program : Z) (name : string) : Prog Z :=
  location <- (fun st =>
                 let '(location, g) := glGetUniformLocation program name (driver st) in
                 Some (location, MkState g (sPaddleProgram st) (events st))) ;;
  note (EvGetUniformLocation program name location) ;;
  ret location.

Definition gl_Uniform2f (location : Z) (x y : F32.float) : Prog unit :=
  modify (fun st =>
    MkState (glUniform2f location x y (driver st)) (sPaddleProgram st) (events st)) ;;
  note (EvUniform2f location x y).

(** [LoadWinSizeUniform]. *)
Definition LoadWinSizeUniform (program : Z) : Prog unit :=
  let kWinSize :=
    Vector2f.Make (F32.of_int (Vector2i.x Game.skWinSize))
                  (F32.of_int (Vector2i.y Game.skWinSize)) in
  gl_UseProgram program ;;
  kLocation <- gl_GetUniformLocation program "uWinSize" ;;
  gl_Uniform2f kLocation (Vector2f.x kWinSize) (Vector2f.y kWinSize).

(** [CreateProgramWithWinSizeUniform]. *)
Definition CreateProgramWithWinSizeUniform (vertex fragment : Z) : Prog Z :=
  kProgram <- graphics (Graphics.CreateProgramFromShaders vertex fragment) ;;
  graphics (Graphics.gl_DeleteShader vertex) ;;
  graphics (Graphics.gl_DeleteShader fragment) ;;
  when (negb (kProgram =? 0)) (LoadWinSizeUniform kProgram) ;;
  ret kProgram.

(** The source of the paddle's fragment shader (Game/Paddle.cpp). *)
Definition kSource : string :=
"

    #version 330 core

    out vec4 FragColor;

    void main()
    {
        FragColor = vec4(1.0, 1.0, 1.0, 1.0);
    }

    ".

(** [MakePaddleFragmentShader] (Game/Paddle.cpp). *)
Definition MakePaddleFragmentShader : Prog Z :=
  graphics (Graphics.CreateShaderFromSource Graphics.gl_FragmentShader (Some kSource)).

(** [InitPaddleProgram]. [Graphics::MakeQuadVertexShader] (Quad.cpp) is not
    among the embedded files and is a parameter here. The two arguments
    of the call are evaluated in an order the language leaves open:
    [vertexFirst] is that choice. *)
Definition InitPaddleProgram (MakeQuadVertexShader : Prog Z) (vertexFirst : bool)
  : Prog bool :=
  shaders <- (if vertexFirst then
                vertex <- MakeQuadVertexShader ;;
                fragment <- MakePaddleFragmentShader ;;
                ret (vertex, fragment)
              else
                fragment <- MakePaddleFragmentShader ;;
                vertex <- MakeQuadVertexShader ;;
                ret (vertex, fragment)) ;;
  program <- CreateProgramWithWinSizeUniform (fst shaders) (snd shaders) ;;
  modify (fun st => MkState (driver st) program (events st)) ;;
  program <- gets sPaddleProgram ;;
  ret (negb (program =? 0)).

(** [CleanupPaddleProgram]. *)
Definition CleanupPaddleProgram : Prog unit :=
  program <- gets sPaddleProgram ;;
  graphics (Graphics.gl_DeleteProgram program).

End Procedures.

(** *** The names alive along a record *)

(** Take one occurrence of [name] out of [names]; [None] when there is none. *)
Fixpoint remove_one (name : Z) (names : list Z) : option (list Z) :=
  match names with
  | [] => None
  | first :: rest =>
      if first =? name then Some rest
      else cons first <$> remove_one name rest
  end.

(** The name 0 is no object: the driver ignores its deletion. *)
Definition add_name (name : Z) (names : list Z) : list Z :=
  if name =? 0 then names else name :: names.

Definition drop_name (name : Z) (names : list Z) : option (list Z) :=
  if name =? 0 then Some names else remove_one name names.

(** The state of the check is the shaders and the programs that were
    created and not yet deleted. [None] when something is deleted that is
    not alive. *)
Definition step (alive : list Z * list Z) (e : Event) : option (list Z * list Z) :=
  let '(shaders, programs) := alive in
  match e with
  | EvGraphics (Graphics.EvCreateShader _ shader) =>
      Some (add_name shader shaders, programs)
  | EvGraphics (Graphics.EvDeleteShader shader) =>
      (fun shaders' => (shaders', programs)) <$> drop_name shader shaders
  | EvGraphics (Graphics.EvCreateProgram program) =>
      Some (shaders, add_name program programs)
  | EvGraphics (Graphics.EvDeleteProgram program) =>
      (fun programs' => (shaders, programs')) <$> drop_name program programs
  | _ => Some alive
  end.

Fixpoint replay (record : list Event) (alive : list Z * list Z)
  : option (list Z * list Z) :=
  match record with
  | [] => Some alive
  | e :: rest =>
      match step alive e with
      | Some alive' => replay rest alive'
      | None => None
      end
  end.

(** The calls that load a uniform. *)
Definition is_uniform_call (e : Event) : bool :=
  match e with
  | EvUseProgram _ | EvGetUniformLocation _ _ _ | EvUniform2f _ _ _ => true
  | _ => false
  end.

(** The uniform calls [LoadWinSizeUniform] makes for a program; none are
    made for the null program. *)
Definition uniform_calls_of (program location : Z) : list Event :=
  if program =? 0 then []
  else [EvUseProgram program;
        EvGetUniformLocation program "uWinSize" location;
        EvUniform2f location (F32.of_int 1280) (F32.of_int 720)].

(** A procedure that makes a shader: whenever it returns, the shader it
    returns is the only name it leaves alive, nothing of what was alive is
    deleted, no uniform is loaded and [sPaddleProgram] is left alone. *)
Definition makes_shader {G : Type} (make : Prog (G := G) Z) : Prop :=
  forall st shader st',
    make st = Some (shader, st') ->
    sPaddleProgram st' = sPaddleProgram st
    /\ exists new,
         events st' = events st ++ new
         /\ List.filter is_uniform_call new = []
         /\ forall shaders programs,
              replay new (shaders, programs) = Some (add_name shader shaders, programs).

#[global] Instance toy_uniform_driver : UniformDriver Graphics.Toy :=
  MkUniformDriver Graphics.Toy
    (fun _ g => g)
    (fun _ _ g => (7, g))
    (fun _ _ _ g => g).

End Programs.

(** ** Reading the ghost trace *)

Module Trace.

#[global] Instance float_eq_dec : EqDecision F32.float.
Proof. solve_decision. Defined.
#[global] Instance Vector2f_eq_dec : EqDecision Vector2f.t.
Proof. solve_decision. Defined.
#[global] Instance GameObject_eq_dec : EqDecision GameObject.t.
Proof. solve_decision. Defined.
#[global] Instance Ball_eq_dec : EqDecision Ball.t.
Proof. solve_decision. Defined.

(** The three steps of a frame. *)
Definition is_frame_step (e : Event) : bool :=
  match e with
  | EvPollEvents _ | EvOnUpdate | EvOnRender => true
  | _ => false
  end.

(** A ball-paddle bounce was resolved: [CollideWith] returned true. *)
Definition is_paddle_bounce (e : Event) : bool :=
  match e with
  | EvCollideWith _ hit => hit
  | _ => false
  end.

(** A ball-terrain bounce was resolved: [CollideWithTerrain] changed the ball. *)
Definition is_terrain_bounce (e : Event) : bool :=
  match e with
  | EvCollideWithTerrain before after => bool_decide (before <> after)
  | _ => false
  end.

(** The side-scoring check and what it can lead to. *)
Definition is_side_check (e : Event) : bool :=
  match e with
  | EvGetTouchingSide _ => true
  | _ => false
  end.

Definition is_scoring (e : Event) : bool :=
  match e with
  | EvGetTouchingSide _ | EvUpdateScores _ | EvResetGameState => true
  | _ => false
  end.

Definition is_reset (e : Event) : bool :=
  match e with
  | EvResetGameState => true
  | _ => false
  end.

Definition is_launch (e : Event) : bool :=
  match e with
  | EvLaunchBall => true
  | _ => false
  end.

(** Events of the lifecycle: leaf calls, entering and leaving the loop. *)
Definition is_lifecycle (e : Event) : bool :=
  match e with
  | EvLeafInit _ _ | EvLeafCleanup _ | EvOnBeginRun | EvOnFinishRun => true
  | _ => false
  end.

(** The discipline of the lifecycle, checked along a trace. The state of
    the check is the stack of the leaves that are initialized, most recent
    first, and whether the frame loop is running. A leaf is initialized
    only when it is not already, cleaned up only when it is the most
    recently initialized one still alive, and neither happens while the
    loop runs. [None] when the trace breaks the discipline. *)
Definition step (state : list Leaf * bool) (e : Event) : option (list Leaf * bool) :=
  let '(alive, running) := state in
  match e with
  | EvLeafInit leaf ok =>
      if running || bool_decide (leaf ∈ alive) then None
      else Some (if ok then leaf :: alive else alive, running)
  | EvLeafCleanup leaf =>
      match alive with
      | top :: below =>
          if negb running && bool_decide (top = leaf) then Some (below, running) else None
      | [] => None
      end
  | EvOnBeginRun => if running then None else Some (alive, true)
  | EvOnFinishRun => if running then Some (alive, false) else None
  | _ => Some state
  end.

Fixpoint replay (events : list Event) (state : list Leaf * bool)
  : option (list Leaf * bool) :=
  match events with
  | [] => Some state
  | e :: rest =>
      match step state e with
      | Some state' => replay rest state'
      | None => None
      end
  end.

(** All the leaves, the last one initialized first. *)
Definition all_leaves : list Leaf :=
  [ TexturedQuad; Quad; BallProgram; PaddleProgram; Context; GameWindow;
    TimeSystem; GLSystem; GraphicsSystem; WindowSystem; LogSystem ].

End Trace.

(** ** The entry points as a client drives them (lepong.h) *)

Module Session.

Inductive Entry : Type :=
| DoInit
| DoRun (fuel : nat)
| DoCleanup.

Section Session.
Context {X : Type} `{Externals X}.

Definition enter (e : Entry) : Game.Prog X unit :=
  match e with
  | DoInit => _ <- Game.Init ;; ret tt
  | DoRun fuel => Game.Run fuel
  | DoCleanup => Game.Cleanup
  end.

Fixpoint session (entries : list Entry) : Game.Prog X unit :=
  match entries with
  | [] => ret tt
  | e :: rest => enter e ;; session rest
  end.

End Session.

End Session.

(** ** Relations between the world before and after a procedure *)

Section Relations.
Context {X : Type}.
Local Abbreviation World := (Game.World X).

(** [steps R c]: whenever [c] returns, the worlds before and after are
    related by [R]. *)
Definition steps {A : Type} (R : relation World) (c : Game.Prog X A) : Prop :=
  forall w a w', c w = Some (a, w') -> R w w'.

(** The trace grows by events that all satisfy [P]. *)
Definition appends (P : Event -> bool) : relation World :=
  fun w w' => exists new, Game.trace w' = Game.trace w ++ new /\ forallb P new = true.

(** The field (or view) [f] of the world is left as it was. *)
Definition keeps {A : Type} (f : World -> A) : relation World :=
  fun w w' => f w' = f w.

(** What a key event leaves alone when it does not launch the ball. *)
Definition no_launch : relation World :=
  fun w w' =>
    appends (fun e => negb (Trace.is_launch e)) w w'
    /\ keeps Game.sPlaying w w'
    /\ keeps Game.sBall w w'.

(** An event that is neither a step of the frame loop nor one of the
    lifecycle. *)
Definition quiet_event (e : Event) : bool :=
  negb (Trace.is_frame_step e) && negb (Trace.is_lifecycle e).

(** What the work done inside a frame leaves alone: it records quiet
    events only, and leaves the two flags of the entry points and the
    size of the score table as they were. *)
Definition inside_frame : relation World :=
  fun w w' =>
    appends quiet_event w w'
    /\ keeps Game.sInitialized w w'
    /\ keeps Game.sRunning w w'
    /\ keeps (fun w => length (Game.sPlayerScores w)) w w'.

(** What the loop of [Run] leaves alone from one test of [sRunning] to
    the next: it records no event of the lifecycle and leaves
    [sInitialized] as it was. *)
Definition in_loop : relation World :=
  fun w w' =>
    appends (fun e => negb (Trace.is_lifecycle e)) w w'
    /\ keeps Game.sInitialized w w'.

(** A step of the lifecycle: the events it records satisfy [P], and the
    two flags of the entry points are left as they were. *)
Definition lifecycle_step (P : list Event -> Prop) : relation World :=
  fun w w' =>
    (exists new, Game.trace w' = Game.trace w ++ new /\ P new)
    /\ Game.sInitialized w' = Game.sInitialized w
    /\ Game.sRunning w' = Game.sRunning w.

(** [new] starts the leaves [leaves], in this order, over any stack of
    other leaves, or, when [ok] is false, leaves the stack as it found it. *)
Definition starts (leaves : list Leaf) (ok : bool) (new : list Event) : Prop :=
  forall alive,
    (forall leaf, leaf ∈ leaves -> leaf ∉ alive) ->
    Trace.replay new (alive, false)
    = Some (if ok then reverse leaves ++ alive else alive, false).

(** [new] stops the leaves [leaves], last one first. *)
Definition stops (leaves : list Leaf) (new : list Event) : Prop :=
  forall alive,
    Trace.replay new (reverse leaves ++ alive, false) = Some (alive, false).

(** The item starts and stops exactly the leaves [leaves]. *)
Definition governs (item : Lifecycle.Lifetime World) (leaves : list Leaf) : Prop :=
  (forall w ok w', Lifecycle.mInit item w = Some (ok, w') ->
     lifecycle_step (starts leaves ok) w w')
  /\ (forall w u w', Lifecycle.mCleanup item w = Some (u, w') ->
        lifecycle_step (stops leaves) w w').

(** Between two calls of the entry points: the loop is not running, the
    trace so far obeys the discipline of the lifecycle, and the leaves it
    leaves alive are all of them when the game is initialized, none
    otherwise. *)
Definition consistent (w : World) : Prop :=
  Game.sRunning w = false
  /\ Trace.replay (Game.trace w) ([], false)
     = Some (if Game.sInitialized w then Trace.all_leaves else [], false).

End Relations.

(** ** Further notions used to state what the code does *)

Module More.

(** The test of [Paddle::CollideAgainstTerrain]. *)
Definition collides (winSize : Vector2i.t) (p : Paddle.t) : bool :=
  Paddle.kCollidesTop winSize p || Paddle.kCollidesBottom winSize p.

(** A paddle of the game's size that the terrain test of the game's window
    lets be. *)
Definition in_terrain (p : Paddle.t) : Prop :=
  Paddle.size p = Game.skPaddleSize /\ collides Game.skWinSize p = false.

(** The steps of the frames whose polls returned [answers]. *)
Definition frame_steps (answers : list bool) : list Event :=
  answers ≫= (fun continue => [EvPollEvents continue; EvOnUpdate; EvOnRender]).

(** The leaves in the order of the tables. *)
Definition table_order : list Leaf := reverse Trace.all_leaves.

(** The events of starting [leaves] in order, of stopping them last one
    first, and of a start that fails at the leaf of index [k]: the leaves
    before it are started, it fails, they are stopped. *)
Definition init_events (leaves : list Leaf) : list Event :=
  (fun leaf => EvLeafInit leaf true) <$> leaves.

Definition cleanup_events (leaves : list Leaf) : list Event :=
  EvLeafCleanup <$> reverse leaves.

Definition rollback_events (leaves : list Leaf) (k : nat) (failed : Leaf) : list Event :=
  init_events (take k leaves) ++ [EvLeafInit failed false] ++ cleanup_events (take k leaves).

(** A key event of the poll: a press of the launch key, or a key of the
    first or of the second player. *)
Definition is_launch_key (event : Z * bool) : bool :=
  snd event && (fst event =? Game.VK_SPACE).
Definition is_player1_key (event : Z * bool) : bool :=
  (fst event =? Game.skP1Up) || (fst event =? Game.skP1Down).
Definition is_player2_key (event : Z * bool) : bool :=
  (fst event =? Game.skP2Up) || (fst event =? Game.skP2Down).

(** What [OnKeyEvent] records of a key event. *)
Definition key_event (event : Z * bool) : Event :=
  EvOnKeyEvent (fst event) (snd event).

(** The number of launches recorded. *)
Definition launches (events : list Event) : nat :=
  length (List.filter Trace.is_launch events).

(** The steps of a run: entering and leaving the loop, and the three
    steps of a frame. *)
Definition is_run_step (e : Event) : bool :=
  match e with
  | EvOnBeginRun | EvOnFinishRun | EvPollEvents _ | EvOnUpdate | EvOnRender => true
  | _ => false
  end.

(** The key handler leaves the height and the size of a paddle alone. *)
Definition keeps_place (handler : Paddle.t -> Paddle.t) : Prop :=
  forall p,
    Vector2f.y (Paddle.position (handler p)) = Vector2f.y (Paddle.position p)
    /\ Paddle.size (handler p) = Paddle.size p.

(** The four key handlers of the paddles do. *)
Definition handlers_keep_place {X : Type} `{Externals X} : Prop :=
  keeps_place Paddle_OnMoveUpPressed /\ keeps_place Paddle_OnMoveDownPressed
  /\ keeps_place Paddle_OnMoveUpReleased /\ keeps_place Paddle_OnMoveDownReleased.

(** Both paddles have the size the game gives them. *)
Definition game_size_paddles {X : Type} (w : Game.World X) : Prop :=
  Paddle.size (Game.sPaddle1 w) = Game.skPaddleSize
  /\ Paddle.size (Game.sPaddle2 w) = Game.skPaddleSize.

(** Both paddles are clear of the margins of the terrain. *)
Definition paddles_in_terrain {X : Type} (w : Game.World X) : Prop :=
  in_terrain (Game.sPaddle1 w) /\ in_terrain (Game.sPaddle2 w).

(** Paddles that were clear of the margins still are. *)
Definition terrain_kept {X : Type} : relation (Game.World X) :=
  fun w w' => paddles_in_terrain w -> paddles_in_terrain w'.

(** [n] frames in a row, whatever the polls answer. *)
Fixpoint frames {X : Type} `{Externals X} (n : nat) : Game.Prog X unit :=
  match n with
  | O => ret tt
  | S n' => Game.Run_body ;; frames n'
  end.

(** Only the collaborators and the trace differ between the two worlds. *)
Definition same_game {X : Type} (w w' : Game.World X) : Prop :=
  w' = Game.set_trace (Game.trace w') (Game.set_externals (Game.externals w') w).

(** What an initialization over the leaves [leaves] records: all their
    inits when it succeeds; otherwise the inits of the first [k], the
    failed init of the next one, and the cleanups of the first [k], last
    one first. *)
Definition init_outcome (leaves : list Leaf) (ok : bool) (new : list Event) : Prop :=
  if ok then new = init_events leaves
  else exists k failed,
         leaves !! k = Some failed /\ new = rollback_events leaves k failed.

(** The item starts and stops exactly the leaves [leaves], always returns,
    and touches nothing of the game but the collaborators. *)
Definition runs_exactly {X : Type} (item : Lifecycle.Lifetime (Game.World X))
    (leaves : list Leaf) : Prop :=
  (forall w, exists ok w' new,
     Lifecycle.mInit item w = Some (ok, w')
     /\ same_game w w'
     /\ Game.trace w' = Game.trace w ++ new
     /\ init_outcome leaves ok new)
  /\ (forall w, exists w',
        Lifecycle.mCleanup item w = Some (tt, w')
        /\ same_game w w'
        /\ Game.trace w' = Game.trace w ++ cleanup_events leaves).

(** A driver that creates the name 1, reports the status 0 and has no
    info log to give. *)
Definition terse_driver : Graphics.Driver unit :=
  Graphics.MkDriver unit
    (fun _ g => (1, g))
    (fun _ _ g => g)
    (fun _ g => g)
    (fun _ _ g => (0, g))
    (fun _ _ g => (EmptyString, g))
    (fun _ g => g)
    (fun g => (1, g))
    (fun _ _ g => g)
    (fun _ g => g)
    (fun _ _ g => (0, g))
    (fun _ _ g => (EmptyString, g))
    (fun _ g => g).
End More.

(** * Properties *)

(** ** Procedures that return *)

Lemma bind_Some {S A B : Type} (c : M S A) (k : A -> M S B) (s s' : S) (b : B) :
  bind c k s = Some (b, s') ->
  exists a s1, c s = Some (a, s1) /\ k a s1 = Some (b, s').
Proof.
  unfold bind. destruct (c s) as [[a s1] |]; [| discriminate].
  intros Hk. exists a, s1. split; [reflexivity | exact Hk].
Qed.

(** ** Machine integers *)

Lemma to_unsigned_small (z : Z) : 0 <= z < UINT_MODULUS -> to_unsigned z = z.
Proof. intros Hz. unfold to_unsigned. apply Z.mod_small. exact Hz. Qed.

Lemma to_int_small (z : Z) : 0 <= z <= INT_MAX -> to_int z = z.
Proof.
  intros Hz. unfold to_int.
  rewrite to_unsigned_small by (unfold INT_MAX, UINT_MODULUS in *; lia).
  destruct (Z.leb_spec z INT_MAX); [reflexivity | lia].
Qed.

(** ** Lifecycle manager *)

Section LifecycleFacts.
Import Lifecycle.
Context {W : Type}.
Implicit Types (lifetimes items : list (Lifetime W)) (w : W) (calls : list Call).

Lemma indices_S (n : nat) : indices (S n) = indices n ++ [Z.of_nat n].
Proof.
  unfold indices. rewrite seq_S, fmap_app. reflexivity.
Qed.

Lemma elem_of_indices (n : nat) (i : Z) : i ∈ indices n <-> 0 <= i < Z.of_nat n.
Proof.
  unfold indices. rewrite list_elem_of_fmap. split.
  - intros (m & -> & Hm). apply list_elem_of_In, in_seq in Hm. lia.
  - intros Hi. exists (Z.to_nat i). split; [lia |].
    apply list_elem_of_In, in_seq. lia.
Qed.

Lemma cleanups_reversed_snoc items (item : Lifetime W) w :
  cleanups_reversed (items ++ [item]) w =
  match mCleanup item w with
  | Some (_, w') => cleanups_reversed items w'
  | None => None
  end.
Proof.
  revert w. induction items as [| first rest IH]; intros w; simpl.
  - destruct (mCleanup item w) as [[[] w'] |]; reflexivity.
  - rewrite IH. destruct (mCleanup item w) as [[[] w'] |]; reflexivity.
Qed.

(** The descending loop runs the cleanups of the first [n] items, last
    one first. *)
Lemma CleanupItems_loop_contract (n fuel : nat) lifetimes w calls :
  (n <= length lifetimes)%nat ->
  (n <= fuel)%nat ->
  CleanupItems_loop fuel lifetimes (Z.of_nat n - 1) (w, calls) =
  (fun w' => (tt, (w', calls ++ (CallCleanup <$> reverse (indices n)))))
    <$> cleanups_reversed (take n lifetimes) w.
Proof.
  revert fuel w calls. induction n as [| n IH]; intros fuel w calls Hlen Hfuel.
  - destruct fuel; simpl; rewrite app_nil_r; reflexivity.
  - destruct fuel as [| fuel]; [lia |].
    destruct (lookup_lt_is_Some_2 lifetimes n) as [item Hitem]; [lia |].
    rewrite (take_S_r _ _ _ Hitem), cleanups_reversed_snoc.
    rewrite indices_S, reverse_app. cbn [CleanupItems_loop].
    replace (0 <=? Z.of_nat (S n) - 1) with true by (symmetry; apply Z.leb_le; lia).
    unfold bind at 1, Lifetime_Cleanup.
    replace (Z.to_nat (Z.of_nat (S n) - 1)) with n by lia.
    rewrite Hitem. unfold call.
    destruct (mCleanup item w) as [[[] w1] |]; [| reflexivity].
    replace (Z.of_nat (S n) - 1 - 1) with (Z.of_nat n - 1) by lia.
    rewrite IH by lia.
    destruct (cleanups_reversed (take n lifetimes) w1) as [w2 |]; [| reflexivity].
    simpl. rewrite <- app_assoc.
    replace (Z.of_nat (S n) - 1) with (Z.of_nat n) by lia. reflexivity.
Qed.

Lemma CleanupItemsStartingAt_contract (n : nat) lifetimes w calls :
  (n <= length lifetimes)%nat ->
  Z.of_nat n <= INT_MAX ->
  CleanupItemsStartingAt lifetimes (Z.of_nat n) (w, calls) =
  (fun w' => (tt, (w', calls ++ (CallCleanup <$> reverse (indices n)))))
    <$> cleanups_reversed (take n lifetimes) w.
Proof.
  intros Hlen Hmax. unfold CleanupItemsStartingAt.
  rewrite to_int_small by lia.
  destruct (Z.ltb_spec (Z.of_nat n - 1) INT_MIN) as [Hlt | _];
    [unfold INT_MIN in Hlt; lia |].
  apply CleanupItems_loop_contract; lia.
Qed.

Lemma TryInitItems_loop_stopped (fuel : nat) lifetimes (i : Z) (st : W * list Call) :
  TryInitItems_loop fuel lifetimes i false st = Some (false, st).
Proof. destruct fuel; reflexivity. Qed.

(** The counting loop meets the contract, from any point of the list. *)
Lemma TryInitItems_loop_contract (started todo : list (Lifetime W)) (fuel : nat) w calls :
  Z.of_nat (length (started ++ todo)) <= INT_MAX ->
  (length todo <= fuel)%nat ->
  TryInitItems_loop fuel (started ++ todo) (Z.of_nat (length started)) true (w, calls) =
  (fun '(r, w', made) => (r, (w', calls ++ made)))
    <$> try_init_contract started todo w.
Proof.
  revert started fuel w calls.
  induction todo as [| item rest IH]; intros started fuel w calls Hmax Hfuel.
  - rewrite app_nil_r.
    assert (TryInitItems_loop fuel started (Z.of_nat (length started)) true (w, calls)
            = Some (true, (w, calls))) as ->.
    { destruct fuel; simpl; rewrite Z.ltb_irrefl; reflexivity. }
    simpl. rewrite app_nil_r. reflexivity.
  - destruct fuel as [| fuel]; [simpl in Hfuel; lia |].
    assert ((started ++ item :: rest) !! length started = Some item) as Hitem.
    { rewrite lookup_app_r by lia. rewrite Nat.sub_diag. reflexivity. }
    rewrite length_app in Hmax. simpl in Hmax, Hfuel.
    cbn [TryInitItems_loop try_init_contract].
    replace (Z.of_nat (length started) <? Z.of_nat (length (started ++ item :: rest)))
      with true by (symmetry; apply Z.ltb_lt; rewrite length_app; simpl; lia).
    cbn [andb]. unfold bind at 1, Lifetime_Init.
    rewrite Nat2Z.id, Hitem. unfold call.
    destruct (mInit item w) as [[[] w1] |]; [| | reflexivity].
    + unfold bind at 1. cbn [negb when ret].
      rewrite to_unsigned_small by (unfold UINT_MODULUS, INT_MAX in *; lia).
      replace (Z.of_nat (length started) + 1)
        with (Z.of_nat (length (started ++ [item])))
        by (rewrite length_app; simpl; lia).
      replace (started ++ item :: rest) with ((started ++ [item]) ++ rest)
        by (rewrite <- app_assoc; reflexivity).
      rewrite IH; [| rewrite !length_app; simpl; lia | lia].
      destruct (try_init_contract (started ++ [item]) rest w1) as [[[r w2] made] |];
        [| reflexivity].
      simpl. rewrite <- app_assoc. reflexivity.
    + unfold bind at 1. cbn [negb when].
      rewrite CleanupItemsStartingAt_contract; [| rewrite length_app; lia | lia].
      rewrite take_app_length.
      destruct (cleanups_reversed started w1) as [w2 |]; [| reflexivity].
      simpl. rewrite TryInitItems_loop_stopped, <- app_assoc. reflexivity.
Qed.

Lemma TryInitItems_contract lifetimes w :
  Z.of_nat (length lifetimes) <= INT_MAX ->
  TryInitItems lifetimes (w, []) =
  (fun '(r, w', made) => (r, (w', made))) <$> try_init_contract [] lifetimes w.
Proof.
  intros Hmax. unfold TryInitItems.
  apply (TryInitItems_loop_contract [] lifetimes); [exact Hmax | lia].
Qed.

Lemma CleanupItems_contract lifetimes w :
  Z.of_nat (length lifetimes) <= INT_MAX ->
  CleanupItems lifetimes (w, []) =
  (fun w' => (tt, (w', CallCleanup <$> reverse (indices (length lifetimes)))))
    <$> cleanups_reversed lifetimes w.
Proof.
  intros Hmax. unfold CleanupItems.
  rewrite to_unsigned_small by (unfold UINT_MODULUS, INT_MAX in *; lia).
  rewrite CleanupItemsStartingAt_contract by lia.
  rewrite firstn_all. reflexivity.
Qed.

Lemma contract_when_all_succeed (started todo : list (Lifetime W)) w w' :
  inits_succeed todo w = Some w' ->
  try_init_contract started todo w =
  Some (true, w', CallInit <$> (Z.of_nat <$> seq (length started) (length todo))).
Proof.
  revert started w. induction todo as [| item rest IH]; intros started w Hall.
  - simpl in *. congruence.
  - simpl in Hall. cbn [try_init_contract].
    destruct (mInit item w) as [[[] w1] |]; try discriminate.
    rewrite (IH _ _ Hall), length_app. simpl.
    replace (length started + 1)%nat with (S (length started)) by lia.
    reflexivity.
Qed.

Lemma contract_when_one_fails (started before after : list (Lifetime W))
    (item : Lifetime W) w wk wf w' :
  inits_succeed before w = Some wk ->
  mInit item wk = Some (false, wf) ->
  cleanups_reversed (started ++ before) wf = Some w' ->
  try_init_contract started (before ++ item :: after) w =
  Some (false, w',
        (CallInit <$> (Z.of_nat <$> seq (length started) (S (length before))))
        ++ (CallCleanup <$> reverse (indices (length (started ++ before))))).
Proof.
  revert started w. induction before as [| first rest IH]; intros started w Hok Hfail Hclean.
  - simpl in Hok. injection Hok as ->. rewrite app_nil_r in *.
    cbn [app try_init_contract]. rewrite Hfail, Hclean. reflexivity.
  - simpl in Hok. cbn [app try_init_contract].
    destruct (mInit first w) as [[[] w1] |]; try discriminate.
    rewrite (IH (started ++ [first]) w1 Hok Hfail);
      [| rewrite <- app_assoc; exact Hclean].
    rewrite <- app_assoc, !length_app. simpl.
    replace (length started + 1)%nat with (S (length started)) by lia.
    reflexivity.
Qed.

End LifecycleFacts.

(** C1. Rollback completeness. In a list whose indices fit an [int], let
    the init procedures of items [0..k-1] succeed and the one of item [k]
    fail, the cleanup procedures of items [0..k-1] returning. Then
    [TryInitItems] returns [false]; the calls it makes are the inits of
    items [0..k] in order followed by the cleanups of items [k-1] down to
    [0]; no init or cleanup of an item after [k] is called, nor the
    cleanup of item [k]. *)
Theorem TryInitItems_rolls_back {W : Type} (lifetimes : list (Lifecycle.Lifetime W))
    (k : nat) (item : Lifecycle.Lifetime W) (w wk wf w' : W) :
  Z.of_nat (length lifetimes) <= INT_MAX ->
  lifetimes !! k = Some item ->
  Lifecycle.inits_succeed (take k lifetimes) w = Some wk ->
  Lifecycle.mInit item wk = Some (false, wf) ->
  Lifecycle.cleanups_reversed (take k lifetimes) wf = Some w' ->
  let calls :=
    (Lifecycle.CallInit <$> Lifecycle.indices (S k))
    ++ (Lifecycle.CallCleanup <$> reverse (Lifecycle.indices k)) in
  Lifecycle.TryInitItems lifetimes (w, []) = Some (false, (w', calls))
  /\ (forall i, Z.of_nat k < i ->
        (Lifecycle.CallInit i ∉ calls) /\ (Lifecycle.CallCleanup i ∉ calls))
  /\ (Lifecycle.CallCleanup (Z.of_nat k) ∉ calls).
Proof.
  intros Hmax Hitem Hok Hfail Hclean calls.
  assert (k < length lifetimes)%nat as Hk by (eapply lookup_lt_Some; eassumption).
  split; [| split].
  - rewrite TryInitItems_contract by exact Hmax.
    rewrite <- (take_drop_middle lifetimes k item Hitem) at 1.
    rewrite (contract_when_one_fails [] (take k lifetimes) (drop (S k) lifetimes)
               item w wk wf w' Hok Hfail Hclean).
    simpl. rewrite length_take, Nat.min_l by lia. reflexivity.
  - intros i Hi. subst calls. rewrite !elem_of_app, !list_elem_of_fmap.
    split; intros [(j & Heq & Hj) | (j & Heq & Hj)]; try discriminate;
      injection Heq as ->.
    + apply elem_of_indices in Hj. lia.
    + apply elem_of_reverse, elem_of_indices in Hj. lia.
  - subst calls. rewrite elem_of_app, !list_elem_of_fmap.
    intros [(j & Heq & Hj) | (j & Heq & Hj)]; try discriminate.
    injection Heq as <-. apply elem_of_reverse, elem_of_indices in Hj. lia.
Qed.

Lemma TryInitItems_rolls_back_witness :
  Lifecycle.TryInitItems Lifecycle.three_then_failure ([], []) =
  Some (false,
        ([1; 2; 3; 4; -3; -2; -1],
         [Lifecycle.CallInit 0; Lifecycle.CallInit 1; Lifecycle.CallInit 2;
          Lifecycle.CallInit 3;
          Lifecycle.CallCleanup 2; Lifecycle.CallCleanup 1; Lifecycle.CallCleanup 0])).
Proof.
  refine (proj1 (TryInitItems_rolls_back Lifecycle.three_then_failure 3
                   (Lifecycle.journal_item 4 false)
                   [] [1; 2; 3] [1; 2; 3; 4] [1; 2; 3; 4; -3; -2; -1]
                   _ eq_refl eq_refl eq_refl eq_refl)).
  vm_compute. discriminate.
Defined.

(** C6. Full success. In a list whose indices fit an [int], when every
    init procedure succeeds [TryInitItems] returns [true] and the calls it
    makes are exactly the inits of items [0..N-1], once each and in list
    order; no cleanup is called. *)
Theorem TryInitItems_all_succeed {W : Type} (lifetimes : list (Lifecycle.Lifetime W))
    (w w' : W) :
  Z.of_nat (length lifetimes) <= INT_MAX ->
  Lifecycle.inits_succeed lifetimes w = Some w' ->
  Lifecycle.TryInitItems lifetimes (w, []) =
  Some (true, (w', Lifecycle.CallInit <$> Lifecycle.indices (length lifetimes))).
Proof.
  intros Hmax Hall.
  rewrite TryInitItems_contract by exact Hmax.
  rewrite (contract_when_all_succeed [] lifetimes w w' Hall). reflexivity.
Qed.

Lemma TryInitItems_all_succeed_witness :
  Lifecycle.TryInitItems Lifecycle.four_successes ([], []) =
  Some (true,
        ([1; 2; 3; 4],
         [Lifecycle.CallInit 0; Lifecycle.CallInit 1; Lifecycle.CallInit 2;
          Lifecycle.CallInit 3])).
Proof.
  refine (TryInitItems_all_succeed Lifecycle.four_successes [] [1; 2; 3; 4] _ eq_refl).
  vm_compute. discriminate.
Defined.

(** ** Game objects and paddles *)


(** A paddle's update moves it as any game object, then checks the terrain. *)
Lemma Paddle_Update_unfold (delta : F32.float) (winSize : Vector2i.t) (p : Paddle.t) :
  Paddle.Update delta winSize p =
  Paddle.CollideAgainstTerrain winSize (Paddle.position p)
    (Paddle.set_base (GameObject.Update delta (Paddle.base p)) p).
Proof. reflexivity. Qed.

(** C3. Paddle containment. When the paddle moved by the update collides
    with the top or the bottom of the terrain (its position plus a tenth of
    its height above the top less half its height, or its position less a
    tenth of its height below half its height), the update leaves the
    paddle where it was before: both coordinates are the old ones, nothing
    is clamped to the boundary. *)
Theorem Paddle_Update_rejects (delta : F32.float) (winSize : Vector2i.t) (p : Paddle.t) :
  let moved := Paddle.set_base (GameObject.Update delta (Paddle.base p)) p in
  Paddle.kCollidesTop winSize moved || Paddle.kCollidesBottom winSize moved = true ->
  Paddle.position (Paddle.Update delta winSize p) = Paddle.position p
  /\ Paddle.moveDirection (Paddle.Update delta winSize p) = Paddle.moveDirection p
  /\ Paddle.moveSpeed (Paddle.Update delta winSize p) = Paddle.moveSpeed p
  /\ Paddle.size (Paddle.Update delta winSize p) = Paddle.size p.
Proof.
  intros moved Hcollides. rewrite Paddle_Update_unfold.
  unfold Paddle.CollideAgainstTerrain. fold moved. rewrite Hcollides.
  repeat split.
Qed.

Lemma Paddle_Update_rejects_witness :
  Paddle.position
    (Paddle.Update F32.one_tenth Game.skWinSize (SpecModel.paddle_at 50 640 1))
  = Vector2f.Make (F32.of_int 50) (F32.of_int 640).
Proof.
  refine (proj1 (Paddle_Update_rejects F32.one_tenth Game.skWinSize
                   (SpecModel.paddle_at 50 640 1) _)).
  vm_compute. reflexivity.
Defined.

(** Without a collision the move stands. *)
Lemma Paddle_Update_accepts (delta : F32.float) (winSize : Vector2i.t) (p : Paddle.t) :
  let moved := Paddle.set_base (GameObject.Update delta (Paddle.base p)) p in
  Paddle.kCollidesTop winSize moved || Paddle.kCollidesBottom winSize moved = false ->
  Paddle.Update delta winSize p = moved.
Proof.
  intros moved Hfree. rewrite Paddle_Update_unfold.
  unfold Paddle.CollideAgainstTerrain. fold moved. rewrite Hfree. reflexivity.
Qed.

(** ** Reasoning about procedures of the game *)

Section Steps.
Import Game.
Context {X : Type} `{Externals X}.
Local Abbreviation World := (Game.World X).
Local Abbreviation Prog := (Game.Prog X).

Section Preorder.
Context (R : relation World) `{!PreOrder R}.

Lemma steps_ret {A : Type} (a : A) : steps R (ret a).
Proof. intros w a' w' [= _ <-]. reflexivity. Qed.

Lemma steps_undefined {A : Type} : steps R (undefined (A := A)).
Proof. intros w a w' [=]. Qed.

Lemma steps_gets {A : Type} (f : World -> A) : steps R (gets f).
Proof. intros w a w' [= _ <-]. reflexivity. Qed.

Lemma steps_bind {A B : Type} (c : Prog A) (k : A -> Prog B) :
  steps R c -> (forall a, steps R (k a)) -> steps R (bind c k).
Proof.
  intros Hc Hk w b w' Hrun. unfold bind in Hrun.
  destruct (c w) as [[a w1] |] eqn:Hcw; [| discriminate].
  transitivity w1; [eapply Hc | eapply Hk]; eassumption.
Qed.

Lemma steps_modify (f : World -> World) :
  (forall w, R w (f w)) -> steps R (modify f).
Proof. intros Hf w a w' [= _ <-]. apply Hf. Qed.

Lemma steps_when (b : bool) (c : Prog unit) : steps R c -> steps R (when b c).
Proof. intros Hc. destruct b; [exact Hc | apply steps_ret]. Qed.

Lemma steps_extern {A : Type} (f : X -> A * X) :
  (forall w x, R w (set_externals x w)) -> steps R (extern f).
Proof.
  intros Hx w a w' Hrun. unfold extern in Hrun.
  destruct (f (externals w)) as [a' x]. injection Hrun as _ <-. apply Hx.
Qed.

Lemma steps_extern_ (f : X -> X) :
  (forall w x, R w (set_externals x w)) -> steps R (extern_ f).
Proof. intros Hx. apply steps_modify. intros w. apply Hx. Qed.

Lemma steps_if {A : Type} (b : bool) (c1 c2 : Prog A) :
  steps R c1 -> steps R c2 -> steps R (if b then c1 else c2).
Proof. destruct b; trivial. Qed.

End Preorder.

#[global] Instance appends_preorder (P : Event -> bool) : PreOrder (appends (X := X) P).
Proof.
  split.
  - intros w. exists []. rewrite app_nil_r. split; reflexivity.
  - intros w1 w2 w3 (n1 & H1 & P1) (n2 & H2 & P2). exists (n1 ++ n2).
    rewrite H2, H1, <- app_assoc, forallb_app, P1, P2. split; reflexivity.
Qed.

#[global] Instance keeps_preorder {A : Type} (f : World -> A) : PreOrder (keeps f).
Proof.
  split.
  - intros w. reflexivity.
  - intros w1 w2 w3 H1 H2. unfold keeps in *. congruence.
Qed.

#[global] Instance both_preorder (R1 R2 : relation World)
    `{!PreOrder R1} `{!PreOrder R2} : PreOrder (fun w w' => R1 w w' /\ R2 w w').
Proof.
  split.
  - intros w. split; reflexivity.
  - intros w1 w2 w3 [? ?] [? ?]. split; etransitivity; eassumption.
Qed.

Lemma appends_note (P : Event -> bool) (e : Event) (w : World) :
  P e = true -> appends P w (set_trace (trace w ++ [e]) w).
Proof. intros He. exists [e]. simpl. rewrite He. split; reflexivity. Qed.

Lemma appends_same_trace (P : Event -> bool) (w w' : World) :
  trace w' = trace w -> appends P w w'.
Proof. intros Hw. exists []. rewrite app_nil_r. split; [exact Hw | reflexivity]. Qed.

End Steps.

(** ** Keyboard and launch *)

Section KeyboardFacts.
Import Game.
Context {X : Type} `{Externals X}.
Local Abbreviation World := (Game.World X).

#[local] Instance no_launch_preorder : PreOrder (no_launch (X := X)).
Proof. unfold no_launch. apply _. Qed.

Lemma no_launch_paddles (f : World -> World) :
  (forall w, trace (f w) = trace w) ->
  (forall w, sPlaying (f w) = sPlaying w) ->
  (forall w, sBall (f w) = sBall w) ->
  steps no_launch (modify f).
Proof.
  intros Ht Hp Hb. apply steps_modify. intros w.
  split; [apply appends_same_trace, Ht | split; [apply Hp | apply Hb]].
Qed.

Lemma OnKeyDown_no_launch (key : Z) : steps no_launch (OnKeyDown key).
Proof.
  unfold OnKeyDown.
  repeat (apply steps_if; [apply no_launch_paddles; reflexivity |]).
  apply (steps_ret no_launch).
Qed.

Lemma OnKeyUp_no_launch (key : Z) : steps no_launch (OnKeyUp key).
Proof.
  unfold OnKeyUp.
  repeat (apply steps_if; [apply no_launch_paddles; reflexivity |]).
  apply (steps_ret no_launch).
Qed.

Lemma OnKeyDown_returns (key : Z) (w : World) : exists w', OnKeyDown key w = Some (tt, w').
Proof. unfold OnKeyDown. repeat case_match; eexists; reflexivity. Qed.

Lemma OnKeyUp_returns (key : Z) (w : World) : exists w', OnKeyUp key w = Some (tt, w').
Proof. unfold OnKeyUp. repeat case_match; eexists; reflexivity. Qed.

Lemma LaunchBall_returns (w : World) : exists w', LaunchBall w = Some (tt, w').
Proof.
  unfold LaunchBall, bind, extern, note, modify. simpl.
  destruct (RandomSignFloat (externals w)) as [rx x1]. simpl.
  destruct (RandomSignFloat x1) as [ry x2]. eexists. reflexivity.
Qed.

Lemma OnKeyEvent_returns (key : Z) (pressed : bool) (w : World) :
  exists w', OnKeyEvent key pressed w = Some (tt, w').
Proof.
  unfold OnKeyEvent, bind, note, modify, gets. simpl.
  destruct (sPlaying w).
  - destruct pressed; [apply OnKeyDown_returns | apply OnKeyUp_returns].
  - destruct (pressed && (key =? VK_SPACE)); [| eexists; reflexivity].
    apply LaunchBall_returns.
Qed.

(** The launch itself. *)
Lemma OnKeyEvent_idle_space (w : World) :
  sPlaying w = false ->
  exists w', OnKeyEvent VK_SPACE true w = Some (tt, w')
    /\ trace w' = trace w ++ [EvOnKeyEvent VK_SPACE true; EvLaunchBall]
    /\ sPlaying w' = true
    /\ Ball.moveSpeed (sBall w') = Ball_skDefaultMoveSpeed
    /\ Ball.moveDirection (sBall w') =
       Vector2f.Normalize
         (Vector2f.Make (fst (RandomSignFloat (externals w)))
            (fst (RandomSignFloat (snd (RandomSignFloat (externals w)))))).
Proof.
  intros Hidle. unfold OnKeyEvent, bind, note, modify, gets. simpl. rewrite Hidle.
  simpl. unfold LaunchBall, bind, extern, note, modify. simpl.
  destruct (RandomSignFloat (externals w)) as [rx x1]. simpl.
  destruct (RandomSignFloat x1) as [ry x2]. simpl.
  eexists. split; [reflexivity |]. simpl. rewrite <- app_assoc. repeat split.
Qed.

(** Any other key event. *)
Lemma OnKeyEvent_otherwise (key : Z) (pressed : bool) (w w' : World) :
  sPlaying w = true \/ pressed = false \/ key <> VK_SPACE ->
  OnKeyEvent key pressed w = Some (tt, w') ->
  no_launch w w'.
Proof.
  intros Hcase Hrun. unfold OnKeyEvent in Hrun.
  assert (steps no_launch (note (X := X) (EvOnKeyEvent key pressed))) as Hnote.
  { apply steps_modify. intros w0.
    split; [apply appends_note; reflexivity | split; reflexivity]. }
  unfold bind at 1 in Hrun. destruct (note _ w) as [[[] w1] |] eqn:Hw1; [| discriminate].
  pose proof (Hnote _ _ _ Hw1) as Hstep1.
  transitivity w1; [exact Hstep1 |].
  unfold bind, gets in Hrun. simpl in Hrun.
  destruct Hstep1 as (_ & Hplay & _). unfold keeps in Hplay.
  destruct (sPlaying w1) eqn:Hp1.
  - destruct pressed; [eapply OnKeyDown_no_launch | eapply OnKeyUp_no_launch]; eassumption.
  - assert (pressed && (key =? VK_SPACE) = false) as Hno.
    { destruct Hcase as [Hp | [-> | Hk]]; [congruence | reflexivity |].
      apply andb_false_iff. right. apply Z.eqb_neq. exact Hk. }
    rewrite Hno in Hrun. injection Hrun as <-. reflexivity.
Qed.

End KeyboardFacts.

(** C5. Launch. A key event always returns. When the match is idle and
    the launch key is pressed, the state becomes playing, the ball's speed
    is the default constant and its direction is the normalized vector of
    two random signs, which, the signs being +1 or -1, is a unit vector
    with both components 0.707 in absolute value, up to rounding. In every
    other case (already playing, or a key release, or another key) the
    playing flag and the ball are left as they were and no launch is
    recorded. *)
Theorem OnKeyEvent_launch {X : Type} `{Externals X}
    (key : Z) (pressed : bool) (w : Game.World X) :
  exists w',
    Game.OnKeyEvent key pressed w = Some (tt, w')
    /\ (Game.sPlaying w = false -> pressed = true -> key = Game.VK_SPACE ->
          let rx := fst (RandomSignFloat (Game.externals w)) in
          let ry := fst (RandomSignFloat (snd (RandomSignFloat (Game.externals w)))) in
          Game.sPlaying w' = true
          /\ Ball.moveSpeed (Game.sBall w') = Ball_skDefaultMoveSpeed
          /\ Ball.moveDirection (Game.sBall w') = Vector2f.Normalize (Vector2f.Make rx ry)
          /\ (F32.is_sign rx -> F32.is_sign ry ->
                Vector2f.is_diagonal_unit (Ball.moveDirection (Game.sBall w')) = true))
    /\ (Game.sPlaying w = true \/ pressed = false \/ key <> Game.VK_SPACE ->
          no_launch w w').
Proof.
  destruct (OnKeyEvent_returns key pressed w) as [w' Hrun].
  exists w'. split; [exact Hrun |]. split.
  - intros Hidle -> -> rx ry.
    destruct (OnKeyEvent_idle_space w Hidle) as (w2 & Hrun2 & _ & Hplay & Hspeed & Hdir).
    rewrite Hrun in Hrun2. injection Hrun2 as <-.
    repeat split; try assumption.
    intros Hx Hy. rewrite Hdir. fold rx ry.
    destruct Hx as [-> | ->], Hy as [-> | ->]; vm_compute; reflexivity.
  - intros Hcase. eapply OnKeyEvent_otherwise; eassumption.
Qed.

Lemma OnKeyEvent_launch_witness :
  exists w',
    Game.OnKeyEvent 32 true
      (SpecModel.start_world (SpecModel.MkScript [] [] [true; false] [] false 0))
    = Some (tt, w')
    /\ Game.sPlaying w' = true
    /\ Ball.moveSpeed (Game.sBall w') = F32.of_int 500
    /\ Vector2f.is_diagonal_unit (Ball.moveDirection (Game.sBall w')) = true.
Proof.
  destruct (OnKeyEvent_launch 32 true
              (SpecModel.start_world (SpecModel.MkScript [] [] [true; false] [] false 0)))
    as (w' & Hrun & Hfire & _).
  exists w'. split; [exact Hrun |].
  destruct (Hfire eq_refl eq_refl eq_refl) as (Hplay & Hspeed & _ & Hunit).
  split; [exact Hplay |]. split; [exact Hspeed |].
  apply Hunit; [left; reflexivity | right; reflexivity].
Defined.

(** ** The per-frame update *)

Section UpdateFacts.
Import Game.
Context {X : Type} `{Externals X}.
Local Abbreviation World := (Game.World X).

(** The frame up to the decision [kCollides], as the code computes it. *)
Lemma OnUpdate_unfold (delta : F32.float) (w : World) :
  let p1 := Paddle.Update delta skWinSize (sPaddle1 w) in
  let p2 := Paddle.Update delta skWinSize (sPaddle2 w) in
  let b0 := Ball.Update delta (sBall w) in
  let b1 := Ball_CollideWithTerrain skWinSize b0 in
  let moved events ball :=
    MkWorld (sInitialized w) (sRunning w) (sPlaying w) (sPlayerScores w) ball
      p1 p2 (sLastTime w) (externals w)
      (trace w ++ [EvOnUpdate; EvCollideWithTerrain b0 b1] ++ events) in
  OnUpdate delta w =
  match Ball_CollideWith p1 b1 with
  | (true, b2) => Some (tt, moved [EvCollideWith 1 true] b2)
  | (false, b2) =>
      match Ball_CollideWith p2 b2 with
      | (true, b3) => Some (tt, moved [EvCollideWith 1 false; EvCollideWith 2 true] b3)
      | (false, b3) =>
          CheckBallSideCollision
            (moved [EvCollideWith 1 false; EvCollideWith 2 false] b3)
      end
  end.
Proof.
  intros p1 p2 b0 b1 moved.
  unfold OnUpdate, sBall_CollideWithTerrain, sBall_CollideWith,
    bind, note, modify, gets, ret. simpl.
  fold p1 p2 b0 b1.
  destruct (Ball_CollideWith p1 b1) as [[] b2]; simpl.
  - unfold moved. rewrite <- !app_assoc. reflexivity.
  - destruct (Ball_CollideWith p2 b2) as [[] b3]; simpl.
    + unfold moved. rewrite <- !app_assoc. reflexivity.
    + unfold moved. rewrite <- !app_assoc. reflexivity.
Qed.

(** The side check always records its evaluation first. *)
Lemma CheckBallSideCollision_trace (w w' : World) :
  CheckBallSideCollision w = Some (tt, w') ->
  exists rest,
    trace w' =
    trace w ++ EvGetTouchingSide (Ball_GetTouchingSide skWinSize (sBall w)) :: rest
    /\ forallb (fun e => negb (Trace.is_paddle_bounce e)) rest = true.
Proof.
  unfold CheckBallSideCollision, UpdateScores, ResetGameState,
    bind, note, modify, gets, ret, undefined. simpl.
  destruct (Ball_GetTouchingSide skWinSize (sBall w)); simpl.
  - intros [= <-]. exists []. split; reflexivity.
  - destruct (sPlayerScores w !! _); [| discriminate]. simpl.
    intros [= <-]. simpl. eexists. rewrite <- !app_assoc. split; reflexivity.
  - destruct (sPlayerScores w !! _); [| discriminate]. simpl.
    intros [= <-]. simpl. eexists. rewrite <- !app_assoc. split; reflexivity.
Qed.

End UpdateFacts.

(** C2, as the code has it. In a frame that returns, the side check is
    evaluated exactly when no ball-paddle bounce was resolved: after a
    paddle bounce there is no side check, no score update and no reset, and
    scores and playing flag are unchanged; without one the side check is
    evaluated, whatever the terrain did to the ball. *)
Theorem OnUpdate_paddle_bounce_excludes_scoring {X : Type} `{Externals X}
    (delta : F32.float) (w w' : Game.World X) :
  Game.OnUpdate delta w = Some (tt, w') ->
  exists new,
    Game.trace w' = Game.trace w ++ new
    /\ (existsb Trace.is_paddle_bounce new = true ->
          existsb Trace.is_scoring new = false
          /\ Game.sPlayerScores w' = Game.sPlayerScores w
          /\ Game.sPlaying w' = Game.sPlaying w)
    /\ (existsb Trace.is_paddle_bounce new = false ->
          existsb Trace.is_side_check new = true).
Proof.
  rewrite OnUpdate_unfold.
  destruct (Ball_CollideWith _ _) as [[] b2].
  - intros [= <-]. eexists. split; [reflexivity |]. simpl. split; [| discriminate].
    intros _. repeat split.
  - destruct (Ball_CollideWith _ b2) as [[] b3].
    + intros [= <-]. eexists. split; [reflexivity |]. simpl. split; [| discriminate].
      intros _. repeat split.
    + intros Hcheck. apply CheckBallSideCollision_trace in Hcheck.
      destruct Hcheck as (rest & Htrace & Hrest). simpl in Htrace.
      eexists. split; [rewrite Htrace, <- app_assoc; reflexivity |].
      assert (existsb Trace.is_paddle_bounce rest = false) as Hnone.
      { clear Htrace. induction rest as [| e rest IH]; [reflexivity |].
        simpl in Hrest. apply andb_true_iff in Hrest as [He Hrest].
        simpl. rewrite (negb_true_iff _) in He. rewrite He. apply IH, Hrest. }
      simpl. rewrite Hnone. split; [discriminate |]. reflexivity.
Qed.

Lemma OnUpdate_paddle_bounce_excludes_scoring_witness :
  exists w' new,
    Game.OnUpdate F32.one_tenth SpecModel.rally_frame = Some (tt, w')
    /\ Game.trace w' = Game.trace SpecModel.rally_frame ++ new
    /\ existsb Trace.is_paddle_bounce new = true
    /\ existsb Trace.is_scoring new = false
    /\ Game.sPlayerScores w' = [0; 0]
    /\ Game.sPlaying w' = true.
Proof.
  destruct (Game.OnUpdate F32.one_tenth SpecModel.rally_frame) as [[[] w'] |] eqn:Hrun;
    [| vm_compute in Hrun; discriminate].
  destruct (OnUpdate_paddle_bounce_excludes_scoring _ _ _ Hrun) as (new & Htrace & Hhit & _).
  exists w', new. split; [reflexivity |]. split; [exact Htrace |].
  assert (existsb Trace.is_paddle_bounce new = true) as Hbounce.
  { vm_compute in Hrun. injection Hrun as <-. simpl in Htrace. subst new.
    vm_compute. reflexivity. }
  destruct (Hhit Hbounce) as (Hnone & Hscores & Hplaying).
  repeat split; assumption.
Defined.

(** C2, as the spec states it, fails for the terrain: in the frame where the
    ball leaves through the top right corner a ball-terrain bounce is
    resolved and the side check is evaluated all the same; the left
    player scores and the game is reset. *)
Lemma terrain_bounce_does_not_exclude_scoring :
  exists w' new,
    Game.OnUpdate F32.one_tenth SpecModel.corner_frame = Some (tt, w')
    /\ Game.trace w' = Game.trace SpecModel.corner_frame ++ new
    /\ existsb Trace.is_terrain_bounce new = true
    /\ existsb Trace.is_side_check new = true
    /\ existsb Trace.is_reset new = true
    /\ Game.sPlayerScores SpecModel.corner_frame = [0; 0]
    /\ Game.sPlayerScores w' = [1; 0]
    /\ Game.sPlaying SpecModel.corner_frame = true
    /\ Game.sPlaying w' = false.
Proof.
  eexists. eexists. split; [vm_compute; reflexivity |].
  split; [simpl; reflexivity |].
  repeat split; vm_compute; reflexivity.
Qed.

Lemma Paddle_Reset_is_reset (winSize : Vector2i.t) (p : Paddle.t) :
  Paddle.is_reset winSize (Paddle.Reset winSize p)
  /\ Vector2f.x (Paddle.position (Paddle.Reset winSize p)) = Vector2f.x (Paddle.position p)
  /\ Paddle.size (Paddle.Reset winSize p) = Paddle.size p
  /\ Paddle.front (Paddle.Reset winSize p) = Paddle.front p.
Proof. repeat split. Qed.

(** A paddle that moves vertically stays in its column through an update,
    whether the move is accepted or rejected. *)
Lemma Paddle_Update_keeps_column (delta : F32.float) (winSize : Vector2i.t) (p : Paddle.t) :
  Paddle.moves_vertically delta p = true ->
  Vector2f.x (Paddle.position (Paddle.Update delta winSize p))
  = Vector2f.x (Paddle.position p).
Proof.
  intros Hvert. rewrite Paddle_Update_unfold. unfold Paddle.CollideAgainstTerrain.
  destruct (_ || _); [reflexivity |].
  unfold Paddle.moves_vertically in Hvert.
  destruct p as [[[px py] [dx dy] speed] size front]. simpl in *.
  unfold F32.add, F32.mul.
  destruct dx, speed, delta, px; simpl in *; try discriminate; reflexivity.
Qed.

Lemma to_unsigned_succ (s : Z) :
  0 <= s < UINT_MODULUS - 1 -> to_unsigned (s + 1) = s + 1.
Proof. intros Hs. apply to_unsigned_small. lia. Qed.

(** With any other number for a side the score update leaves the table:
    [1u - side] wraps around to an index beyond its two entries. *)
Lemma UpdateScores_outside_table {X : Type} `{Externals X}
    (lostSide : Side.t) (w : Game.World X) :
  length (Game.sPlayerScores w) = 2%nat ->
  2 <= Side_to_unsigned lostSide < UINT_MODULUS ->
  Game.UpdateScores lostSide w = None.
Proof.
  intros Hlen Hside.
  unfold Game.UpdateScores, bind, Game.note, modify, gets, undefined. simpl.
  rewrite (to_unsigned_small (Side_to_unsigned lostSide)) by lia.
  assert (to_unsigned (1 - Side_to_unsigned lostSide)
          = UINT_MODULUS + 1 - Side_to_unsigned lostSide) as ->.
  { unfold to_unsigned. symmetry. apply (Z.mod_unique _ _ (-1)); unfold UINT_MODULUS in *; lia. }
  rewrite lookup_ge_None_2; [reflexivity |]. rewrite Hlen. unfold UINT_MODULUS in *. lia.
Qed.

(** C4. A point. In a frame where neither paddle is hit and the ball is
    past a side, with the two sides numbered 0 and 1 and a score per
    player: the update returns; the score of the player opposite the side
    goes up by one on [unsigned] and the other score is unchanged; the
    update ends with exactly one score update followed by exactly one
    reset; the playing flag is false, the ball is the reset ball, and both
    paddles are the reset paddles: centred vertically, without direction or
    speed, and, for a paddle that only moves vertically, in the column
    where it was. *)
Theorem OnUpdate_point {X : Type} `{Externals X}
    (delta : F32.float) (w : Game.World X) (side : Side.t) (b2 b3 : Ball.t) (s0 s1 : Z) :
  let p1 := Paddle.Update delta Game.skWinSize (Game.sPaddle1 w) in
  let p2 := Paddle.Update delta Game.skWinSize (Game.sPaddle2 w) in
  let b0 := Ball.Update delta (Game.sBall w) in
  let b1 := Ball_CollideWithTerrain Game.skWinSize b0 in
  Ball_CollideWith p1 b1 = (false, b2) ->
  Ball_CollideWith p2 b2 = (false, b3) ->
  Ball_GetTouchingSide Game.skWinSize b3 = side ->
  side <> Side.None ->
  Side_to_unsigned Side.Left = 0 ->
  Side_to_unsigned Side.Right = 1 ->
  Game.sPlayerScores w = [s0; s1] ->
  exists w',
    Game.OnUpdate delta w = Some (tt, w')
    /\ Game.sPlayerScores w' =
       match side with
       | Side.Right => [to_unsigned (s0 + 1); s1]
       | _ => [s0; to_unsigned (s1 + 1)]
       end
    /\ (forall s, 0 <= s < UINT_MODULUS - 1 -> to_unsigned (s + 1) = s + 1)
    /\ Game.trace w' =
       Game.trace w ++
       [EvOnUpdate; EvCollideWithTerrain b0 b1;
        EvCollideWith 1 false; EvCollideWith 2 false;
        EvGetTouchingSide side; EvUpdateScores side; EvResetGameState]
    /\ Game.sPlaying w' = false
    /\ Game.sBall w' = Ball_Reset Game.skWinSize b3
    /\ Game.sPaddle1 w' = Paddle.Reset Game.skWinSize p1
    /\ Game.sPaddle2 w' = Paddle.Reset Game.skWinSize p2
    /\ Paddle.is_reset Game.skWinSize (Game.sPaddle1 w')
    /\ Paddle.is_reset Game.skWinSize (Game.sPaddle2 w')
    /\ (Paddle.moves_vertically delta (Game.sPaddle1 w) = true ->
          Vector2f.x (Paddle.position (Game.sPaddle1 w'))
          = Vector2f.x (Paddle.position (Game.sPaddle1 w)))
    /\ (Paddle.moves_vertically delta (Game.sPaddle2 w) = true ->
          Vector2f.x (Paddle.position (Game.sPaddle2 w'))
          = Vector2f.x (Paddle.position (Game.sPaddle2 w))).
Proof.
  intros p1 p2 b0 b1 Hmiss1 Hmiss2 Hside Hcrossed Hleft Hright Hscores.
  rewrite OnUpdate_unfold. fold p1 p2 b0 b1. rewrite Hmiss1, Hmiss2.
  unfold Game.CheckBallSideCollision, Game.UpdateScores, Game.ResetGameState,
    bind, Game.note, modify, gets, ret. simpl.
  rewrite Hside, Hscores.
  destruct side; [congruence | |]; simpl.
  - rewrite Hleft. simpl. eexists. split; [reflexivity |]. simpl.
    rewrite <- !app_assoc. simpl.
    repeat split; try reflexivity.
    + apply to_unsigned_succ.
    + apply Paddle_Update_keeps_column.
    + apply Paddle_Update_keeps_column.
  - rewrite Hright. simpl. eexists. split; [reflexivity |]. simpl.
    rewrite <- !app_assoc. simpl.
    repeat split; try reflexivity.
    + apply to_unsigned_succ.
    + apply Paddle_Update_keeps_column.
    + apply Paddle_Update_keeps_column.
Qed.

Lemma OnUpdate_point_witness :
  exists w',
    Game.OnUpdate F32.one_tenth SpecModel.point_frame = Some (tt, w')
    /\ Game.sPlayerScores w' = [4; 2]
    /\ Game.sPlaying w' = false
    /\ Vector2f.x (Paddle.position (Game.sPaddle2 w')) = F32.of_int 1230.
Proof.
  destruct (OnUpdate_point F32.one_tenth SpecModel.point_frame Side.Right
              (SpecModel.ball_at 1340 360 1 0 500) (SpecModel.ball_at 1340 360 1 0 500) 3 2)
    as (w' & Hrun & Hscores & _ & _ & Hplaying & _ & _ & _ & _ & _ & _ & Hcolumn);
    try (vm_compute; reflexivity).
  - vm_compute. discriminate.
  - exists w'. split; [exact Hrun |]. split; [exact Hscores |]. split; [exact Hplaying |].
    rewrite Hcolumn; vm_compute; reflexivity.
Defined.

(** ** The frame loop *)

Create HintDb steps_db.

(** Decompose a procedure along its structure; [base] proves the relation
    for a single write to the world, and the hints of [steps_db] the
    procedures already dealt with. *)
Ltac steps_by base :=
  repeat lazymatch goal with
    | |- steps ?R (ret _) => apply (steps_ret R)
    | |- steps ?R undefined => apply (steps_undefined R)
    | |- steps ?R (gets _) => apply (steps_gets R)
    | |- steps ?R (bind _ _) => apply (steps_bind R); [| intros ?]
    | |- steps ?R (when _ _) => apply (steps_when R)
    | |- steps ?R (modify _) => apply (steps_modify R); intros ?; base
    | |- steps ?R (Game.note _) => apply (steps_modify R); intros ?; base
    | |- steps ?R (Game.extern _) => apply (steps_extern R); intros ? ?; base
    | |- steps ?R (Game.extern_ _) => apply (steps_extern_ R); intros ? ?; base
    | |- steps _ (if ?b then _ else _) => destruct b
    | |- steps _ (match ?x with _ => _ end) => destruct x
    | |- steps _ _ => solve [auto with steps_db]
    end.

Section FrameFacts.
Import Game.
Context {X : Type} `{Externals X}.
Local Abbreviation World := (Game.World X).

#[local] Instance inside_frame_preorder : PreOrder (inside_frame (X := X)).
Proof. unfold inside_frame. apply _. Qed.

(** A single write that records at most a quiet event and leaves flags and
    score table alone. *)
Ltac quiet_write :=
  split; [first [apply appends_same_trace; reflexivity | apply appends_note; reflexivity]
         | repeat split].

Lemma OnKeyEvent_inside_frame (key : Z) (pressed : bool) :
  steps inside_frame (OnKeyEvent key pressed).
Proof.
  unfold OnKeyEvent, OnKeyDown, OnKeyUp, LaunchBall. steps_by quiet_write.
Qed.

Lemma deliver_inside_frame (keys : list (Z * bool)) : steps inside_frame (deliver keys).
Proof.
  induction keys as [| [key pressed] rest IH]; simpl.
  - apply (steps_ret inside_frame).
  - apply (steps_bind inside_frame); [apply OnKeyEvent_inside_frame | intros _; exact IH].
Qed.

Lemma deliver_returns (keys : list (Z * bool)) (w : World) :
  exists w', deliver keys w = Some (tt, w').
Proof.
  revert w. induction keys as [| [key pressed] rest IH]; intros w; simpl.
  - eexists. reflexivity.
  - unfold bind. destruct (OnKeyEvent_returns key pressed w) as [w1 ->]. apply IH.
Qed.

Lemma GetTimeDelta_inside_frame : steps inside_frame GetTimeDelta.
Proof. unfold GetTimeDelta. steps_by quiet_write. Qed.

Lemma UpdateScores_inside_frame (lostSide : Side.t) :
  steps inside_frame (UpdateScores lostSide).
Proof.
  intros w [] w'. unfold UpdateScores, bind, note, modify, gets, undefined. simpl.
  destruct (sPlayerScores w !! _) as [score |]; [| discriminate].
  intros [= <-]. split; [apply appends_note; reflexivity |].
  repeat split. unfold keeps. simpl. apply length_insert.
Qed.

#[local] Hint Resolve UpdateScores_inside_frame : steps_db.

Lemma OnUpdate_body_inside_frame (delta : F32.float) (w w' : World) :
  OnUpdate delta w = Some (tt, w') ->
  inside_frame (set_trace (trace w ++ [EvOnUpdate]) w) w'.
Proof.
  intros Hrun. unfold OnUpdate in Hrun. unfold bind at 1 in Hrun.
  unfold note at 1, modify at 1 in Hrun. cbv beta iota in Hrun.
  revert Hrun. generalize (set_trace (trace w ++ [EvOnUpdate]) w). intros w1 Hrun.
  match type of Hrun with
  | ?c w1 = _ => assert (steps inside_frame c) as Hsteps
  end.
  { unfold sBall_CollideWithTerrain, sBall_CollideWith, CheckBallSideCollision,
      ResetGameState.
    steps_by quiet_write. }
  exact (Hsteps _ _ _ Hrun).
Qed.

Lemma CheckBallSideCollision_returns (w : World) :
  length (sPlayerScores w) = 2%nat ->
  Side_to_unsigned Side.Left = 0 ->
  Side_to_unsigned Side.Right = 1 ->
  exists w', CheckBallSideCollision w = Some (tt, w').
Proof.
  intros Hlen Hleft Hright.
  destruct (sPlayerScores w) as [| s0 [| s1 [| ? ?]]] eqn:Hscores; try discriminate.
  unfold CheckBallSideCollision, UpdateScores, ResetGameState,
    bind, note, modify, gets, ret. simpl.
  destruct (Ball_GetTouchingSide skWinSize (sBall w)); simpl.
  - eexists. reflexivity.
  - rewrite Hscores, Hleft. simpl. eexists. reflexivity.
  - rewrite Hscores, Hright. simpl. eexists. reflexivity.
Qed.

Lemma OnUpdate_returns (delta : F32.float) (w : World) :
  length (sPlayerScores w) = 2%nat ->
  Side_to_unsigned Side.Left = 0 ->
  Side_to_unsigned Side.Right = 1 ->
  exists w', OnUpdate delta w = Some (tt, w').
Proof.
  intros Hlen Hleft Hright. rewrite OnUpdate_unfold.
  destruct (Ball_CollideWith _ _) as [[] b2]; [eexists; reflexivity |].
  destruct (Ball_CollideWith _ b2) as [[] b3]; [eexists; reflexivity |].
  apply CheckBallSideCollision_returns; assumption.
Qed.

Lemma Run_loop_stopped (fuel : nat) (w : World) :
  sRunning w = false -> Run_loop fuel w = Some (tt, w).
Proof.
  intros Hstopped. destruct fuel; simpl; unfold bind, gets; rewrite Hstopped; reflexivity.
Qed.

Lemma filter_quiet (events : list Event) :
  forallb quiet_event events = true -> List.filter Trace.is_frame_step events = [].
Proof.
  induction events as [| e rest IH]; [reflexivity |].
  simpl. intros Hall. apply andb_true_iff in Hall as [He Hrest].
  unfold quiet_event in He. apply andb_true_iff in He as [He _].
  apply negb_true_iff in He. rewrite He. apply IH, Hrest.
Qed.

(** One iteration of the loop. *)
Lemma Run_loop_iteration (fuel : nat) (w : World) :
  sRunning w = true ->
  Run_loop (S fuel) w = (Run_body ;; Run_loop fuel) w.
Proof.
  intros Hrunning. cbn [Run_loop]. unfold bind at 1, gets. rewrite Hrunning. reflexivity.
Qed.

(** The body leaves in [sRunning] what the poll returned. *)
Lemma Run_body_stores_poll (w w' : World) :
  Run_body w = Some (tt, w') ->
  sRunning w' = snd (fst (Window_PollEvents (externals w))).
Proof.
  unfold Run_body. intros Hrun.
  apply bind_Some in Hrun as (continue & w2 & Hpoll & Hrun).
  apply bind_Some in Hrun as ([] & w3 & Hstore & Hrun).
  apply bind_Some in Hrun as (cDelta & w4 & Htime & Hrun).
  apply bind_Some in Hrun as ([] & w5 & Hupdate & Hrender).
  unfold PollEvents, extern in Hpoll. unfold bind at 1 in Hpoll.
  destruct (Window_PollEvents (externals w)) as [[keys answer] x1]. simpl in *.
  apply bind_Some in Hpoll as ([] & w1 & _ & Hpoll).
  apply bind_Some in Hpoll as ([] & w1' & _ & Hpoll).
  injection Hpoll as -> _.
  unfold modify in Hstore. injection Hstore as <-.
  destruct (GetTimeDelta_inside_frame _ _ _ Htime) as (_ & _ & Hrun4 & _).
  destruct (OnUpdate_body_inside_frame _ _ _ Hupdate) as (_ & _ & Hrun5 & _).
  unfold OnRender, extern_, bind, note, modify, gets in Hrender. injection Hrender as <-.
  unfold keeps in *. simpl in *. congruence.
Qed.

(** The trace of a body that returns, and when it does. *)
Lemma Run_body_returns (w : World) (keys : list (Z * bool)) (continue : bool) (x1 : X) :
  Window_PollEvents (externals w) = ((keys, continue), x1) ->
  length (sPlayerScores w) = 2%nat ->
  Side_to_unsigned Side.Left = 0 ->
  Side_to_unsigned Side.Right = 1 ->
  exists w' new,
    Run_body w = Some (tt, w')
    /\ trace w' = trace w ++ new
    /\ List.filter Trace.is_frame_step new = [EvPollEvents continue; EvOnUpdate; EvOnRender].
Proof.
  intros Hpoll Hlen Hleft Hright. unfold Run_body.
  (* the poll and the key events it delivers *)
  unfold bind at 1. unfold PollEvents. unfold bind at 1, extern.
  rewrite Hpoll. unfold bind at 1. unfold note at 1, modify at 1. cbv beta iota.
  set (w1 := set_trace _ _).
  unfold bind at 1.
  destruct (deliver_returns keys w1) as [w2 Hw2]. rewrite Hw2.
  destruct (deliver_inside_frame keys _ _ _ Hw2)
    as ((n2 & Ht2 & Hq2) & _ & _ & Hlen2).
  unfold ret at 1. cbv beta iota.
  (* the answer goes to sRunning *)
  unfold bind at 1. unfold modify at 1. cbv beta iota.
  set (w3 := set_sRunning continue w2).
  (* the time *)
  unfold bind at 1.
  destruct (GetTimeDelta w3) as [[cDelta w4] |] eqn:Hw4;
    [| unfold GetTimeDelta, bind, extern, gets, modify, ret in Hw4;
       simpl in Hw4; destruct (Time_Get _); discriminate].
  destruct (GetTimeDelta_inside_frame _ _ _ Hw4)
    as ((n4 & Ht4 & Hq4) & _ & _ & Hlen4).
  (* the update *)
  unfold bind at 1.
  destruct (OnUpdate_returns cDelta w4) as [w5 Hw5]; [| assumption | assumption |].
  { unfold keeps in *. rewrite Hlen4. subst w3. simpl. rewrite Hlen2. subst w1. exact Hlen. }
  rewrite Hw5.
  destruct (OnUpdate_body_inside_frame _ _ _ Hw5) as ((n5 & Ht5 & Hq5) & _).
  (* the render *)
  unfold OnRender, extern_, bind, note, modify, gets.
  cbv beta iota. set (w6 := set_externals _ _).
  exists w6, (EvPollEvents continue :: n2 ++ n4 ++ EvOnUpdate :: n5 ++ [EvOnRender]).
  split; [reflexivity |]. split.
  - subst w6. simpl. rewrite Ht5. simpl. rewrite Ht4. subst w3. simpl. rewrite Ht2.
    subst w1. simpl. rewrite <- !app_assoc. reflexivity.
  - simpl. rewrite !List.filter_app. simpl. rewrite !List.filter_app. simpl.
    rewrite (filter_quiet n2 Hq2), (filter_quiet n4 Hq4), (filter_quiet n5 Hq5).
    reflexivity.
Qed.

End FrameFacts.

(** C8. Shutdown. At the top of an iteration of the running loop, when the
    poll of this iteration returns false, what is left of the loop is the
    body of this iteration and nothing more: the body is still executed
    in full, once, and the loop is left without another poll. With the
    score table of two entries and the two sides numbered 0 and 1, which
    makes the update defined, the loop returns, and the steps of a frame
    recorded since are exactly this poll, one update and one render. *)
Theorem Run_loop_shutdown {X : Type} `{Externals X}
    (fuel : nat) (w : Game.World X) (keys : list (Z * bool)) (x1 : X) :
  Game.sRunning w = true ->
  Window_PollEvents (Game.externals w) = ((keys, false), x1) ->
  Game.Run_loop (S fuel) w = Game.Run_body w
  /\ (length (Game.sPlayerScores w) = 2%nat ->
      Side_to_unsigned Side.Left = 0 ->
      Side_to_unsigned Side.Right = 1 ->
      exists w' new,
        Game.Run_loop (S fuel) w = Some (tt, w')
        /\ Game.trace w' = Game.trace w ++ new
        /\ List.filter Trace.is_frame_step new
           = [EvPollEvents false; EvOnUpdate; EvOnRender]
        /\ Game.sRunning w' = false).
Proof.
  intros Hrunning Hpoll.
  assert (Game.Run_loop (S fuel) w = Game.Run_body w) as Hlast.
  { rewrite Run_loop_iteration by exact Hrunning. unfold bind.
    destruct (Game.Run_body w) as [[[] w'] |] eqn:Hbody; [| reflexivity].
    apply Run_loop_stopped.
    rewrite (Run_body_stores_poll w w' Hbody), Hpoll. reflexivity. }
  split; [exact Hlast |].
  intros Hlen Hleft Hright.
  destruct (Run_body_returns w keys false x1 Hpoll Hlen Hleft Hright)
    as (w' & new & Hbody & Htrace & Hsteps).
  exists w', new. rewrite Hlast.
  repeat split; try assumption.
  rewrite (Run_body_stores_poll w w' Hbody), Hpoll. reflexivity.
Qed.

Lemma Run_loop_shutdown_witness :
  exists w' new,
    Game.Run_loop 1 SpecModel.point_frame = Some (tt, w')
    /\ Game.trace w' = Game.trace SpecModel.point_frame ++ new
    /\ List.filter Trace.is_frame_step new = [EvPollEvents false; EvOnUpdate; EvOnRender]
    /\ Game.sRunning w' = false.
Proof.
  exact (proj2 (Run_loop_shutdown 0 SpecModel.point_frame []
                  (SpecModel.MkScript [] [] [] [] true 0) eq_refl eq_refl)
           eq_refl eq_refl eq_refl).
Defined.

(** ** The lifecycle of the game *)

Lemma replay_app (events1 events2 : list Event) (state : list Leaf * bool) :
  Trace.replay (events1 ++ events2) state =
  match Trace.replay events1 state with
  | Some state' => Trace.replay events2 state'
  | None => None
  end.
Proof.
  revert state. induction events1 as [| e rest IH]; intros state; simpl.
  - reflexivity.
  - destruct (Trace.step state e); [apply IH | reflexivity].
Qed.

Lemma replay_no_lifecycle (events : list Event) (state : list Leaf * bool) :
  forallb (fun e => negb (Trace.is_lifecycle e)) events = true ->
  Trace.replay events state = Some state.
Proof.
  induction events as [| e rest IH]; simpl; [reflexivity |].
  intros Hall. apply andb_true_iff in Hall as [He Hrest].
  destruct state as [alive running]. destruct e; try discriminate; simpl; apply IH, Hrest.
Qed.

Section LifecycleOfTheGame.
Import Game.
Context {X : Type} `{Externals X}.
Local Abbreviation World := (Game.World X).
Implicit Types (item : Lifecycle.Lifetime World) (items : list (Lifecycle.Lifetime World)).

Lemma lifecycle_step_trans (P Q PQ : list Event -> Prop) (w1 w2 w3 : World) :
  (forall n1 n2, P n1 -> Q n2 -> PQ (n1 ++ n2)) ->
  lifecycle_step P w1 w2 -> lifecycle_step Q w2 w3 -> lifecycle_step PQ w1 w3.
Proof.
  intros Hcompose ((n1 & Ht1 & Hp) & Hi1 & Hr1) ((n2 & Ht2 & Hq) & Hi2 & Hr2).
  split; [| split; congruence].
  exists (n1 ++ n2). split; [rewrite Ht2, Ht1, <- app_assoc; reflexivity |].
  apply Hcompose; assumption.
Qed.

Lemma governs_leaf (leaf : Leaf) : governs (leaf_lifetime leaf) [leaf].
Proof.
  split.
  - intros w ok w'. simpl. unfold LeafInit, bind, extern, note, modify, ret.
    destruct (Leaf_Init leaf (externals w)) as [ok' x]. intros [= <- <-].
    split; [| split; reflexivity].
    exists [EvLeafInit leaf ok']. split; [reflexivity |].
    intros alive Hfresh. simpl.
    rewrite bool_decide_eq_false_2 by (apply Hfresh; left).
    destruct ok'; reflexivity.
  - intros w u w'. simpl. unfold LeafCleanup, extern_, bind, note, modify.
    intros [= <- <-]. split; [| split; reflexivity].
    exists [EvLeafCleanup leaf]. split; [reflexivity |].
    intros alive. simpl. rewrite bool_decide_eq_true_2 by reflexivity. reflexivity.
Qed.

(** Cleaning up a list of items stops their leaves, last item first. *)
Lemma cleanups_reversed_stops items (groups : list (list Leaf)) (w w' : World) :
  Forall2 governs items groups ->
  Lifecycle.cleanups_reversed items w = Some w' ->
  lifecycle_step (stops (concat groups)) w w'.
Proof.
  intros Hgov. revert w w'.
  induction Hgov as [| item leaves items groups Hitem _ IH]; intros w w' Hrun.
  - simpl in Hrun. injection Hrun as <-.
    split; [| split; reflexivity]. exists []. rewrite app_nil_r. split; [reflexivity |].
    intros alive. reflexivity.
  - simpl in Hrun.
    destruct (Lifecycle.cleanups_reversed items w) as [w1 |] eqn:Hrest; [| discriminate].
    destruct (Lifecycle.mCleanup item w1) as [[[] w2] |] eqn:Hlast; [| discriminate].
    simpl in Hrun. injection Hrun as <-.
    eapply lifecycle_step_trans;
      [| exact (IH _ _ Hrest) | exact (proj2 Hitem _ _ _ Hlast)].
    intros n1 n2 Hn1 Hn2 alive. simpl.
    rewrite replay_app, reverse_app, <- app_assoc, Hn1. apply Hn2.
Qed.

(** The contract of the manager, read on the stack of live leaves. *)
Lemma try_init_contract_starts (started todo : list (Lifecycle.Lifetime World))
    (before after : list (list Leaf)) (w w' : World) (ok : bool)
    (calls : list Lifecycle.Call) :
  Forall2 governs started before ->
  Forall2 governs todo after ->
  NoDup (concat (before ++ after)) ->
  Lifecycle.try_init_contract started todo w = Some (ok, w', calls) ->
  lifecycle_step
    (fun new =>
       forall alive,
         (forall leaf, leaf ∈ concat (before ++ after) -> leaf ∉ alive) ->
         Trace.replay new (reverse (concat before) ++ alive, false)
         = Some (if ok then reverse (concat (before ++ after)) ++ alive else alive,
                 false))
    w w'.
Proof.
  intros Hstarted Htodo. revert started before Hstarted w w' ok calls.
  induction Htodo as [| item leaves todo after Hitem Htodo IH];
    intros started before Hstarted w w' ok calls Hdup Hrun.
  - simpl in Hrun. injection Hrun as <- <- _.
    split; [| split; reflexivity]. exists []. rewrite !app_nil_r.
    split; [reflexivity |]. intros alive _. reflexivity.
  - cbn [Lifecycle.try_init_contract] in Hrun.
    destruct (Lifecycle.mInit item w) as [[[] w1] |] eqn:Hinit; [| | discriminate].
    + (* the item starts; the rest follows *)
      destruct (Lifecycle.try_init_contract (started ++ [item]) todo w1)
        as [[[r w2] made] |] eqn:Hrest; [| discriminate].
      injection Hrun as -> -> _.
      assert (before ++ leaves :: after = (before ++ [leaves]) ++ after) as Hshift
        by (rewrite <- app_assoc; reflexivity).
      eapply lifecycle_step_trans;
        [| exact (proj1 Hitem _ _ _ Hinit)
         | eapply (IH (started ++ [item]) (before ++ [leaves]));
           [apply Forall2_app; [exact Hstarted | constructor; [exact Hitem | constructor]]
           | rewrite <- Hshift; exact Hdup
           | exact Hrest]].
      intros n1 n2 Hn1 Hn2 alive Hfresh. simpl in Hn2.
      rewrite replay_app, Hn1.
      * rewrite <- Hshift in Hn2.
        specialize (Hn2 alive Hfresh).
        rewrite concat_app, reverse_app in Hn2. simpl in Hn2.
        rewrite app_nil_r, <- app_assoc in Hn2. exact Hn2.
      * intros leaf Hleaf Halive. apply elem_of_app in Halive as [Hold | Hnew].
        -- rewrite concat_app in Hdup. simpl in Hdup.
           apply NoDup_app in Hdup as (_ & Hdisjoint & _).
           rewrite elem_of_reverse in Hold.
           apply (Hdisjoint leaf Hold). apply elem_of_app. left. exact Hleaf.
        -- apply (Hfresh leaf); [| exact Hnew].
           rewrite concat_app. simpl. rewrite !elem_of_app. right. left. exact Hleaf.
    + (* the item fails; what was started is cleaned up *)
      destruct (Lifecycle.cleanups_reversed started w1) as [w2 |] eqn:Hclean;
        [| discriminate].
      injection Hrun as <- <- _.
      eapply lifecycle_step_trans;
        [| exact (proj1 Hitem _ _ _ Hinit)
         | exact (cleanups_reversed_stops _ _ _ _ Hstarted Hclean)].
      intros n1 n2 Hn1 Hn2 alive Hfresh. simpl.
      rewrite replay_app, Hn1; [apply Hn2 |].
      intros leaf Hleaf Halive. apply elem_of_app in Halive as [Hold | Hnew].
      * rewrite concat_app in Hdup. simpl in Hdup.
        apply NoDup_app in Hdup as (_ & Hdisjoint & _).
        rewrite elem_of_reverse in Hold.
        apply (Hdisjoint leaf Hold). apply elem_of_app. left. exact Hleaf.
      * apply (Hfresh leaf); [| exact Hnew].
        rewrite concat_app. simpl. rewrite !elem_of_app. right. left. exact Hleaf.
Qed.

Lemma lifecycle_step_mono (P Q : list Event -> Prop) (w w' : World) :
  (forall new, P new -> Q new) -> lifecycle_step P w w' -> lifecycle_step Q w w'.
Proof.
  intros Himpl ((new & Htrace & Hp) & Hflags). split; [| exact Hflags].
  exists new. split; [exact Htrace | apply Himpl, Hp].
Qed.

Lemma managed_TryInitItems items (w w' : World) (ok : bool) :
  Z.of_nat (length items) <= INT_MAX ->
  managed (Lifecycle.TryInitItems items) w = Some (ok, w') ->
  exists calls, Lifecycle.try_init_contract [] items w = Some (ok, w', calls).
Proof.
  intros Hmax. unfold managed. rewrite TryInitItems_contract by exact Hmax.
  destruct (Lifecycle.try_init_contract [] items w) as [[[r w1] calls] |];
    [| discriminate].
  simpl. intros [= <- <-]. exists calls. reflexivity.
Qed.

Lemma managed_CleanupItems items (w w' : World) (u : unit) :
  Z.of_nat (length items) <= INT_MAX ->
  managed (Lifecycle.CleanupItems items) w = Some (u, w') ->
  Lifecycle.cleanups_reversed items w = Some w'.
Proof.
  intros Hmax. unfold managed. rewrite CleanupItems_contract by exact Hmax.
  destruct (Lifecycle.cleanups_reversed items w) as [w1 |]; [| discriminate].
  simpl. intros [= _ <-]. reflexivity.
Qed.

(** Each level uses the same contract: a list of items that govern disjoint
    groups of leaves is, through [TryInitItems] and [CleanupItems], an
    item that governs all of them. *)
Lemma governs_list items (groups : list (list Leaf)) :
  Forall2 governs items groups ->
  NoDup (concat groups) ->
  Z.of_nat (length items) <= INT_MAX ->
  governs
    (Lifecycle.MkLifetime (managed (Lifecycle.TryInitItems items))
                          (managed (Lifecycle.CleanupItems items)))
    (concat groups).
Proof.
  intros Hgov Hdup Hmax. split; simpl.
  - intros w ok w' Hrun.
    destruct (managed_TryInitItems items w w' ok Hmax Hrun) as [calls Hcontract].
    eapply lifecycle_step_mono;
      [| exact (try_init_contract_starts [] items [] groups w w' ok calls
                  ltac:(constructor) Hgov Hdup Hcontract)].
    intros new Hnew alive Hfresh. exact (Hnew alive Hfresh).
  - intros w u w' Hrun.
    exact (cleanups_reversed_stops items groups w w' Hgov
             (managed_CleanupItems items w w' u Hmax Hrun)).
Qed.

Ltac governs_table :=
  repeat first [ apply governs_leaf | assumption | constructor ].

Lemma small_table (n : nat) : (n <= 16)%nat -> Z.of_nat n <= INT_MAX.
Proof. unfold INT_MAX. lia. Qed.

Lemma governs_systems :
  governs (Lifecycle.MkLifetime InitGameSystems CleanupGameSystems)
    [LogSystem; WindowSystem; GraphicsSystem; GLSystem; TimeSystem].
Proof.
  apply (governs_list skSystemLifetimes
           [[LogSystem]; [WindowSystem]; [GraphicsSystem]; [GLSystem]; [TimeSystem]]).
  - unfold skSystemLifetimes. governs_table.
  - apply (bool_decide_unpack _). vm_compute. reflexivity.
  - apply small_table. simpl. lia.
Qed.

Lemma governs_resources :
  governs (Lifecycle.MkLifetime InitGraphicsResources CleanupGraphicsResources)
    [PaddleProgram; BallProgram; Quad; TexturedQuad].
Proof.
  apply (governs_list skGraphicsResourceLifetimes
           [[PaddleProgram]; [BallProgram]; [Quad]; [TexturedQuad]]).
  - unfold skGraphicsResourceLifetimes. governs_table.
  - apply (bool_decide_unpack _). vm_compute. reflexivity.
  - apply small_table. simpl. lia.
Qed.

Lemma governs_state :
  governs (Lifecycle.MkLifetime InitState CleanupState)
    [GameWindow; Context; PaddleProgram; BallProgram; Quad; TexturedQuad].
Proof.
  apply (governs_list kStateLifetimes
           [[GameWindow]; [Context]; [PaddleProgram; BallProgram; Quad; TexturedQuad]]).
  - unfold kStateLifetimes. pose proof governs_resources. governs_table.
  - apply (bool_decide_unpack _). vm_compute. reflexivity.
  - apply small_table. simpl. lia.
Qed.

Lemma governs_game :
  governs
    (Lifecycle.MkLifetime (managed (Lifecycle.TryInitItems kGameLifetimes))
                          (managed (Lifecycle.CleanupItems kGameLifetimes)))
    (reverse Trace.all_leaves).
Proof.
  apply (governs_list kGameLifetimes
           [[LogSystem; WindowSystem; GraphicsSystem; GLSystem; TimeSystem];
            [GameWindow; Context; PaddleProgram; BallProgram; Quad; TexturedQuad]]).
  - unfold kGameLifetimes. pose proof governs_systems. pose proof governs_state.
    governs_table.
  - apply (bool_decide_unpack _). vm_compute. reflexivity.
  - apply small_table. simpl. lia.
Qed.

End LifecycleOfTheGame.

Section EntryPoints.
Import Game.
Context {X : Type} `{Externals X}.
Local Abbreviation World := (Game.World X).

#[local] Instance in_loop_preorder : PreOrder (in_loop (X := X)).
Proof. unfold in_loop. apply _. Qed.

Lemma steps_weaken {A : Type} (R R' : relation World) (c : Game.Prog X A) :
  (forall w w', R w w' -> R' w w') -> steps R c -> steps R' c.
Proof. intros Himpl Hc w a w' Hrun. apply Himpl. eapply Hc. exact Hrun. Qed.

Lemma inside_frame_in_loop (w w' : World) : inside_frame w w' -> in_loop w w'.
Proof.
  intros ((new & Htrace & Hquiet) & Hinit & _). split; [| exact Hinit].
  exists new. split; [exact Htrace |].
  clear Htrace. induction new as [| e rest IH]; [reflexivity |].
  simpl in *. apply andb_true_iff in Hquiet as [He Hrest].
  unfold quiet_event in He. apply andb_true_iff in He as [_ He].
  rewrite He. apply IH, Hrest.
Qed.

(** A single write that records no event of the lifecycle and leaves
    [sInitialized] alone. *)
Ltac loop_write :=
  split; [first [apply appends_same_trace; reflexivity | apply appends_note; reflexivity]
         | reflexivity].

Lemma deliver_in_loop (keys : list (Z * bool)) : steps in_loop (deliver keys).
Proof. eapply steps_weaken; [apply inside_frame_in_loop | apply deliver_inside_frame]. Qed.

Lemma GetTimeDelta_in_loop : steps in_loop GetTimeDelta.
Proof.
  eapply steps_weaken; [apply inside_frame_in_loop | apply GetTimeDelta_inside_frame].
Qed.

Lemma OnUpdate_in_loop (delta : F32.float) : steps in_loop (OnUpdate delta).
Proof.
  intros w [] w' Hrun. apply OnUpdate_body_inside_frame, inside_frame_in_loop in Hrun.
  transitivity (set_trace (trace w ++ [EvOnUpdate]) w); [loop_write | exact Hrun].
Qed.

Lemma OnRender_in_loop : steps in_loop OnRender.
Proof. unfold OnRender. steps_by loop_write. Qed.

Lemma ResetGameState_in_loop : steps in_loop ResetGameState.
Proof. unfold ResetGameState. steps_by loop_write. Qed.

#[local] Hint Resolve deliver_in_loop GetTimeDelta_in_loop OnUpdate_in_loop
  OnRender_in_loop ResetGameState_in_loop : steps_db.

Lemma PollEvents_in_loop : steps in_loop PollEvents.
Proof. unfold PollEvents. steps_by loop_write. Qed.

#[local] Hint Resolve PollEvents_in_loop : steps_db.

Lemma Run_body_in_loop : steps in_loop Run_body.
Proof. unfold Run_body. steps_by loop_write. Qed.

#[local] Hint Resolve Run_body_in_loop : steps_db.

Lemma Run_loop_in_loop (fuel : nat) : steps in_loop (Run_loop fuel).
Proof.
  induction fuel as [| fuel IH]; cbn [Run_loop]; steps_by loop_write.
Qed.

(** The loop ends only on a false [sRunning]. *)
Lemma Run_loop_ends (fuel : nat) (w w' : World) :
  Run_loop fuel w = Some (tt, w') -> sRunning w' = false.
Proof.
  revert w. induction fuel as [| fuel IH]; intros w; cbn [Run_loop];
    unfold bind at 1, gets; destruct (sRunning w) eqn:Hrunning;
    try discriminate; try (intros [= <-]; exact Hrunning).
  intros Hrun.
  repeat (apply bind_Some in Hrun as (? & ? & _ & Hrun)).
  eapply IH. exact Hrun.
Qed.

Lemma Init_when_initialized (w : World) :
  sInitialized w = true -> Init w = Some (false, w).
Proof. intros Hinit. unfold Init, bind, gets. rewrite Hinit. reflexivity. Qed.

Lemma Run_refused (fuel : nat) (w : World) :
  sInitialized w && negb (sRunning w) = false -> Run fuel w = Some (tt, w).
Proof. intros Hguard. unfold Run, bind, gets. rewrite Hguard. reflexivity. Qed.

Lemma Cleanup_refused (w : World) :
  sInitialized w && negb (sRunning w) = false -> Cleanup w = Some (tt, w).
Proof. intros Hguard. unfold Cleanup, bind, gets. rewrite Hguard. reflexivity. Qed.

Lemma Init_consistent (w w' : World) (ok : bool) :
  consistent w -> Init w = Some (ok, w') -> consistent w'.
Proof.
  intros [Hstopped Hreplay] Hrun.
  destruct (sInitialized w) eqn:Hinit.
  - rewrite (Init_when_initialized w Hinit) in Hrun. injection Hrun as _ <-.
    split; [exact Hstopped | rewrite Hinit; exact Hreplay].
  - unfold Init, bind at 1, gets in Hrun. rewrite Hinit in Hrun.
    apply bind_Some in Hrun as (started & w1 & Hstart & Hrun).
    unfold bind, modify, gets in Hrun. injection Hrun as _ <-.
    destruct (proj1 governs_game w started w1 Hstart)
      as ((new & Htrace & Hnew) & _ & Hrunning).
    split; [simpl; congruence |].
    simpl. rewrite Htrace, replay_app, Hreplay.
    rewrite (Hnew [] ltac:(intros leaf _ Hin; inversion Hin)).
    rewrite reverse_involutive. destruct started; reflexivity.
Qed.

Lemma Cleanup_consistent (w w' : World) :
  consistent w -> Cleanup w = Some (tt, w') -> consistent w'.
Proof.
  intros [Hstopped Hreplay] Hrun.
  destruct (sInitialized w && negb (sRunning w)) eqn:Hguard.
  - unfold Cleanup, bind at 1, gets in Hrun. rewrite Hguard in Hrun.
    apply bind_Some in Hrun as ([] & w1 & Hstop & Hrun).
    unfold modify in Hrun. injection Hrun as <-.
    destruct (proj2 governs_game w tt w1 Hstop)
      as ((new & Htrace & Hnew) & _ & Hrunning).
    apply andb_true_iff in Hguard as [Hinit _]. rewrite Hinit in Hreplay.
    split; [simpl; congruence |].
    simpl. rewrite Htrace, replay_app, Hreplay.
    specialize (Hnew []). rewrite reverse_involutive, app_nil_r in Hnew. exact Hnew.
  - rewrite (Cleanup_refused w Hguard) in Hrun. injection Hrun as <-.
    split; assumption.
Qed.

Lemma Run_consistent (fuel : nat) (w w' : World) :
  consistent w -> Run fuel w = Some (tt, w') -> consistent w'.
Proof.
  intros [Hstopped Hreplay] Hrun.
  destruct (sInitialized w && negb (sRunning w)) eqn:Hguard.
  - unfold Run, bind at 1, gets in Hrun. rewrite Hguard in Hrun.
    unfold bind at 1, modify at 1 in Hrun. cbv beta iota in Hrun.
    apply bind_Some in Hrun as ([] & w2 & Hbegin & Hrun).
    apply bind_Some in Hrun as ([] & w3 & Hloop & Hrun).
    unfold OnFinishRun, extern_, bind, note, modify in Hrun. injection Hrun as <-.
    (* entering the loop *)
    unfold OnBeginRun in Hbegin. unfold bind at 1, note at 1, modify at 1 in Hbegin.
    cbv beta iota in Hbegin.
    assert (in_loop (set_trace (trace (set_sRunning true w) ++ [EvOnBeginRun])
                       (set_sRunning true w)) w2) as ((n2 & Ht2 & Hq2) & Hi2).
    { revert Hbegin. generalize (set_trace (trace (set_sRunning true w) ++ [EvOnBeginRun])
                                   (set_sRunning true w)).
      intros w1 Hbegin.
      match type of Hbegin with
      | ?c w1 = _ => assert (steps in_loop c) as Hsteps
      end.
      { unfold PositionPaddlesOnTerrain. steps_by loop_write. }
      exact (Hsteps _ _ _ Hbegin). }
    (* the loop *)
    destruct (Run_loop_in_loop fuel _ _ _ Hloop) as ((n3 & Ht3 & Hq3) & Hi3).
    pose proof (Run_loop_ends fuel _ _ Hloop) as Hends.
    unfold keeps in *. simpl in Ht2, Hi2.
    split; [simpl; exact Hends |].
    simpl. rewrite Ht3, Ht2, <- !app_assoc. rewrite replay_app, Hreplay.
    rewrite Hi3, Hi2. simpl.
    rewrite replay_app, (replay_no_lifecycle n2 _ Hq2).
    rewrite replay_app, (replay_no_lifecycle n3 _ Hq3). reflexivity.
  - rewrite (Run_refused fuel w Hguard) in Hrun. injection Hrun as <-.
    split; assumption.
Qed.

Lemma session_consistent (entries : list Session.Entry) (w w' : World) :
  consistent w -> Session.session entries w = Some (tt, w') -> consistent w'.
Proof.
  revert w. induction entries as [| e rest IH]; intros w Hw Hrun; simpl in Hrun.
  - injection Hrun as <-. exact Hw.
  - apply bind_Some in Hrun as ([] & w1 & Hfirst & Hrun).
    apply (IH w1); [| exact Hrun].
    destruct e as [| fuel |]; simpl in Hfirst.
    + apply bind_Some in Hfirst as (ok & w0 & Hinit & Hret).
      injection Hret as <-. eapply Init_consistent; eassumption.
    + eapply Run_consistent; eassumption.
    + eapply Cleanup_consistent; eassumption.
Qed.

End EntryPoints.

(** C10. The protocol of the entry points. [Init] on an initialized game
    returns false and changes nothing; [Run] and [Cleanup] return at once
    and change nothing unless the game is initialized and not running. As
    a consequence, whatever sequence of entry points a client calls from a
    consistent world (such as the world at process start), the world it
    gets back, if any, is consistent: along the whole trace a leaf is
    initialized only when it is not alive, cleaned up only when it is the
    last one made alive, and neither while the frame loop is running. *)
Theorem entry_points_protocol {X : Type} `{Externals X} :
  (forall w : Game.World X,
     Game.sInitialized w = true -> Game.Init w = Some (false, w))
  /\ (forall (fuel : nat) (w : Game.World X),
        Game.sInitialized w && negb (Game.sRunning w) = false ->
        Game.Run fuel w = Some (tt, w))
  /\ (forall w : Game.World X,
        Game.sInitialized w && negb (Game.sRunning w) = false ->
        Game.Cleanup w = Some (tt, w))
  /\ (forall (entries : list Session.Entry) (w w' : Game.World X),
        consistent w ->
        Session.session entries w = Some (tt, w') ->
        consistent w').
Proof.
  split; [exact Init_when_initialized |].
  split; [exact Run_refused |].
  split; [exact Cleanup_refused | exact session_consistent].
Qed.

Lemma entry_points_protocol_witness :
  Game.Init SpecModel.rally_frame = Some (false, SpecModel.rally_frame)
  /\ Game.Run 3 SpecModel.rally_frame = Some (tt, SpecModel.rally_frame)
  /\ Game.Cleanup SpecModel.rally_frame = Some (tt, SpecModel.rally_frame)
  /\ exists w',
       Session.session
         [Session.DoInit; Session.DoInit; Session.DoRun 5;
          Session.DoCleanup; Session.DoCleanup]
         (SpecModel.start_world SpecModel.short_run)
       = Some (tt, w')
       /\ consistent w'.
Proof.
  destruct (@entry_points_protocol SpecModel.Script _) as (Hinit & Hrun & Hcleanup & Hsession).
  split; [apply Hinit; reflexivity |].
  split; [apply Hrun; reflexivity |].
  split; [apply Hcleanup; reflexivity |].
  destruct (Session.session _ (SpecModel.start_world SpecModel.short_run))
    as [[[] w'] |] eqn:Hdone; [| vm_compute in Hdone; discriminate].
  exists w'. split; [reflexivity |].
  eapply Hsession; [| exact Hdone]. split; reflexivity.
Defined.

(** ** Shader and program creation *)

Section GraphicsFacts.
Import Graphics.
Context {G : Type} `{Driver G}.
Local Abbreviation State := (Graphics.State (G := G)).

Ltac run_graphics :=
  unfold CreateShaderFromSource, CreateProgramFromShaders,
    ShaderCompileFailed, ProgramLinkFailed, LogShaderInfo, LogProgramInfo,
    LogItemInfo, GetItemiv, Log_Log,
    gl_CreateShader, gl_ShaderSource, gl_CompileShader, gl_GetShaderiv,
    gl_GetShaderInfoLog, gl_DeleteShader, gl_CreateProgram, gl_AttachShader,
    gl_LinkProgram, gl_GetProgramiv, gl_GetProgramInfoLog, gl_DeleteProgram,
    gl_, gl, note, bind, modify, ret, undefined.

Lemma valid_type_accepted (type : Z) :
  type = gl_VertexShader \/ type = gl_FragmentShader ->
  negb ((type =? gl_VertexShader) || (type =? gl_FragmentShader)) = false.
Proof. intros [-> | ->]; reflexivity. Qed.

Lemma valid_shaders_accepted (vert frag : Z) :
  vert <> 0 -> frag <> 0 -> negb (negb (vert =? 0) && negb (frag =? 0)) = false.
Proof.
  intros Hvert Hfrag. apply Z.eqb_neq in Hvert, Hfrag. rewrite Hvert, Hfrag. reflexivity.
Qed.







End GraphicsFacts.



(** * More of the code *)

(** ** Lifecycle manager: every run *)

Section LifecycleShapes.
Import Lifecycle.
Context {W : Type}.

Lemma try_init_contract_shape (started todo : list (Lifetime W)) (w w' : W)
    (r : bool) (calls : list Call) :
  try_init_contract started todo w = Some (r, w', calls) ->
  exists k : nat,
    if r then
      k = length todo
      /\ calls = CallInit <$> (Z.of_nat <$> seq (length started) k)
    else
      (k < length todo)%nat
      /\ calls = (CallInit <$> (Z.of_nat <$> seq (length started) (S k)))
                 ++ (CallCleanup <$> reverse (indices (length started + k))).
Proof.
  revert started w r w' calls.
  induction todo as [| item rest IH]; intros started w r w' calls Hrun.
  - simpl in Hrun. injection Hrun as <- _ <-. exists 0%nat. split; reflexivity.
  - cbn [try_init_contract] in Hrun.
    destruct (mInit item w) as [[[] w1] |]; [| | discriminate].
    + destruct (try_init_contract (started ++ [item]) rest w1)
        as [[[r1 w2] made] |] eqn:Hrest; [| discriminate].
      injection Hrun as -> _ <-.
      destruct (IH _ _ _ _ _ Hrest) as [k Hk]. exists (S k).
      rewrite length_app in Hk. simpl in Hk.
      replace (length started + 1)%nat with (S (length started)) in Hk by lia.
      destruct r.
      * destruct Hk as [-> ->]. split; reflexivity.
      * destruct Hk as [Hlt ->]. split; [simpl; lia |].
        replace (S (length started) + k)%nat with (length started + S k)%nat by lia.
        reflexivity.
    + destruct (cleanups_reversed started w1) as [w2 |]; [| discriminate].
      injection Hrun as <- _ <-. exists 0%nat. split; [simpl; lia |].
      rewrite Nat.add_0_r. reflexivity.
Qed.

End LifecycleShapes.

(** X1. Whatever the items do, a run of [TryInitItems] that returns made
    one of these sequences of calls: on [true], the inits of all the items
    in order and nothing else; on [false], the inits of items [0..k] for
    some [k] followed by the cleanups of items [k-1] down to [0]. *)
Theorem TryInitItems_call_shapes {W : Type} (lifetimes : list (Lifecycle.Lifetime W))
    (w w' : W) (r : bool) (calls : list Lifecycle.Call) :
  Z.of_nat (length lifetimes) <= INT_MAX ->
  Lifecycle.TryInitItems lifetimes (w, []) = Some (r, (w', calls)) ->
  exists k : nat,
    if r then
      k = length lifetimes
      /\ calls = Lifecycle.CallInit <$> Lifecycle.indices k
    else
      (k < length lifetimes)%nat
      /\ calls = (Lifecycle.CallInit <$> Lifecycle.indices (S k))
                 ++ (Lifecycle.CallCleanup <$> reverse (Lifecycle.indices k)).
Proof.
  intros Hmax Hrun. rewrite TryInitItems_contract in Hrun by exact Hmax.
  destruct (Lifecycle.try_init_contract [] lifetimes w) as [[[r1 w1] made] |] eqn:Hcontract;
    [| discriminate].
  simpl in Hrun. injection Hrun as <- <- <-.
  exact (try_init_contract_shape [] lifetimes w w1 r1 made Hcontract).
Qed.

Lemma TryInitItems_call_shapes_witness :
  exists k : nat,
    (k < 5)%nat
    /\ [Lifecycle.CallInit 0; Lifecycle.CallInit 1; Lifecycle.CallInit 2;
        Lifecycle.CallInit 3;
        Lifecycle.CallCleanup 2; Lifecycle.CallCleanup 1; Lifecycle.CallCleanup 0]
       = (Lifecycle.CallInit <$> Lifecycle.indices (S k))
         ++ (Lifecycle.CallCleanup <$> reverse (Lifecycle.indices k)).
Proof.
  refine (TryInitItems_call_shapes Lifecycle.three_then_failure []
            [1; 2; 3; 4; -3; -2; -1] false _ _ eq_refl).
  vm_compute. discriminate.
Defined.

(** X2. Full teardown. In a list whose indices fit an [int], [CleanupItems]
    calls the cleanup of every item, the last one first, and no init; the
    state it returns is the one these cleanups leave in that order. *)
Theorem CleanupItems_all_reversed {W : Type} (lifetimes : list (Lifecycle.Lifetime W))
    (w w' : W) :
  Z.of_nat (length lifetimes) <= INT_MAX ->
  Lifecycle.cleanups_reversed lifetimes w = Some w' ->
  Lifecycle.CleanupItems lifetimes (w, []) =
  Some (tt, (w', Lifecycle.CallCleanup <$> reverse (Lifecycle.indices (length lifetimes)))).
Proof.
  intros Hmax Hclean. rewrite CleanupItems_contract by exact Hmax.
  rewrite Hclean. reflexivity.
Qed.

Lemma CleanupItems_all_reversed_witness :
  Lifecycle.CleanupItems Lifecycle.four_successes ([], []) =
  Some (tt,
        ([-4; -3; -2; -1],
         [Lifecycle.CallCleanup 3; Lifecycle.CallCleanup 2;
          Lifecycle.CallCleanup 1; Lifecycle.CallCleanup 0])).
Proof.
  refine (CleanupItems_all_reversed Lifecycle.four_successes [] [-4; -3; -2; -1] _ eq_refl).
  vm_compute. discriminate.
Defined.

(** ** Paddles stay in the terrain *)

Lemma collides_depends (winSize : Vector2i.t) (p q : Paddle.t) :
  Vector2f.y (Paddle.position p) = Vector2f.y (Paddle.position q) ->
  Vector2f.y (Paddle.size p) = Vector2f.y (Paddle.size q) ->
  More.collides winSize p = More.collides winSize q.
Proof.
  intros Hposition Hsize.
  unfold More.collides, Paddle.kCollidesTop, Paddle.kCollidesBottom, Paddle.kMinTerrainOffset.
  rewrite Hposition, Hsize. reflexivity.
Qed.

(** X3. A paddle that the terrain test lets be is still one that the test
    lets be after an update, whatever the elapsed time, its direction and
    its speed: the update cannot take it into the margin kept at the top
    and at the bottom. *)
Theorem Paddle_Update_stays_clear (delta : F32.float) (winSize : Vector2i.t) (p : Paddle.t) :
  More.collides winSize p = false ->
  More.collides winSize (Paddle.Update delta winSize p) = false.
Proof.
  intros Hclear. rewrite Paddle_Update_unfold. unfold Paddle.CollideAgainstTerrain.
  destruct (Paddle.kCollidesTop winSize _ || Paddle.kCollidesBottom winSize _) eqn:Hmoved.
  - rewrite <- Hclear. apply collides_depends; reflexivity.
  - exact Hmoved.
Qed.

Lemma Paddle_Update_stays_clear_witness :
  More.collides Game.skWinSize
    (Paddle.Update F32.one_tenth Game.skWinSize (SpecModel.paddle_at 50 600 1))
  = false.
Proof.
  apply (Paddle_Update_stays_clear F32.one_tenth Game.skWinSize (SpecModel.paddle_at 50 600 1)).
  vm_compute. reflexivity.
Defined.

Lemma Paddle_Update_size (delta : F32.float) (winSize : Vector2i.t) (p : Paddle.t) :
  Paddle.size (Paddle.Update delta winSize p) = Paddle.size p.
Proof.
  rewrite Paddle_Update_unfold. unfold Paddle.CollideAgainstTerrain.
  destruct (_ || _); reflexivity.
Qed.

Lemma Paddle_Update_in_terrain (delta : F32.float) (p : Paddle.t) :
  More.in_terrain p -> More.in_terrain (Paddle.Update delta Game.skWinSize p).
Proof.
  intros [Hsize Hclear]. split.
  - rewrite Paddle_Update_size. exact Hsize.
  - apply Paddle_Update_stays_clear, Hclear.
Qed.

Lemma Paddle_Reset_in_terrain (p : Paddle.t) :
  Paddle.size p = Game.skPaddleSize -> More.in_terrain (Paddle.Reset Game.skWinSize p).
Proof.
  intros Hsize. split; [exact Hsize |].
  rewrite (collides_depends Game.skWinSize _
             (Paddle.Reset Game.skWinSize (SpecModel.paddle_at 0 0 0))).
  - vm_compute. reflexivity.
  - reflexivity.
  - simpl. rewrite Hsize. reflexivity.
Qed.

(** ** Key events of one poll *)

Section KeyBatches.
Import Game.
Context {X : Type} `{Externals X}.
Local Abbreviation World := (Game.World X).

Lemma deliver_cons (key : Z) (pressed : bool) (rest : list (Z * bool)) (w w' : World) :
  deliver ((key, pressed) :: rest) w = Some (tt, w') ->
  exists w1, OnKeyEvent key pressed w = Some (tt, w1) /\ deliver rest w1 = Some (tt, w').
Proof.
  simpl. intros Hrun. apply bind_Some in Hrun as ([] & w1 & Hfirst & Hrest).
  exists w1. split; assumption.
Qed.

Lemma OnKeyEvent_idle_ignored (key : Z) (pressed : bool) (w : World) :
  sPlaying w = false ->
  pressed && (key =? VK_SPACE) = false ->
  OnKeyEvent key pressed w = Some (tt, set_trace (trace w ++ [EvOnKeyEvent key pressed]) w).
Proof.
  intros Hidle Hother. unfold OnKeyEvent, bind, note, modify, gets. simpl.
  rewrite Hidle, Hother. reflexivity.
Qed.

(** While the match is played a batch of key events launches nothing. *)
Lemma deliver_playing (keys : list (Z * bool)) (w w' : World) :
  sPlaying w = true -> deliver keys w = Some (tt, w') -> no_launch w w'.
Proof.
  revert w. induction keys as [| [key pressed] rest IH]; intros w Hplaying Hrun.
  - injection Hrun as <-. reflexivity.
  - apply deliver_cons in Hrun as (w1 & Hfirst & Hrest).
    pose proof (OnKeyEvent_otherwise key pressed w w1 (or_introl Hplaying) Hfirst) as Hstep.
    transitivity w1; [exact Hstep |].
    apply IH; [| exact Hrest]. destruct Hstep as (_ & Hkept & _).
    unfold keeps in Hkept. congruence.
Qed.

Lemma launches_app (l1 l2 : list Event) :
  More.launches (l1 ++ l2) = (More.launches l1 + More.launches l2)%nat.
Proof. unfold More.launches. rewrite List.filter_app, length_app. reflexivity. Qed.

Lemma launches_none (new : list Event) :
  forallb (fun e => negb (Trace.is_launch e)) new = true -> More.launches new = 0%nat.
Proof.
  unfold More.launches. induction new as [| e rest IH]; [reflexivity |].
  simpl. intros Hall. apply andb_true_iff in Hall as [He Hrest].
  apply negb_true_iff in He. rewrite He. apply IH, Hrest.
Qed.

Lemma deliver_launches (keys : list (Z * bool)) (w w' : World) :
  deliver keys w = Some (tt, w') ->
  exists new,
    trace w' = trace w ++ new
    /\ More.launches new
       = (if negb (sPlaying w) && existsb More.is_launch_key keys then 1 else 0)%nat
    /\ sPlaying w' = sPlaying w || existsb More.is_launch_key keys.
Proof.
  destruct (sPlaying w) eqn:Hplaying.
  - intros Hrun.
    destruct (deliver_playing keys w w' Hplaying Hrun) as ((new & Htrace & Hnone) & Hkept & _).
    exists new. split; [exact Htrace |]. split; [apply launches_none, Hnone |].
    unfold keeps in Hkept. simpl. congruence.
  - simpl. revert w Hplaying. induction keys as [| [key pressed] rest IH]; intros w Hidle Hrun.
    + injection Hrun as <-. exists []. rewrite app_nil_r. repeat split. exact Hidle.
    + apply deliver_cons in Hrun as (w1 & Hfirst & Hrest).
      cbn [existsb]. unfold More.is_launch_key at 1 3. cbn [fst snd].
      destruct (pressed && (key =? VK_SPACE)) eqn:Hkey.
      * apply andb_true_iff in Hkey as [-> Hkey]. apply Z.eqb_eq in Hkey as ->.
        destruct (OnKeyEvent_idle_space w Hidle) as (w2 & Hrun2 & Htrace & Hplay & _).
        rewrite Hfirst in Hrun2. injection Hrun2 as <-.
        destruct (deliver_playing rest w1 w' Hplay Hrest)
          as ((new & Hnew & Hnone) & Hkept & _).
        eexists. split; [rewrite Hnew, Htrace, <- app_assoc; reflexivity |].
        split; [| unfold keeps in Hkept; simpl; congruence].
        rewrite launches_app, (launches_none new Hnone). reflexivity.
      * rewrite OnKeyEvent_idle_ignored in Hfirst by assumption.
        injection Hfirst as <-.
        destruct (IH (set_trace (trace w ++ [EvOnKeyEvent key pressed]) w) Hidle Hrest) as (new & Hnew & Hcount & Hplay).
        simpl in Hnew, Hcount, Hplay.
        eexists. split; [rewrite Hnew; simpl; rewrite <- app_assoc; reflexivity |].
        split; [| exact Hplay].
        rewrite launches_app. simpl in *. exact Hcount.
Qed.

(** What a key event does to a paddle, if anything. *)
Lemma OnKeyEvent_paddles (key : Z) (pressed : bool) (w w' : World) :
  OnKeyEvent key pressed w = Some (tt, w') ->
  (More.is_player1_key (key, pressed) = false -> sPaddle1 w' = sPaddle1 w)
  /\ (More.is_player2_key (key, pressed) = false -> sPaddle2 w' = sPaddle2 w)
  /\ sPlayerScores w' = sPlayerScores w
  /\ sLastTime w' = sLastTime w.
Proof.
  unfold More.is_player1_key, More.is_player2_key. cbn [fst snd].
  unfold OnKeyEvent, bind, note, modify, gets. simpl.
  destruct (sPlaying w).
  - destruct pressed; unfold OnKeyDown, OnKeyUp, modify, ret;
      destruct (key =? skP2Up), (key =? skP2Down), (key =? skP1Up), (key =? skP1Down);
      intros [= <-]; simpl; repeat split; try reflexivity; discriminate.
  - destruct (pressed && (key =? VK_SPACE)).
    + unfold LaunchBall, bind, extern, note, modify. simpl.
      destruct (RandomSignFloat (externals w)) as [rx x1]. simpl.
      destruct (RandomSignFloat x1) as [ry x2]. simpl.
      intros [= <-]. repeat split.
    + intros [= <-]. repeat split.
Qed.

End KeyBatches.

(** X4. However many times the launch key is pressed in the key events
    of one poll, the ball is launched at most once: exactly once when the
    match is idle and a pressed launch key is among them, never
    otherwise. The batch always returns, and the match is played after it
    exactly when it was before or the launch key was pressed. *)
Theorem deliver_launches_once {X : Type} `{Externals X}
    (keys : list (Z * bool)) (w : Game.World X) :
  exists w' new,
    Game.deliver keys w = Some (tt, w')
    /\ Game.trace w' = Game.trace w ++ new
    /\ More.launches new
       = (if negb (Game.sPlaying w) && existsb More.is_launch_key keys then 1 else 0)%nat
    /\ Game.sPlaying w' = Game.sPlaying w || existsb More.is_launch_key keys.
Proof.
  destruct (deliver_returns keys w) as [w' Hrun].
  destruct (deliver_launches keys w w' Hrun) as (new & Hnew).
  exists w', new. split; [exact Hrun | exact Hnew].
Qed.

(** X5. While the match is idle, key events that are not a press of the
    launch key are recorded and otherwise lost: paddles, ball, scores and
    flags are exactly as they were. *)
Theorem deliver_idle_ignored {X : Type} `{Externals X}
    (keys : list (Z * bool)) (w : Game.World X) :
  Game.sPlaying w = false ->
  existsb More.is_launch_key keys = false ->
  Game.deliver keys w
  = Some (tt, Game.set_trace (Game.trace w ++ (More.key_event <$> keys)) w).
Proof.
  revert w. induction keys as [| [key pressed] rest IH]; intros w Hidle Hnone.
  - simpl. rewrite app_nil_r. destruct w. reflexivity.
  - cbn [existsb] in Hnone. apply orb_false_iff in Hnone as [Hfirst Hrest].
    unfold More.is_launch_key in Hfirst. cbn [fst snd] in Hfirst.
    cbn [Game.deliver]. unfold bind. rewrite OnKeyEvent_idle_ignored by assumption.
    rewrite IH by assumption. simpl. rewrite <- app_assoc. reflexivity.
Qed.

Lemma deliver_idle_ignored_witness :
  Game.deliver [(87, true); (32, false); (38, true)]
    (SpecModel.start_world SpecModel.short_run)
  = Some (tt,
          Game.set_trace [EvOnKeyEvent 87 true; EvOnKeyEvent 32 false; EvOnKeyEvent 38 true]
            (SpecModel.start_world SpecModel.short_run)).
Proof.
  exact (deliver_idle_ignored [(87, true); (32, false); (38, true)]
           (SpecModel.start_world SpecModel.short_run) eq_refl eq_refl).
Defined.

(** X6. Each player's keys reach that player's paddle only: the key
    events of one poll leave the first paddle as it was when none of them
    is [W] or [S], the second one when none is an arrow up or down, and
    in no case touch the scores or the time of the last frame. *)
Theorem deliver_routes {X : Type} `{Externals X}
    (keys : list (Z * bool)) (w w' : Game.World X) :
  Game.deliver keys w = Some (tt, w') ->
  (existsb More.is_player1_key keys = false -> Game.sPaddle1 w' = Game.sPaddle1 w)
  /\ (existsb More.is_player2_key keys = false -> Game.sPaddle2 w' = Game.sPaddle2 w)
  /\ Game.sPlayerScores w' = Game.sPlayerScores w
  /\ Game.sLastTime w' = Game.sLastTime w.
Proof.
  revert w. induction keys as [| [key pressed] rest IH]; intros w Hrun.
  - injection Hrun as <-. repeat split.
  - apply deliver_cons in Hrun as (w1 & Hfirst & Hrest).
    destruct (OnKeyEvent_paddles key pressed w w1 Hfirst) as (Hp1 & Hp2 & Hscores & Htime).
    destruct (IH w1 Hrest) as (Hq1 & Hq2 & Hscores' & Htime').
    cbn [existsb]. repeat split; try congruence.
    + intros Hnone. apply orb_false_iff in Hnone as [Hkey Hnone].
      rewrite (Hq1 Hnone). exact (Hp1 Hkey).
    + intros Hnone. apply orb_false_iff in Hnone as [Hkey Hnone].
      rewrite (Hq2 Hnone). exact (Hp2 Hkey).
Qed.

Lemma deliver_routes_witness :
  exists w',
    Game.deliver [(38, true); (32, true); (40, false)] SpecModel.rally_frame = Some (tt, w')
    /\ Game.sPaddle1 w' = Game.sPaddle1 SpecModel.rally_frame
    /\ Game.sPlayerScores w' = Game.sPlayerScores SpecModel.rally_frame.
Proof.
  destruct (Game.deliver [(38, true); (32, true); (40, false)] SpecModel.rally_frame)
    as [[[] w'] |] eqn:Hrun; [| vm_compute in Hrun; discriminate].
  destruct (deliver_routes _ _ _ Hrun) as (Hfirst & _ & Hscores & _).
  exists w'. split; [reflexivity |]. split; [apply Hfirst; reflexivity | exact Hscores].
Defined.

(** ** Paddles stay in the terrain, frame after frame *)

Section TerrainFacts.
Import Game.
Context {X : Type} `{Externals X}.
Local Abbreviation World := (Game.World X).

#[local] Instance terrain_kept_preorder : PreOrder (More.terrain_kept (X := X)).
Proof.
  split.
  - intros w Hw. exact Hw.
  - intros w1 w2 w3 H12 H23 Hw. apply H23, H12, Hw.
Qed.

Lemma in_terrain_depends (p q : Paddle.t) :
  Vector2f.y (Paddle.position q) = Vector2f.y (Paddle.position p) ->
  Paddle.size q = Paddle.size p ->
  More.in_terrain p -> More.in_terrain q.
Proof.
  intros Hposition Hsize [Hgame Hclear]. split; [congruence |].
  rewrite <- Hclear. apply collides_depends; congruence.
Qed.

Lemma handler_in_terrain (handler : Paddle.t -> Paddle.t) (p : Paddle.t) :
  More.keeps_place handler -> More.in_terrain p -> More.in_terrain (handler p).
Proof. intros Hkeeps. destruct (Hkeeps p). apply in_terrain_depends; assumption. Qed.

(** A single write that leaves the paddles in the terrain. *)
Ltac terrain_write :=
  let Hfirst := fresh "Hfirst" in
  let Hsecond := fresh "Hsecond" in
  intros [Hfirst Hsecond]; split; simpl;
  first [ assumption
        | apply handler_in_terrain; assumption
        | apply Paddle_Update_in_terrain; assumption
        | apply Paddle_Reset_in_terrain; first [apply Hfirst | apply Hsecond] ].

Lemma OnKeyEvent_terrain_kept (key : Z) (pressed : bool) :
  More.handlers_keep_place -> steps More.terrain_kept (OnKeyEvent key pressed).
Proof.
  intros (Hup & Hdown & Hupr & Hdownr).
  unfold OnKeyEvent, OnKeyDown, OnKeyUp, LaunchBall. steps_by terrain_write.
Qed.

Lemma deliver_terrain_kept (keys : list (Z * bool)) :
  More.handlers_keep_place -> steps More.terrain_kept (deliver keys).
Proof.
  intros Hhandlers. induction keys as [| [key pressed] rest IH]; simpl.
  - apply (steps_ret More.terrain_kept).
  - apply (steps_bind More.terrain_kept);
      [apply OnKeyEvent_terrain_kept, Hhandlers | intros _; exact IH].
Qed.

Lemma OnUpdate_terrain_kept (delta : F32.float) : steps More.terrain_kept (OnUpdate delta).
Proof.
  unfold OnUpdate, sBall_CollideWithTerrain, sBall_CollideWith, CheckBallSideCollision,
    UpdateScores, ResetGameState.
  steps_by terrain_write.
Qed.

Lemma Run_body_terrain_kept :
  More.handlers_keep_place -> steps More.terrain_kept Run_body.
Proof.
  intros Hhandlers. pose proof (deliver_terrain_kept) as Hdeliver.
  pose proof OnUpdate_terrain_kept as Hupdate.
  unfold Run_body, PollEvents, GetTimeDelta, OnRender. steps_by terrain_write.
Qed.

Lemma Run_loop_terrain_kept (fuel : nat) :
  More.handlers_keep_place -> steps More.terrain_kept (Run_loop fuel).
Proof.
  intros Hhandlers. pose proof (Run_body_terrain_kept Hhandlers) as Hbody.
  induction fuel as [| fuel IH]; cbn [Run_loop]; steps_by terrain_write.
Qed.

Lemma OnBeginRun_places (w : World) :
  exists w',
    OnBeginRun w = Some (tt, w')
    /\ sPaddle1 w' = Paddle.set_position_x kBorderOffset (Paddle.Reset skWinSize (sPaddle1 w))
    /\ sPaddle2 w' =
       Paddle.set_position_x (F32.sub (F32.of_int (Vector2i.x skWinSize)) kBorderOffset)
         (Paddle.Reset skWinSize (sPaddle2 w))
    /\ sBall w' = Ball_Reset skWinSize (sBall w)
    /\ sPlaying w' = false
    /\ sPlayerScores w' = sPlayerScores w
    /\ sRunning w' = sRunning w
    /\ sInitialized w' = sInitialized w
    /\ trace w' = trace w ++ [EvOnBeginRun; EvResetGameState].
Proof.
  unfold OnBeginRun, ResetGameState, PositionPaddlesOnTerrain, bind, note, extern_, modify.
  simpl. eexists. split; [reflexivity |]. simpl. rewrite <- app_assoc. repeat split.
Qed.

Lemma OnBeginRun_in_terrain (w w' : World) :
  More.game_size_paddles w -> OnBeginRun w = Some (tt, w') -> More.paddles_in_terrain w'.
Proof.
  intros [Hsize1 Hsize2] Hrun.
  destruct (OnBeginRun_places w) as (w2 & Hrun2 & Hp1 & Hp2 & _).
  rewrite Hrun in Hrun2. injection Hrun2 as <-.
  split.
  - rewrite Hp1. eapply in_terrain_depends; [| | apply Paddle_Reset_in_terrain, Hsize1];
      reflexivity.
  - rewrite Hp2. eapply in_terrain_depends; [| | apply Paddle_Reset_in_terrain, Hsize2];
      reflexivity.
Qed.

End TerrainFacts.

(** X7. The paddles never enter the margins kept at the top and at the
    bottom of the terrain. With key handlers that leave a paddle's height
    and size alone: entering the loop puts both paddles of the game's
    size clear of the margins; a frame that starts with both paddles
    clear ends with both clear, whatever keys arrive, whatever time has
    elapsed and whether or not a point is scored; and so does a whole
    run. *)
Theorem Run_keeps_paddles_in_terrain {X : Type} `{Externals X} :
  More.handlers_keep_place ->
  (forall w w' : Game.World X,
     More.game_size_paddles w ->
     Game.OnBeginRun w = Some (tt, w') -> More.paddles_in_terrain w')
  /\ (forall w w' : Game.World X,
        More.paddles_in_terrain w ->
        Game.Run_body w = Some (tt, w') -> More.paddles_in_terrain w')
  /\ (forall (fuel : nat) (w w' : Game.World X),
        More.game_size_paddles w ->
        Game.sInitialized w && negb (Game.sRunning w) = true ->
        Game.Run fuel w = Some (tt, w') -> More.paddles_in_terrain w').
Proof.
  intros Hhandlers. split; [exact OnBeginRun_in_terrain |].
  split; [intros w w' Hw Hrun; exact (Run_body_terrain_kept Hhandlers w tt w' Hrun Hw) |].
  intros fuel w w' Hsizes Hguard Hrun.
  unfold Game.Run, bind at 1, gets in Hrun. rewrite Hguard in Hrun.
  unfold bind at 1, modify at 1 in Hrun. cbv beta iota in Hrun.
  apply bind_Some in Hrun as ([] & w2 & Hbegin & Hrun).
  apply bind_Some in Hrun as ([] & w3 & Hloop & Hrun).
  unfold Game.OnFinishRun, Game.extern_, bind, Game.note, modify in Hrun.
  injection Hrun as <-.
  apply OnBeginRun_in_terrain in Hbegin; [| exact Hsizes].
  exact (Run_loop_terrain_kept fuel Hhandlers _ tt _ Hloop Hbegin).
Qed.

Lemma Run_keeps_paddles_in_terrain_witness :
  exists w',
    Game.Run 5%nat (Game.set_sInitialized true (SpecModel.start_world SpecModel.short_run))
    = Some (tt, w')
    /\ More.paddles_in_terrain w'.
Proof.
  destruct (Game.Run 5%nat (Game.set_sInitialized true (SpecModel.start_world SpecModel.short_run)))
    as [[[] w'] |] eqn:Hrun; [| vm_compute in Hrun; discriminate].
  exists w'. split; [reflexivity |].
  refine (proj2 (proj2 (Run_keeps_paddles_in_terrain _)) 5%nat
            (Game.set_sInitialized true (SpecModel.start_world SpecModel.short_run))
            w' _ eq_refl Hrun).
  - repeat split.
  - split; reflexivity.
Defined.

(** ** The frames of a run *)

Section RunFacts.
Import Game.
Context {X : Type} `{Externals X}.
Local Abbreviation World := (Game.World X).

Lemma filter_quiet_run (events : list Event) :
  forallb quiet_event events = true -> List.filter More.is_run_step events = [].
Proof.
  induction events as [| e rest IH]; [reflexivity |].
  simpl. intros Hall. apply andb_true_iff in Hall as [He Hrest].
  rewrite (IH Hrest). destruct e; try reflexivity; discriminate.
Qed.

(** The trace of a frame and what it leaves alone. *)
Lemma Run_body_trace (w w' : World) :
  Run_body w = Some (tt, w') ->
  exists new,
    trace w' = trace w ++ new
    /\ List.filter More.is_run_step new = [EvPollEvents (sRunning w'); EvOnUpdate; EvOnRender]
    /\ sInitialized w' = sInitialized w
    /\ length (sPlayerScores w') = length (sPlayerScores w).
Proof.
  unfold Run_body. intros Hrun.
  apply bind_Some in Hrun as (continue & w2 & Hpoll & Hrun).
  apply bind_Some in Hrun as ([] & w3 & Hstore & Hrun).
  apply bind_Some in Hrun as (cDelta & w4 & Htime & Hrun).
  apply bind_Some in Hrun as ([] & w5 & Hupdate & Hrender).
  unfold PollEvents, extern in Hpoll. unfold bind at 1 in Hpoll.
  destruct (Window_PollEvents (externals w)) as [[keys answer] x1]. simpl in Hpoll.
  apply bind_Some in Hpoll as ([] & w1 & Hnote & Hpoll).
  apply bind_Some in Hpoll as ([] & w1' & Hkeys & Hpoll).
  injection Hpoll as -> ->.
  unfold note, modify in Hnote. injection Hnote as <-.
  unfold modify in Hstore. injection Hstore as <-.
  destruct (deliver_inside_frame keys _ _ _ Hkeys) as ((n2 & Ht2 & Hq2) & Hi2 & _ & Hl2).
  destruct (GetTimeDelta_inside_frame _ _ _ Htime) as ((n4 & Ht4 & Hq4) & Hi4 & Hr4 & Hl4).
  destruct (OnUpdate_body_inside_frame _ _ _ Hupdate) as ((n5 & Ht5 & Hq5) & Hi5 & Hr5 & Hl5).
  unfold OnRender, extern_, bind, note, modify, gets in Hrender. injection Hrender as <-.
  unfold keeps in *. simpl in *.
  exists (EvPollEvents continue :: n2 ++ n4 ++ EvOnUpdate :: n5 ++ [EvOnRender]).
  split; [rewrite Ht5, Ht4, Ht2; repeat (rewrite <- app_assoc; simpl); reflexivity |].
  split; [| split; congruence].
  rewrite Hr5, Hr4. simpl. rewrite !List.filter_app. simpl. rewrite !List.filter_app. simpl.
  rewrite (filter_quiet_run n2 Hq2), (filter_quiet_run n4 Hq4), (filter_quiet_run n5 Hq5).
  reflexivity.
Qed.

Lemma bind_None {S A B : Type} (c : M S A) (k : A -> M S B) (s : S) :
  bind c k s = None ->
  c s = None \/ exists a s', c s = Some (a, s') /\ k a s' = None.
Proof.
  unfold bind. destruct (c s) as [[a s'] |]; [| left; reflexivity].
  intros Hk. right. exists a, s'. split; [reflexivity | exact Hk].
Qed.

Lemma frame_steps_cons (answer : bool) (answers : list bool) :
  More.frame_steps (answer :: answers)
  = [EvPollEvents answer; EvOnUpdate; EvOnRender] ++ More.frame_steps answers.
Proof. reflexivity. Qed.

(** The frames of the loop: every poll but the last answered true. *)
Lemma Run_loop_frames (fuel : nat) (w w' : World) :
  sRunning w = true ->
  Run_loop fuel w = Some (tt, w') ->
  exists n new,
    (n < fuel)%nat
    /\ trace w' = trace w ++ new
    /\ List.filter More.is_run_step new = More.frame_steps (repeat true n ++ [false])
    /\ sRunning w' = false
    /\ sInitialized w' = sInitialized w.
Proof.
  revert w. induction fuel as [| fuel IH]; intros w Hrunning Hrun.
  - simpl in Hrun. unfold bind, gets in Hrun. rewrite Hrunning in Hrun. discriminate.
  - rewrite Run_loop_iteration in Hrun by exact Hrunning.
    apply bind_Some in Hrun as ([] & w1 & Hbody & Hrest).
    destruct (Run_body_trace w w1 Hbody) as (new1 & Ht1 & Hsteps1 & Hi1 & _).
    destruct (sRunning w1) eqn:Hrunning1.
    + destruct (IH w1 Hrunning1 Hrest) as (n & new & Hn & Ht & Hsteps & Hstopped & Hi).
      exists (S n), (new1 ++ new). split; [lia |].
      split; [rewrite Ht, Ht1, <- app_assoc; reflexivity |].
      split; [| split; congruence].
      rewrite List.filter_app, Hsteps1, Hsteps. reflexivity.
    + rewrite (Run_loop_stopped fuel w1 Hrunning1) in Hrest. injection Hrest as <-.
      exists 0%nat, new1. split; [lia |]. split; [exact Ht1 |].
      split; [exact Hsteps1 |]. split; assumption.
Qed.

Lemma Run_body_defined (w : World) :
  length (sPlayerScores w) = 2%nat ->
  Side_to_unsigned Side.Left = 0 ->
  Side_to_unsigned Side.Right = 1 ->
  exists w', Run_body w = Some (tt, w').
Proof.
  intros Hlen Hleft Hright.
  destruct (Window_PollEvents (externals w)) as [[keys continue] x1] eqn:Hpoll.
  destruct (Run_body_returns w keys continue x1 Hpoll Hlen Hleft Hright) as (w' & _ & Hrun & _).
  exists w'. exact Hrun.
Qed.

(** The loop has a result unless [fuel] frames went by with the window
    still open. *)
Lemma Run_loop_progress (fuel : nat) (w : World) :
  length (sPlayerScores w) = 2%nat ->
  Side_to_unsigned Side.Left = 0 ->
  Side_to_unsigned Side.Right = 1 ->
  Run_loop fuel w = None ->
  exists w1, More.frames fuel w = Some (tt, w1) /\ sRunning w1 = true.
Proof.
  intros Hlen Hleft Hright. revert w Hlen.
  induction fuel as [| fuel IH]; intros w Hlen Hnone.
  - exists w. split; [reflexivity |].
    simpl in Hnone. unfold bind, gets in Hnone. destruct (sRunning w); [reflexivity | discriminate].
  - destruct (sRunning w) eqn:Hrunning;
      [| rewrite Run_loop_stopped in Hnone by exact Hrunning; discriminate].
    rewrite Run_loop_iteration in Hnone by exact Hrunning.
    destruct (Run_body_defined w Hlen Hleft Hright) as [w1 Hbody].
    unfold bind in Hnone. rewrite Hbody in Hnone.
    destruct (Run_body_trace w w1 Hbody) as (_ & _ & _ & _ & Hlen1).
    destruct (IH w1 ltac:(congruence) Hnone) as (w2 & Hframes & Hrunning2).
    exists w2. split; [| exact Hrunning2].
    cbn [More.frames]. unfold bind. rewrite Hbody. exact Hframes.
Qed.

Lemma Run_accepted (fuel : nat) (w : World) :
  sInitialized w && negb (sRunning w) = true ->
  Run fuel w = (OnBeginRun ;; Run_loop fuel ;; OnFinishRun) (set_sRunning true w).
Proof.
  intros Hguard. unfold Run, bind at 1, gets. rewrite Hguard. reflexivity.
Qed.

Lemma OnFinishRun_returns (w : World) : exists w', OnFinishRun w = Some (tt, w').
Proof. unfold OnFinishRun, extern_, bind, note, modify. eexists. reflexivity. Qed.

Lemma OnFinishRun_effect (w w' : World) :
  OnFinishRun w = Some (tt, w') ->
  trace w' = trace w ++ [EvOnFinishRun]
  /\ sRunning w' = sRunning w
  /\ sInitialized w' = sInitialized w.
Proof.
  unfold OnFinishRun, extern_, bind, note, modify.
  intros [= <-]. repeat split.
Qed.

End RunFacts.

(** X8. The shape of a run. A run that is accepted and returns recorded,
    among the steps of the loop: the entry into the loop, then one or
    more frames, each one a poll, an update and a render in this order,
    where every poll but the last answered true and the last answered
    false, then the exit; there are at most [fuel] frames, and the game
    is left initialized and not running. With a score table of two
    entries and the sides numbered 0 and 1, a run has no result only when
    [fuel] frames went by and the window was still open. *)
Theorem Run_frames {X : Type} `{Externals X} (fuel : nat) (w : Game.World X) :
  Game.sInitialized w && negb (Game.sRunning w) = true ->
  (forall w',
     Game.Run fuel w = Some (tt, w') ->
     exists n new,
       (n < fuel)%nat
       /\ Game.trace w' = Game.trace w ++ new
       /\ List.filter More.is_run_step new
          = [EvOnBeginRun] ++ More.frame_steps (repeat true n ++ [false]) ++ [EvOnFinishRun]
       /\ Game.sRunning w' = false
       /\ Game.sInitialized w' = true)
  /\ (length (Game.sPlayerScores w) = 2%nat ->
      Side_to_unsigned Side.Left = 0 ->
      Side_to_unsigned Side.Right = 1 ->
      Game.Run fuel w = None ->
      exists w1,
        (Game.OnBeginRun ;; More.frames fuel) (Game.set_sRunning true w) = Some (tt, w1)
        /\ Game.sRunning w1 = true).
Proof.
  intros Hguard. rewrite Run_accepted by exact Hguard.
  destruct (OnBeginRun_places (Game.set_sRunning true w))
    as (w1 & Hbegin & _ & _ & _ & _ & Hscores & Hrunning & Hinit1 & Htrace1).
  change (Game.sPlayerScores w1 = Game.sPlayerScores w) in Hscores.
  change (Game.sRunning w1 = true) in Hrunning.
  change (Game.sInitialized w1 = Game.sInitialized w) in Hinit1.
  change (Game.trace w1 = Game.trace w ++ [EvOnBeginRun; EvResetGameState]) in Htrace1.
  apply andb_true_iff in Hguard as [Hinit _].
  split.
  - intros w' Hrun.
    apply bind_Some in Hrun as ([] & w1' & Hbegin' & Hrun).
    rewrite Hbegin in Hbegin'. injection Hbegin' as <-.
    apply bind_Some in Hrun as ([] & w2 & Hloop & Hfinish).
    apply OnFinishRun_effect in Hfinish as (Ht3 & Hr3 & Hi3).
    destruct (Run_loop_frames fuel w1 w2 Hrunning Hloop)
      as (n & new & Hn & Ht & Hsteps & Hstopped & Hi).
    exists n, ([EvOnBeginRun; EvResetGameState] ++ new ++ [EvOnFinishRun]).
    split; [exact Hn |].
    split; [rewrite Ht3, Ht, Htrace1, <- !app_assoc; reflexivity |].
    split; [| split; congruence].
    rewrite List.filter_app, List.filter_app, Hsteps. reflexivity.
  - intros Hlen Hleft Hright Hnone.
    apply bind_None in Hnone as [Hnone | ([] & w2 & Hbegin2 & Hnone)];
      [rewrite Hbegin in Hnone; discriminate Hnone |].
    rewrite Hbegin in Hbegin2. injection Hbegin2 as <-.
    apply bind_None in Hnone as [Hnone | ([] & w3 & _ & Hnone)].
    + destruct (Run_loop_progress fuel w1) as (w4 & Hframes & Hrunning4);
        [congruence | assumption | assumption | exact Hnone |].
      exists w4. split; [| exact Hrunning4].
      unfold bind at 1. rewrite Hbegin. exact Hframes.
    + destruct (OnFinishRun_returns w3) as [w4 Hfinish]. congruence.
Qed.

Lemma Run_frames_witness :
  exists w',
    Game.Run 5%nat (Game.set_sInitialized true (SpecModel.start_world SpecModel.short_run))
    = Some (tt, w')
    /\ exists n new,
         (n < 5)%nat
         /\ Game.trace w' = [] ++ new
         /\ List.filter More.is_run_step new
            = [EvOnBeginRun] ++ More.frame_steps (repeat true n ++ [false]) ++ [EvOnFinishRun]
         /\ Game.sRunning w' = false
         /\ Game.sInitialized w' = true.
Proof.
  destruct (Game.Run 5%nat (Game.set_sInitialized true (SpecModel.start_world SpecModel.short_run)))
    as [[[] w'] |] eqn:Hrun; [| vm_compute in Hrun; discriminate].
  exists w'. split; [reflexivity |].
  exact (proj1 (Run_frames 5%nat
                  (Game.set_sInitialized true (SpecModel.start_world SpecModel.short_run))
                  eq_refl) w' Hrun).
Defined.

(** ** The lifetime tables, call by call *)

Section TableFacts.
Import Game.
Context {X : Type} `{Externals X}.
Local Abbreviation World := (Game.World X).
Implicit Types (item : Lifecycle.Lifetime World) (items : list (Lifecycle.Lifetime World)).

Lemma same_game_refl (w : World) : More.same_game w w.
Proof. destruct w. reflexivity. Qed.

Lemma same_game_trans (w1 w2 w3 : World) :
  More.same_game w1 w2 -> More.same_game w2 w3 -> More.same_game w1 w3.
Proof.
  unfold More.same_game. intros H12 H23. rewrite H23 at 1. rewrite H12 at 1. reflexivity.
Qed.

Lemma init_events_app (l1 l2 : list Leaf) :
  More.init_events (l1 ++ l2) = More.init_events l1 ++ More.init_events l2.
Proof. unfold More.init_events. apply fmap_app. Qed.

Lemma cleanup_events_app (l1 l2 : list Leaf) :
  More.cleanup_events (l1 ++ l2) = More.cleanup_events l2 ++ More.cleanup_events l1.
Proof. unfold More.cleanup_events. rewrite reverse_app. apply fmap_app. Qed.

Lemma runs_exactly_leaf (leaf : Leaf) : More.runs_exactly (leaf_lifetime leaf) [leaf].
Proof.
  split.
  - intros w. simpl. unfold LeafInit, bind, extern, note, modify, ret.
    destruct (Leaf_Init leaf (externals w)) as [ok x].
    exists ok. eexists. exists [EvLeafInit leaf ok]. split; [reflexivity |].
    split; [reflexivity |]. split; [reflexivity |].
    destruct ok; [reflexivity |]. exists 0%nat, leaf. split; reflexivity.
  - intros w. simpl. unfold LeafCleanup, extern_, bind, note, modify.
    eexists. split; [reflexivity |]. split; reflexivity.
Qed.

(** Cleaning up a list of items records the cleanups of their leaves, the
    last leaf of the last item first. *)
Lemma cleanups_reversed_exactly items (groups : list (list Leaf)) (w : World) :
  Forall2 More.runs_exactly items groups ->
  exists w',
    Lifecycle.cleanups_reversed items w = Some w'
    /\ More.same_game w w'
    /\ trace w' = trace w ++ More.cleanup_events (concat groups).
Proof.
  intros Hruns. revert w.
  induction Hruns as [| item leaves items groups Hitem _ IH]; intros w.
  - exists w. split; [reflexivity |]. split; [apply same_game_refl |].
    rewrite app_nil_r. reflexivity.
  - destruct (IH w) as (w1 & Hrest & Hsame1 & Htrace1).
    destruct (proj2 Hitem w1) as (w2 & Hlast & Hsame2 & Htrace2).
    exists w2. simpl. rewrite Hrest, Hlast.
    split; [reflexivity |]. split; [eapply same_game_trans; eassumption |].
    rewrite Htrace2, Htrace1, cleanup_events_app, app_assoc. reflexivity.
Qed.

Lemma rollback_events_later (first rest : list Leaf) (k : nat) (failed : Leaf) :
  More.init_events first ++ More.rollback_events rest k failed ++ More.cleanup_events first
  = More.rollback_events (first ++ rest) (length first + k) failed.
Proof.
  unfold More.rollback_events.
  rewrite take_app_add, init_events_app, cleanup_events_app, <- !app_assoc.
  reflexivity.
Qed.

(** The contract of the manager, read on the trace. *)
Lemma try_init_contract_exactly (started todo : list (Lifecycle.Lifetime World))
    (before after : list (list Leaf)) (w : World) :
  Forall2 More.runs_exactly started before ->
  Forall2 More.runs_exactly todo after ->
  exists ok w' calls new,
    Lifecycle.try_init_contract started todo w = Some (ok, w', calls)
    /\ More.same_game w w'
    /\ trace w' = trace w ++ new
    /\ if ok then new = More.init_events (concat after)
       else exists k failed,
              concat after !! k = Some failed
              /\ new = More.rollback_events (concat after) k failed
                       ++ More.cleanup_events (concat before).
Proof.
  intros Hstarted Htodo. revert started before Hstarted w.
  induction Htodo as [| item leaves todo after Hitem Htodo IH];
    intros started before Hstarted w.
  - exists true, w, [], []. split; [reflexivity |]. split; [apply same_game_refl |].
    rewrite app_nil_r. split; reflexivity.
  - destruct (proj1 Hitem w) as (ok1 & w1 & new1 & Hinit & Hsame1 & Htrace1 & Hout1).
    cbn [Lifecycle.try_init_contract]. rewrite Hinit. destruct ok1.
    + (* the item starts; the rest follows *)
      destruct (IH (started ++ [item]) (before ++ [leaves])
                  ltac:(apply Forall2_app; [exact Hstarted | constructor; [exact Hitem | constructor]])
                  w1)
        as (ok & w2 & calls & new2 & Hrest & Hsame2 & Htrace2 & Hout2).
      rewrite Hrest. exists ok, w2. eexists. exists (new1 ++ new2).
      split; [reflexivity |]. split; [eapply same_game_trans; eassumption |].
      split; [rewrite Htrace2, Htrace1, app_assoc; reflexivity |].
      simpl in Hout1. subst new1. simpl. destruct ok.
      * subst new2. rewrite init_events_app. reflexivity.
      * destruct Hout2 as (k & failed & Hfailed & ->).
        exists (length leaves + k)%nat, failed.
        split; [rewrite lookup_app_r by lia; rewrite <- Hfailed; f_equal; lia |].
        rewrite <- rollback_events_later, concat_app, cleanup_events_app. simpl.
        rewrite app_nil_r, <- !app_assoc. reflexivity.
    + (* the item fails; what was started is cleaned up *)
      destruct (cleanups_reversed_exactly started before w1 Hstarted)
        as (w2 & Hclean & Hsame2 & Htrace2).
      rewrite Hclean. exists false, w2. eexists. eexists.
      split; [reflexivity |]. split; [eapply same_game_trans; eassumption |].
      split; [rewrite Htrace2, Htrace1, <- app_assoc; reflexivity |].
      simpl in Hout1. destruct Hout1 as (k & failed & Hfailed & ->).
      exists k, failed. simpl.
      assert (k < length leaves)%nat as Hk by (eapply lookup_lt_Some; exact Hfailed).
      split; [rewrite lookup_app_l by exact Hk; exact Hfailed |].
      unfold More.rollback_events. rewrite take_app_le by lia. reflexivity.
Qed.

(** Each level uses the same contract: a list of items that run exactly
    their groups of leaves is, through [TryInitItems] and [CleanupItems],
    an item that runs exactly all of them. *)
Lemma runs_exactly_list items (groups : list (list Leaf)) :
  Forall2 More.runs_exactly items groups ->
  (length items <= 16)%nat ->
  More.runs_exactly
    (Lifecycle.MkLifetime (managed (Lifecycle.TryInitItems items))
                          (managed (Lifecycle.CleanupItems items)))
    (concat groups).
Proof.
  intros Hruns Hsmall. split; simpl.
  - intros w.
    destruct (try_init_contract_exactly [] items [] groups w ltac:(constructor) Hruns)
      as (ok & w' & calls & new & Hcontract & Hsame & Htrace & Hout).
    exists ok, w', new. unfold managed.
    rewrite TryInitItems_contract by (apply small_table, Hsmall).
    rewrite Hcontract. split; [reflexivity |]. split; [exact Hsame |].
    split; [exact Htrace |]. unfold More.init_outcome. destruct ok; [exact Hout |].
    destruct Hout as (k & failed & Hfailed & ->). exists k, failed.
    split; [exact Hfailed |]. simpl. rewrite app_nil_r. reflexivity.
  - intros w.
    destruct (cleanups_reversed_exactly items groups w Hruns) as (w' & Hclean & Hsame & Htrace).
    exists w'. unfold managed.
    rewrite CleanupItems_contract by (apply small_table, Hsmall).
    rewrite Hclean. split; [reflexivity |]. split; assumption.
Qed.

Ltac exact_table :=
  repeat first [ apply runs_exactly_leaf | assumption | constructor ].

Lemma runs_exactly_systems :
  More.runs_exactly (Lifecycle.MkLifetime InitGameSystems CleanupGameSystems)
    [LogSystem; WindowSystem; GraphicsSystem; GLSystem; TimeSystem].
Proof.
  unfold InitGameSystems, CleanupGameSystems.
  apply (runs_exactly_list skSystemLifetimes
           [[LogSystem]; [WindowSystem]; [GraphicsSystem]; [GLSystem]; [TimeSystem]]).
  - unfold skSystemLifetimes. exact_table.
  - simpl. lia.
Qed.

Lemma runs_exactly_resources :
  More.runs_exactly (Lifecycle.MkLifetime InitGraphicsResources CleanupGraphicsResources)
    [PaddleProgram; BallProgram; Quad; TexturedQuad].
Proof.
  unfold InitGraphicsResources, CleanupGraphicsResources.
  apply (runs_exactly_list skGraphicsResourceLifetimes
           [[PaddleProgram]; [BallProgram]; [Quad]; [TexturedQuad]]).
  - unfold skGraphicsResourceLifetimes. exact_table.
  - simpl. lia.
Qed.

Lemma runs_exactly_state :
  More.runs_exactly (Lifecycle.MkLifetime InitState CleanupState)
    [GameWindow; Context; PaddleProgram; BallProgram; Quad; TexturedQuad].
Proof.
  unfold InitState, CleanupState.
  apply (runs_exactly_list kStateLifetimes
           [[GameWindow]; [Context]; [PaddleProgram; BallProgram; Quad; TexturedQuad]]).
  - unfold kStateLifetimes. pose proof runs_exactly_resources. exact_table.
  - simpl. lia.
Qed.

Lemma runs_exactly_game :
  More.runs_exactly
    (Lifecycle.MkLifetime (managed (Lifecycle.TryInitItems kGameLifetimes))
                          (managed (Lifecycle.CleanupItems kGameLifetimes)))
    More.table_order.
Proof.
  apply (runs_exactly_list kGameLifetimes
           [[LogSystem; WindowSystem; GraphicsSystem; GLSystem; TimeSystem];
            [GameWindow; Context; PaddleProgram; BallProgram; Quad; TexturedQuad]]).
  - unfold kGameLifetimes. pose proof runs_exactly_systems. pose proof runs_exactly_state.
    exact_table.
  - simpl. lia.
Qed.


Lemma runs_exactly_cleanup (init : Prog X bool) (cleanup : Prog X unit) (leaves : list Leaf) :
  More.runs_exactly (Lifecycle.MkLifetime init cleanup) leaves ->
  forall w, exists w',
    cleanup w = Some (tt, w')
    /\ More.same_game w w'
    /\ trace w' = trace w ++ More.cleanup_events leaves.
Proof. intros [_ Hclean]. exact Hclean. Qed.

Lemma same_game_sInitialized (b : bool) (w w' : World) :
  More.same_game w w' ->
  More.same_game (set_sInitialized b w) (set_sInitialized b w').
Proof.
  unfold More.same_game. intros Hsame. rewrite Hsame at 1. reflexivity.
Qed.

Lemma Cleanup_accepted (w : World) :
  sInitialized w && negb (sRunning w) = true ->
  Cleanup w
  = (managed (Lifecycle.CleanupItems kGameLifetimes) ;; modify (set_sInitialized false)) w.
Proof.
  intros Hguard. unfold Cleanup, bind at 1, gets. rewrite Hguard. reflexivity.
Qed.

End TableFacts.



(** X10. [Cleanup] tears everything down. On a game that is initialized
    and not running it always returns, has recorded the cleanups of the
    eleven leaves in the reverse of the order of their inits and nothing
    else, and leaves the game not initialized; nothing else of the game
    changes but the collaborators. *)
Theorem Cleanup_tears_down {X : Type} `{Externals X} (w : Game.World X) :
  Game.sInitialized w && negb (Game.sRunning w) = true ->
  exists w',
    Game.Cleanup w = Some (tt, w')
    /\ Game.sInitialized w' = false
    /\ Game.trace w' = Game.trace w ++ More.cleanup_events More.table_order
    /\ More.same_game (Game.set_sInitialized false w) w'.
Proof.
  intros Hguard.
  destruct (runs_exactly_cleanup _ _ _ runs_exactly_game w)
    as (w1 & Hclean & Hsame & Htrace).
  exists (Game.set_sInitialized false w1).
  rewrite Cleanup_accepted by exact Hguard.
  unfold bind at 1. rewrite Hclean.
  split; [reflexivity |]. split; [reflexivity |]. split; [exact Htrace |].
  apply same_game_sInitialized, Hsame.
Qed.

Lemma Cleanup_tears_down_witness :
  exists w',
    Game.Cleanup (Game.set_sInitialized true (SpecModel.start_world SpecModel.short_run))
    = Some (tt, w')
    /\ Game.sInitialized w' = false
    /\ Game.trace w' = EvLeafCleanup <$> Trace.all_leaves.
Proof.
  destruct (Cleanup_tears_down
              (Game.set_sInitialized true (SpecModel.start_world SpecModel.short_run)) eq_refl)
    as (w' & Hrun & Hinit & Htrace & _).
  exists w'. split; [exact Hrun |]. split; [exact Hinit |]. exact Htrace.
Defined.

(** ** The OpenGL library *)

Section GraphicsLibraryFacts.
Import GraphicsLibrary.
Context {O : Type} `{System O}.
Local Abbreviation State := (GraphicsLibrary.State (O := O)).

Lemma library_replay_app (r1 r2 : list Event) (held : Z) :
  replay (r1 ++ r2) held =
  match replay r1 held with
  | Some held' => replay r2 held'
  | None => None
  end.
Proof.
  revert held. induction r1 as [| e rest IH]; intros held; simpl.
  - reflexivity.
  - destruct (step held e); [apply IH | reflexivity].
Qed.

Lemma Init_consistent_library (st : State) :
  consistent st ->
  exists ok st', Init st = Some (ok, st') /\ consistent st'
    /\ ok = (sOpenGLLibrary st =? 0) && negb (sOpenGLLibrary st' =? 0).
Proof.
  unfold consistent. intros Hheld.
  unfold Init, bind, gets, os, note, set_sOpenGLLibrary, modify, ret.
  destruct (sOpenGLLibrary st =? 0) eqn:Hnone; simpl.
  - destruct (LoadLibraryA _ (system st)) as [handle o]. simpl.
    eexists. eexists. split; [reflexivity |]. simpl.
    rewrite library_replay_app, Hheld. simpl. rewrite Hnone.
    split; reflexivity.
  - exists false, st. split; [reflexivity |]. split; [exact Hheld | reflexivity].
Qed.

Lemma Cleanup_consistent_library (st : State) :
  consistent st ->
  exists st', Cleanup st = Some (tt, st') /\ consistent st' /\ sOpenGLLibrary st' = 0.
Proof.
  unfold consistent. intros Hheld.
  unfold Cleanup, bind, gets, os_, note, set_sOpenGLLibrary, modify, ret.
  destruct (sOpenGLLibrary st =? 0) eqn:Hnone; simpl.
  - exists st. split; [reflexivity |]. split; [exact Hheld |].
    apply Z.eqb_eq, Hnone.
  - eexists. split; [reflexivity |]. simpl.
    rewrite library_replay_app, Hheld. simpl. rewrite Hnone, Z.eqb_refl.
    split; reflexivity.
Qed.

Lemma LoadOpenGLFunction_consistent (name : option string) (st : State) :
  consistent st ->
  exists address st',
    LoadOpenGLFunction name st = Some (address, st')
    /\ consistent st'
    /\ sOpenGLLibrary st' = sOpenGLLibrary st.
Proof.
  unfold consistent. intros Hheld.
  unfold LoadOpenGLFunction, bind, gets, os, note, modify, ret.
  destruct name as [text |]; [| exists 0, st; repeat split; assumption].
  destruct (sOpenGLLibrary st =? 0) eqn:Hnone; simpl;
    [exists 0, st; repeat split; assumption |].
  destruct (wglGetProcAddress text (system st)) as [kFunction o1]. simpl.
  destruct (kFunction =? 0); simpl.
  - destruct (GetProcAddress (sOpenGLLibrary st) text o1) as [address o2]. simpl.
    eexists. eexists. split; [reflexivity |]. simpl.
    rewrite <- app_assoc, library_replay_app, Hheld. simpl.
    rewrite Hnone. simpl. rewrite Hnone, Z.eqb_refl. split; reflexivity.
  - eexists. eexists. split; [reflexivity |]. simpl.
    rewrite library_replay_app, Hheld. simpl. rewrite Hnone. split; reflexivity.
Qed.

End GraphicsLibraryFacts.

(** X11. The module handle of the OpenGL library. [Init] on a library
    already held returns false without a system call; [Cleanup] and
    [LoadOpenGLFunction] without a library held, and [LoadOpenGLFunction]
    without a name, return (null, for the latter) without a system call.
    As a consequence, whatever sequence of the three procedures a client
    calls, starting with no library held, every call returns, and along
    the whole record of system calls the library is loaded only when
    none is held, freed only when it is the one held, at most once per
    load, and a procedure is looked up only while it is held. *)
Theorem library_protocol {O : Type} `{GraphicsLibrary.System O} :
  (forall st : GraphicsLibrary.State,
     GraphicsLibrary.sOpenGLLibrary st <> 0 ->
     GraphicsLibrary.Init st = Some (false, st))
  /\ (forall st : GraphicsLibrary.State,
        GraphicsLibrary.sOpenGLLibrary st = 0 ->
        GraphicsLibrary.Cleanup st = Some (tt, st))
  /\ (forall (name : option string) (st : GraphicsLibrary.State),
        GraphicsLibrary.sOpenGLLibrary st = 0 \/ name = None ->
        GraphicsLibrary.LoadOpenGLFunction name st = Some (0, st))
  /\ (forall (cs : list GraphicsLibrary.Call) (st : GraphicsLibrary.State),
        GraphicsLibrary.consistent st ->
        exists st',
          GraphicsLibrary.calls cs st = Some (tt, st')
          /\ GraphicsLibrary.consistent st').
Proof.
  split; [| split; [| split]].
  - intros st Hheld. apply Z.eqb_neq in Hheld.
    unfold GraphicsLibrary.Init, bind, gets. rewrite Hheld. reflexivity.
  - intros st Hnone. apply Z.eqb_eq in Hnone.
    unfold GraphicsLibrary.Cleanup, bind, gets. rewrite Hnone. reflexivity.
  - intros name st Hcase. unfold GraphicsLibrary.LoadOpenGLFunction, bind, gets.
    destruct name as [text |]; [| reflexivity].
    destruct Hcase as [Hnone | Hname]; [| discriminate].
    apply Z.eqb_eq in Hnone. rewrite Hnone. reflexivity.
  - intros cs. induction cs as [| c rest IH]; intros st Hst.
    + exists st. split; [reflexivity | exact Hst].
    + assert (exists st1, GraphicsLibrary.call c st = Some (tt, st1)
                          /\ GraphicsLibrary.consistent st1) as (st1 & Hcall & Hst1).
      { destruct c as [| | name]; simpl; unfold bind.
        - destruct (Init_consistent_library st Hst) as (ok & st1 & -> & Hst1 & _).
          exists st1. split; [reflexivity | exact Hst1].
        - destruct (Cleanup_consistent_library st Hst) as (st1 & -> & Hst1 & _).
          exists st1. split; [reflexivity | exact Hst1].
        - destruct (LoadOpenGLFunction_consistent name st Hst)
            as (address & st1 & -> & Hst1 & _).
          exists st1. split; [reflexivity | exact Hst1]. }
      destruct (IH st1 Hst1) as (st' & Hrest & Hst').
      exists st'. cbn [GraphicsLibrary.calls]. unfold bind. rewrite Hcall.
      split; [exact Hrest | exact Hst'].
Qed.

Lemma library_protocol_witness :
  exists st',
    GraphicsLibrary.calls
      [GraphicsLibrary.CallLoadOpenGLFunction (Some "glCreateShader"%string);
       GraphicsLibrary.CallInit; GraphicsLibrary.CallInit;
       GraphicsLibrary.CallLoadOpenGLFunction (Some "glCreateShader"%string);
       GraphicsLibrary.CallLoadOpenGLFunction (Some "glClear"%string);
       GraphicsLibrary.CallCleanup; GraphicsLibrary.CallCleanup]
      (GraphicsLibrary.MkState
         (GraphicsLibrary.MkToy 4096 false
            [("glCreateShader"%string, 100)] [("glClear"%string, 200)])
         0 [])
    = Some (tt, st')
    /\ GraphicsLibrary.consistent st'.
Proof.
  apply (proj2 (proj2 (proj2 library_protocol))). reflexivity.
Defined.

(** ** The paddle program *)

Section ProgramsFacts.
Import Programs.
Context {G : Type} `{Graphics.Driver G} `{UniformDriver G}.
Local Abbreviation State := (Programs.State (G := G)).

Ltac run_graphics :=
  unfold Graphics.CreateShaderFromSource, Graphics.CreateProgramFromShaders,
    Graphics.ShaderCompileFailed, Graphics.ProgramLinkFailed, Graphics.LogShaderInfo,
    Graphics.LogProgramInfo, Graphics.LogItemInfo, Graphics.GetItemiv, Graphics.Log_Log,
    Graphics.gl_CreateShader, Graphics.gl_ShaderSource, Graphics.gl_CompileShader,
    Graphics.gl_GetShaderiv, Graphics.gl_GetShaderInfoLog, Graphics.gl_DeleteShader,
    Graphics.gl_CreateProgram, Graphics.gl_AttachShader, Graphics.gl_LinkProgram,
    Graphics.gl_GetProgramiv, Graphics.gl_GetProgramInfoLog, Graphics.gl_DeleteProgram,
    Graphics.gl_, Graphics.gl, Graphics.note, bind, modify, ret, undefined.

Lemma names_replay_app (r1 r2 : list Event) (alive : list Z * list Z) :
  replay (r1 ++ r2) alive =
  match replay r1 alive with
  | Some alive' => replay r2 alive'
  | None => None
  end.
Proof.
  revert alive. induction r1 as [| e rest IH]; intros alive; simpl.
  - reflexivity.
  - destruct (step alive e); [apply IH | reflexivity].
Qed.

Lemma drop_added (name : Z) (names : list Z) :
  drop_name name (add_name name names) = Some names.
Proof.
  unfold drop_name, add_name. destruct (name =? 0) eqn:Hzero; [reflexivity |].
  simpl. rewrite Z.eqb_refl. reflexivity.
Qed.

Lemma drop_added_below (name other : Z) (names : list Z) :
  drop_name name (add_name other (add_name name names)) = Some (add_name other names).
Proof.
  unfold drop_name, add_name.
  destruct (name =? 0) eqn:Hname; [reflexivity |].
  destruct (other =? 0) eqn:Hother; simpl.
  - rewrite Z.eqb_refl. reflexivity.
  - destruct (Z.eqb_spec other name) as [-> | _]; [reflexivity |].
    rewrite Z.eqb_refl. reflexivity.
Qed.

(** What [CreateShaderFromSource] records, read on the names alive. *)
Lemma CreateShaderFromSource_names (type : Z) (source : option string)
    (g : G) (shader : Z) (after : Graphics.State) :
  Graphics.CreateShaderFromSource type source (Graphics.MkState g []) = Some (shader, after) ->
  List.filter is_uniform_call (EvGraphics <$> Graphics.events after) = []
  /\ forall shaders programs,
       replay (EvGraphics <$> Graphics.events after) (shaders, programs)
       = Some (add_name shader shaders, programs).
Proof.
  destruct source as [text |]; [| intros [= <- <-]; split; reflexivity].
  unfold Graphics.CreateShaderFromSource.
  destruct (negb _); [intros [= <- <-]; split; reflexivity |].
  run_graphics. simpl.
  destruct (Graphics.glCreateShader type g) as [name g1]. simpl.
  destruct (Graphics.glGetShaderiv name Graphics.gl_CompileStatus _) as [status g2]. simpl.
  destruct (status =? 0); simpl; [| intros [= <- <-]; split; reflexivity].
  destruct (Graphics.glGetShaderiv name Graphics.gl_InfoLogLength g2) as [len g3]. simpl.
  destruct (len <=? 0); [discriminate |]. simpl.
  destruct (Graphics.glGetShaderInfoLog name len g3) as [log g4]. simpl.
  intros [= <- <-]. split; [reflexivity |].
  intros shaders programs. simpl. rewrite drop_added. reflexivity.
Qed.

(** What [CreateProgramFromShaders] records, read on the names alive. *)
Lemma CreateProgramFromShaders_names (vert frag : Z) (g : G) (program : Z)
    (after : Graphics.State) :
  Graphics.CreateProgramFromShaders vert frag (Graphics.MkState g []) = Some (program, after) ->
  (vert = 0 \/ frag = 0 -> program = 0)
  /\ List.filter is_uniform_call (EvGraphics <$> Graphics.events after) = []
  /\ forall shaders programs,
       replay (EvGraphics <$> Graphics.events after) (shaders, programs)
       = Some (shaders, add_name program programs).
Proof.
  unfold Graphics.CreateProgramFromShaders.
  destruct (negb (negb (vert =? 0) && negb (frag =? 0))) eqn:Hinvalid;
    [intros [= <- <-]; repeat split |].
  assert (vert = 0 \/ frag = 0 -> False) as Hvalid.
  { apply negb_false_iff, andb_true_iff in Hinvalid as [Hvert Hfrag].
    apply negb_true_iff, Z.eqb_neq in Hvert, Hfrag. intros [? | ?]; contradiction. }
  run_graphics. simpl.
  destruct (Graphics.glCreateProgram g) as [name g1]. simpl.
  destruct (Graphics.glGetProgramiv name Graphics.gl_LinkStatus _) as [status g2]. simpl.
  destruct (status =? 0); simpl;
    [| intros [= <- <-]; split; [intros Hzero; destruct (Hvalid Hzero) | split; reflexivity]].
  destruct (Graphics.glGetProgramiv name Graphics.gl_InfoLogLength g2) as [len g3]. simpl.
  destruct (len <=? 0); [discriminate |]. simpl.
  destruct (Graphics.glGetProgramInfoLog name len g3) as [log g4]. simpl.
  intros [= <- <-]. split; [reflexivity |]. split; [reflexivity |].
  intros shaders programs. simpl. rewrite drop_added. reflexivity.
Qed.

Lemma graphics_Some {A : Type} (c : Graphics.Prog A) (st st' : State) (a : A) :
  graphics c st = Some (a, st') ->
  exists after,
    c (Graphics.MkState (driver st) []) = Some (a, after)
    /\ st' = MkState (Graphics.driver after) (sPaddleProgram st)
               (events st ++ (EvGraphics <$> Graphics.events after)).
Proof.
  unfold graphics. destruct (c _) as [[a' after] |]; [| discriminate].
  intros [= <- <-]. exists after. split; reflexivity.
Qed.

Lemma CreateShaderFromSource_makes_shader (type : Z) (source : option string) :
  makes_shader (graphics (Graphics.CreateShaderFromSource type source)).
Proof.
  intros st shader st' Hrun.
  apply graphics_Some in Hrun as (after & Hrun & ->).
  apply CreateShaderFromSource_names in Hrun as [Hquiet Hnames].
  split; [reflexivity |]. eexists. split; [reflexivity |]. split; assumption.
Qed.

(** The record of [LoadWinSizeUniform]. *)
Lemma LoadWinSizeUniform_record (program : Z) (st : State) :
  exists location st',
    LoadWinSizeUniform program st = Some (tt, st')
    /\ sPaddleProgram st' = sPaddleProgram st
    /\ events st' =
       events st ++ [EvUseProgram program;
                     EvGetUniformLocation program "uWinSize" location;
                     EvUniform2f location (F32.of_int 1280) (F32.of_int 720)].
Proof.
  unfold LoadWinSizeUniform, gl_UseProgram, gl_GetUniformLocation, gl_Uniform2f,
    bind, note, modify, ret. simpl.
  destruct (glGetUniformLocation program "uWinSize" _) as [location g1]. simpl.
  exists location. eexists. split; [reflexivity |]. split; [reflexivity |].
  simpl. rewrite <- !app_assoc. reflexivity.
Qed.

Lemma CreateProgramWithWinSizeUniform_record (vertex fragment : Z) (st st' : State)
    (program : Z) :
  CreateProgramWithWinSizeUniform vertex fragment st = Some (program, st') ->
  sPaddleProgram st' = sPaddleProgram st
  /\ (vertex = 0 \/ fragment = 0 -> program = 0)
  /\ exists new location,
       events st' = events st ++ new
       /\ List.filter is_uniform_call new = uniform_calls_of program location
       /\ forall shaders shaders1 shaders2 programs,
            drop_name vertex shaders = Some shaders1 ->
            drop_name fragment shaders1 = Some shaders2 ->
            replay new (shaders, programs) = Some (shaders2, add_name program programs).
Proof.
  unfold CreateProgramWithWinSizeUniform. intros Hrun.
  apply bind_Some in Hrun as (kProgram & st1 & Hcreate & Hrun).
  apply bind_Some in Hrun as ([] & st2 & Hdelete1 & Hrun).
  apply bind_Some in Hrun as ([] & st3 & Hdelete2 & Hrun).
  apply bind_Some in Hrun as ([] & st4 & Hload & Hrun).
  injection Hrun as -> ->.
  apply graphics_Some in Hcreate as (after1 & Hcreate & ->).
  apply CreateProgramFromShaders_names in Hcreate as (Hzero & Hquiet1 & Hnames1).
  apply graphics_Some in Hdelete1 as (after2 & Hdelete1 & ->).
  apply graphics_Some in Hdelete2 as (after3 & Hdelete2 & ->).
  unfold Graphics.gl_DeleteShader, Graphics.gl_, Graphics.note, bind, modify in Hdelete1,
    Hdelete2.
  injection Hdelete1 as <-. injection Hdelete2 as <-. simpl in Hload.
  assert (forall shaders shaders1 shaders2 programs,
            drop_name vertex shaders = Some shaders1 ->
            drop_name fragment shaders1 = Some shaders2 ->
            replay ((EvGraphics <$> Graphics.events after1)
                    ++ [EvGraphics (Graphics.EvDeleteShader vertex);
                        EvGraphics (Graphics.EvDeleteShader fragment)])
              (shaders, programs)
            = Some (shaders2, add_name program programs)) as Hnames.
  { intros shaders shaders1 shaders2 programs Hdrop1 Hdrop2.
    rewrite names_replay_app, Hnames1. simpl. rewrite Hdrop1. simpl. rewrite Hdrop2.
    reflexivity. }
  unfold when in Hload. destruct (program =? 0) eqn:Hnull; simpl in Hload.
  - injection Hload as <-. simpl.
    split; [reflexivity |]. split; [exact Hzero |].
    eexists. exists 0. split; [rewrite <- !app_assoc; reflexivity |].
    split; [| exact Hnames].
    unfold uniform_calls_of. rewrite Hnull, List.filter_app, Hquiet1. reflexivity.
  - match type of Hload with
    | LoadWinSizeUniform _ ?st0 = _ =>
        destruct (LoadWinSizeUniform_record program st0)
          as (location & st5 & Hload5 & Hprogram5 & Hevents5)
    end.
    rewrite Hload in Hload5. injection Hload5 as <-.
    split; [rewrite Hprogram5; reflexivity |]. split; [exact Hzero |].
    exists (((EvGraphics <$> Graphics.events after1)
             ++ [EvGraphics (Graphics.EvDeleteShader vertex);
                 EvGraphics (Graphics.EvDeleteShader fragment)])
            ++ [EvUseProgram program;
                EvGetUniformLocation program "uWinSize" location;
                EvUniform2f location (F32.of_int 1280) (F32.of_int 720)]), location.
    simpl in Hevents5.
    split; [rewrite Hevents5, <- !app_assoc; reflexivity |].
    split.
    + unfold uniform_calls_of. rewrite Hnull, !List.filter_app, Hquiet1. reflexivity.
    + intros shaders shaders1 shaders2 programs Hdrop1 Hdrop2.
      rewrite names_replay_app.
      rewrite (Hnames shaders shaders1 shaders2 programs Hdrop1 Hdrop2). reflexivity.
Qed.

End ProgramsFacts.



(** X13. The paddle program from start to end. Let the vertex shader come
    from a procedure that leaves alive the shader it returns and nothing
    else. Whenever [InitPaddleProgram] returns, in whichever order the two
    shaders were made and whether or not they compiled and the program
    linked: no shader is left alive, nothing was deleted that was not
    alive, [sPaddleProgram] is the only name left alive, the result is
    true exactly when it is not null, and the window size was loaded into
    it exactly then. [CleanupPaddleProgram] then returns and leaves alive
    exactly what was alive before [InitPaddleProgram]. *)
Theorem InitPaddleProgram_releases
    {G : Type} `{Graphics.Driver G} `{Programs.UniformDriver G}
    (MakeQuadVertexShader : Programs.Prog Z) (vertexFirst : bool)
    (st st' : Programs.State) (ok : bool) :
  Programs.makes_shader MakeQuadVertexShader ->
  Programs.InitPaddleProgram MakeQuadVertexShader vertexFirst st = Some (ok, st') ->
  ok = negb (Programs.sPaddleProgram st' =? 0)
  /\ exists new location,
       Programs.events st' = Programs.events st ++ new
       /\ List.filter Programs.is_uniform_call new
          = Programs.uniform_calls_of (Programs.sPaddleProgram st') location
       /\ (forall shaders programs,
             Programs.replay new (shaders, programs)
             = Some (shaders, Programs.add_name (Programs.sPaddleProgram st') programs))
       /\ exists st'',
            Programs.CleanupPaddleProgram st' = Some (tt, st'')
            /\ exists new',
                 Programs.events st'' = Programs.events st ++ new ++ new'
                 /\ forall shaders programs,
                      Programs.replay (new ++ new') (shaders, programs)
                      = Some (shaders, programs).
Proof.
  intros Hmake Hrun. unfold Programs.InitPaddleProgram in Hrun.
  apply bind_Some in Hrun as ([vertex fragment] & st2 & Hshaders & Hrun).
  apply bind_Some in Hrun as (program & st3 & Hprogram & Hrun).
  unfold bind, modify, gets, ret in Hrun. simpl in Hrun. injection Hrun as <- <-.
  simpl in Hprogram.
  apply CreateProgramWithWinSizeUniform_record in Hprogram
    as (_ & _ & new3 & location & Hevents3 & Huniform3 & Hnames3).
  pose proof (CreateShaderFromSource_makes_shader
                Graphics.gl_FragmentShader (Some Programs.kSource)) as Hfragment.
  assert (exists new12,
            Programs.events st2 = Programs.events st ++ new12
            /\ List.filter Programs.is_uniform_call new12 = []
            /\ forall shaders programs,
                 exists alive,
                   Programs.replay new12 (shaders, programs) = Some (alive, programs)
                   /\ exists alive1,
                        Programs.drop_name vertex alive = Some alive1
                        /\ Programs.drop_name fragment alive1 = Some shaders)
    as (new12 & Hevents12 & Hquiet12 & Hnames12).
  { destruct vertexFirst.
    - apply bind_Some in Hshaders as (v & st1 & Hfirst & Hshaders).
      apply bind_Some in Hshaders as (f & st2' & Hsecond & Hshaders).
      injection Hshaders as -> -> ->.
      destruct (Hmake _ _ _ Hfirst) as (_ & new1 & He1 & Hq1 & Hn1).
      destruct (Hfragment _ _ _ Hsecond) as (_ & new2 & He2 & Hq2 & Hn2).
      exists (new1 ++ new2). split; [rewrite He2, He1, app_assoc; reflexivity |].
      split; [rewrite List.filter_app, Hq1, Hq2; reflexivity |].
      intros shaders programs. eexists.
      split; [rewrite names_replay_app, Hn1, Hn2; reflexivity |].
      eexists. split; [apply drop_added_below | apply drop_added].
    - apply bind_Some in Hshaders as (f & st1 & Hfirst & Hshaders).
      apply bind_Some in Hshaders as (v & st2' & Hsecond & Hshaders).
      injection Hshaders as -> -> ->.
      destruct (Hfragment _ _ _ Hfirst) as (_ & new1 & He1 & Hq1 & Hn1).
      destruct (Hmake _ _ _ Hsecond) as (_ & new2 & He2 & Hq2 & Hn2).
      exists (new1 ++ new2). split; [rewrite He2, He1, app_assoc; reflexivity |].
      split; [rewrite List.filter_app, Hq1, Hq2; reflexivity |].
      intros shaders programs. eexists.
      split; [rewrite names_replay_app, Hn1, Hn2; reflexivity |].
      eexists. split; apply drop_added. }
  split; [reflexivity |].
  assert (forall shaders programs,
            Programs.replay (new12 ++ new3) (shaders, programs)
            = Some (shaders, Programs.add_name program programs)) as Hnames.
  { intros shaders programs.
    destruct (Hnames12 shaders programs) as (alive & Hfirst & alive1 & Hdrop1 & Hdrop2).
    rewrite names_replay_app, Hfirst. exact (Hnames3 _ _ _ _ Hdrop1 Hdrop2). }
  exists (new12 ++ new3), location. simpl.
  split; [rewrite Hevents3, Hevents12, app_assoc; reflexivity |].
  split; [rewrite List.filter_app, Hquiet12, Huniform3; reflexivity |].
  split; [exact Hnames |].
  unfold Programs.CleanupPaddleProgram, bind, gets, Programs.graphics. simpl.
  eexists. split; [reflexivity |]. simpl.
  exists [Programs.EvGraphics (Graphics.EvDeleteProgram program)].
  split; [rewrite Hevents3, Hevents12, <- !app_assoc; reflexivity |].
  intros shaders programs. rewrite names_replay_app, Hnames. simpl.
  rewrite drop_added. reflexivity.
Qed.

Lemma InitPaddleProgram_releases_witness :
  exists st',
    Programs.InitPaddleProgram
      (Programs.graphics
         (Graphics.CreateShaderFromSource Graphics.gl_VertexShader
            (Some "void main() {}"%string)))
      true (Programs.MkState (Graphics.MkToy 1 []) 0 [])
    = Some (true, st')
    /\ Programs.sPaddleProgram st' = 3
    /\ Programs.replay (Programs.events st') ([], []) = Some ([], [3]).
Proof.
  destruct (Programs.InitPaddleProgram _ true (Programs.MkState (Graphics.MkToy 1 []) 0 []))
    as [[ok st'] |] eqn:Hrun; [| vm_compute in Hrun; discriminate].
  destruct (InitPaddleProgram_releases _ true _ st' ok
              (CreateShaderFromSource_makes_shader _ _) Hrun)
    as (Hok & new & location & Hevents & _ & Hnames & _).
  assert (Programs.sPaddleProgram st' = 3) as Hprogram
    by (vm_compute in Hrun; injection Hrun as _ <-; reflexivity).
  exists st'. rewrite Hok, Hprogram in *. split; [reflexivity |].
  split; [reflexivity |]. rewrite Hevents. exact (Hnames [] []).
Defined.

(** ** Edges of creation and of the score update *)

(** X14. A failure without an info log. When a shader fails to compile,
    or a program to link, and the driver reports an info log of length
    zero (or less), the creation procedure has no defined result: the
    log is read as a string from a buffer that holds no character. *)
Theorem creation_needs_info_log {G : Type} `{Graphics.Driver G} :
  (forall (type : Z) (text : string) (st : Graphics.State) (shader len : Z) (g g' : G),
     type = Graphics.gl_VertexShader \/ type = Graphics.gl_FragmentShader ->
     Graphics.compiled type text (Graphics.driver st) = (shader, 0, g) ->
     Graphics.glGetShaderiv shader Graphics.gl_InfoLogLength g = (len, g') ->
     len <= 0 ->
     Graphics.CreateShaderFromSource type (Some text) st = None)
  /\ (forall (vert frag : Z) (st : Graphics.State) (program len : Z) (g g' : G),
        vert <> 0 -> frag <> 0 ->
        Graphics.linked vert frag (Graphics.driver st) = (program, 0, g) ->
        Graphics.glGetProgramiv program Graphics.gl_InfoLogLength g = (len, g') ->
        len <= 0 ->
        Graphics.CreateProgramFromShaders vert frag st = None).
Proof.
  split.
  - intros type text st shader len g g' Hvalid Hdriver Hlen Hempty.
    unfold Graphics.CreateShaderFromSource. rewrite valid_type_accepted by exact Hvalid.
    unfold Graphics.compiled in Hdriver.
    unfold Graphics.ShaderCompileFailed, Graphics.LogShaderInfo, Graphics.LogItemInfo,
      Graphics.GetItemiv, Graphics.Log_Log, Graphics.gl_CreateShader,
      Graphics.gl_ShaderSource, Graphics.gl_CompileShader, Graphics.gl_GetShaderiv,
      Graphics.gl_, Graphics.gl, Graphics.note, bind, modify, ret, undefined. simpl.
    destruct (Graphics.glCreateShader type (Graphics.driver st)) as [name g1]. simpl.
    destruct (Graphics.glGetShaderiv name Graphics.gl_CompileStatus _) as [status g2].
    injection Hdriver as -> -> ->. simpl. rewrite Hlen. simpl.
    apply Z.leb_le in Hempty. rewrite Hempty. reflexivity.
  - intros vert frag st program len g g' Hvert Hfrag Hdriver Hlen Hempty.
    unfold Graphics.CreateProgramFromShaders.
    rewrite valid_shaders_accepted by assumption.
    unfold Graphics.linked in Hdriver.
    unfold Graphics.ProgramLinkFailed, Graphics.LogProgramInfo, Graphics.LogItemInfo,
      Graphics.GetItemiv, Graphics.Log_Log, Graphics.gl_CreateProgram,
      Graphics.gl_AttachShader, Graphics.gl_LinkProgram, Graphics.gl_GetProgramiv,
      Graphics.gl_, Graphics.gl, Graphics.note, bind, modify, ret, undefined. simpl.
    destruct (Graphics.glCreateProgram (Graphics.driver st)) as [name g1]. simpl.
    destruct (Graphics.glGetProgramiv name Graphics.gl_LinkStatus _) as [status g2].
    injection Hdriver as -> -> ->. simpl. rewrite Hlen. simpl.
    apply Z.leb_le in Hempty. rewrite Hempty. reflexivity.
Qed.

Lemma creation_needs_info_log_witness :
  @Graphics.CreateShaderFromSource unit More.terse_driver Graphics.gl_VertexShader
    (Some "void main() {}"%string) (Graphics.MkState tt [])
  = None
  /\ @Graphics.CreateProgramFromShaders unit More.terse_driver 1 2 (Graphics.MkState tt [])
     = None.
Proof.
  destruct (@creation_needs_info_log unit More.terse_driver) as [Hshader Hprogram].
  split.
  - refine (Hshader Graphics.gl_VertexShader _ (Graphics.MkState tt []) 1 0 tt tt
              _ eq_refl eq_refl _); [left; reflexivity | lia].
  - refine (Hprogram 1 2 (Graphics.MkState tt []) 1 0 tt tt _ _ eq_refl eq_refl _);
      [discriminate | discriminate | lia].
Defined.

(** X15. What the score update needs of the numbering of the sides. On a
    table of two scores, [UpdateScores] has a result exactly when the
    side it is given is numbered 0 or 1 as an [unsigned]; side 0 then
    adds one to the second score and side 1 to the first, modulo 2^32,
    the other score being left as it was. With any other number for the
    side, [1u - side] wraps around to an index outside the table. *)
Theorem UpdateScores_needs_sides {X : Type} `{Externals X}
    (lostSide : Side.t) (w : Game.World X) (s0 s1 : Z) :
  Game.sPlayerScores w = [s0; s1] ->
  let side := to_unsigned (Side_to_unsigned lostSide) in
  match Game.UpdateScores lostSide w with
  | Some (_, w') =>
      Game.sPlayerScores w'
      = (if side =? 0 then [s0; to_unsigned (s1 + 1)] else [to_unsigned (s0 + 1); s1])
      /\ (side = 0 \/ side = 1)
  | None => 2 <= side
  end.
Proof.
  intros Hscores. cbv zeta.
  assert (0 <= to_unsigned (Side_to_unsigned lostSide) < UINT_MODULUS) as Hrange
    by (apply Z.mod_pos_bound; unfold UINT_MODULUS; lia).
  unfold Game.UpdateScores, bind, Game.note, modify, gets, undefined. simpl.
  rewrite Hscores. revert Hrange.
  generalize (to_unsigned (Side_to_unsigned lostSide)). intros side Hrange.
  destruct (Z.eqb_spec side 0) as [-> | Hnot0];
    [simpl; split; [reflexivity | left; reflexivity] |].
  destruct (Z.eqb_spec side 1) as [-> | Hnot1];
    [simpl; split; [reflexivity | right; reflexivity] |].
  assert (to_unsigned (1 - side) = UINT_MODULUS + 1 - side) as ->.
  { unfold to_unsigned. symmetry. apply (Z.mod_unique _ _ (-1)); unfold UINT_MODULUS in *; lia. }
  rewrite lookup_ge_None_2; [lia |]. simpl. unfold UINT_MODULUS in *. lia.
Qed.

Lemma UpdateScores_needs_sides_witness :
  Game.sPlayerScores SpecModel.point_frame = [3; 2]
  /\ Game.UpdateScores Side.None SpecModel.point_frame = None
  /\ exists w',
       Game.UpdateScores Side.Right SpecModel.point_frame = Some (tt, w')
       /\ Game.sPlayerScores w' = [4; 2].
Proof.
  split; [reflexivity |].
  pose proof (UpdateScores_needs_sides Side.None SpecModel.point_frame 3 2 eq_refl) as Hnone.
  pose proof (UpdateScores_needs_sides Side.Right SpecModel.point_frame 3 2 eq_refl) as Hright.
  cbv zeta in Hnone, Hright. split.
  - destruct (Game.UpdateScores Side.None SpecModel.point_frame) as [[[] w1] |];
      [| reflexivity].
    destruct Hnone as [_ [Hside | Hside]]; vm_compute in Hside; discriminate.
  - destruct (Game.UpdateScores Side.Right SpecModel.point_frame) as [[[] w2] |] eqn:Hrun;
      [| vm_compute in Hrun; discriminate].
    exists w2. split; [reflexivity |]. exact (proj1 Hright).
Defined.

(** ** Bounds of the cleanup loop; entering the frame loop *)

(** X16. The bounds of [CleanupItemsStartingAt]. With index 0 nothing is
    cleaned up. An index above the length of the list, up to [INT_MAX],
    starts with a read outside the list: no defined result. The index
    2^31 is [INT_MIN] once cast, and the subtraction overflows: no
    defined result. Any greater index is negative once cast, so the loop
    is not entered: the procedure returns and nothing is cleaned up. *)
Theorem CleanupItemsStartingAt_bounds {W : Type} (lifetimes : list (Lifecycle.Lifetime W))
    (index : Z) (w : W) (calls : list Lifecycle.Call) :
  0 <= index < UINT_MODULUS ->
  (index = 0 ->
     Lifecycle.CleanupItemsStartingAt lifetimes index (w, calls) = Some (tt, (w, calls)))
  /\ (Z.of_nat (length lifetimes) < index <= INT_MAX ->
      Lifecycle.CleanupItemsStartingAt lifetimes index (w, calls) = None)
  /\ (index = INT_MAX + 1 ->
      Lifecycle.CleanupItemsStartingAt lifetimes index (w, calls) = None)
  /\ (INT_MAX + 1 < index ->
      Lifecycle.CleanupItemsStartingAt lifetimes index (w, calls) = Some (tt, (w, calls))).
Proof.
  intros Hrange. unfold Lifecycle.CleanupItemsStartingAt.
  split; [| split; [| split]].
  - intros ->. reflexivity.
  - intros [Habove Hmax]. rewrite to_int_small by lia.
    destruct (Z.ltb_spec (index - 1) INT_MIN) as [| _]; [reflexivity |].
    replace (Z.to_nat (index - 1 + 1)) with (S (Z.to_nat (index - 1))) by lia.
    cbn [Lifecycle.CleanupItems_loop].
    replace (0 <=? index - 1) with true by (symmetry; apply Z.leb_le; lia).
    unfold bind, Lifecycle.Lifetime_Cleanup.
    rewrite lookup_ge_None_2 by lia. reflexivity.
  - intros ->. reflexivity.
  - intros Habove.
    assert (to_int index = index - UINT_MODULUS) as ->.
    { unfold to_int, to_unsigned. rewrite Z.mod_small by lia.
      destruct (Z.leb_spec index INT_MAX); [lia | reflexivity]. }
    unfold UINT_MODULUS, INT_MAX, INT_MIN in *.
    destruct (Z.ltb_spec (index - 2 ^ 32 - 1) (- 2 ^ 31)) as [| _]; [lia |].
    destruct (Z.to_nat (index - 2 ^ 32 - 1 + 1)); cbn [Lifecycle.CleanupItems_loop];
      destruct (Z.leb_spec 0 (index - 2 ^ 32 - 1)); try lia; reflexivity.
Qed.

Lemma CleanupItemsStartingAt_bounds_witness :
  Lifecycle.CleanupItemsStartingAt Lifecycle.four_successes 5 ([], []) = None
  /\ Lifecycle.CleanupItemsStartingAt Lifecycle.four_successes 2147483648 ([], []) = None
  /\ Lifecycle.CleanupItemsStartingAt Lifecycle.four_successes 4294967295 ([], [])
     = Some (tt, ([], [])).
Proof.
  assert (0 <= 5 < UINT_MODULUS) as Hfive by (unfold UINT_MODULUS; lia).
  assert (0 <= 2147483648 < UINT_MODULUS) as Hmin by (unfold UINT_MODULUS; lia).
  assert (0 <= 4294967295 < UINT_MODULUS) as Hlast by (unfold UINT_MODULUS; lia).
  split; [| split].
  - apply (proj1 (proj2 (CleanupItemsStartingAt_bounds _ 5 [] [] Hfive))).
    unfold INT_MAX. simpl. lia.
  - apply (proj1 (proj2 (proj2 (CleanupItemsStartingAt_bounds _ 2147483648 [] [] Hmin)))).
    reflexivity.
  - apply (proj2 (proj2 (proj2 (CleanupItemsStartingAt_bounds _ 4294967295 [] [] Hlast)))).
    unfold INT_MAX. lia.
Defined.

(** X17. What entering the loop starts over and what it keeps.
    [OnBeginRun] always returns; it leaves the paddles at rest at mid
    height, in the columns 50 and 1230, the ball as [Reset] puts it, and
    the match idle. It keeps the scores and the time of the last frame:
    a second run goes on from the scores of the first, and its first
    frame measures its delta from the last frame of the first run. *)
Theorem OnBeginRun_starts_over {X : Type} `{Externals X} (w : Game.World X) :
  exists w',
    Game.OnBeginRun w = Some (tt, w')
    /\ Paddle.position (Game.sPaddle1 w') = Vector2f.Make (F32.of_int 50) (F32.of_int 360)
    /\ Paddle.position (Game.sPaddle2 w') = Vector2f.Make (F32.of_int 1230) (F32.of_int 360)
    /\ Paddle.is_reset Game.skWinSize (Game.sPaddle1 w')
    /\ Paddle.is_reset Game.skWinSize (Game.sPaddle2 w')
    /\ Game.sBall w' = Ball_Reset Game.skWinSize (Game.sBall w)
    /\ Game.sPlaying w' = false
    /\ Game.sPlayerScores w' = Game.sPlayerScores w
    /\ Game.sLastTime w' = Game.sLastTime w.
Proof.
  destruct (OnBeginRun_places w)
    as (w' & Hrun & Hp1 & Hp2 & Hball & Hplaying & Hscores & _).
  exists w'. split; [exact Hrun |].
  assert (Game.sLastTime w' = Game.sLastTime w) as Htime.
  { revert Hrun.
    unfold Game.OnBeginRun, Game.ResetGameState, Game.PositionPaddlesOnTerrain, bind,
      Game.note, Game.extern_, modify. simpl. intros [= <-]. reflexivity. }
  rewrite Hp1, Hp2.
  repeat split; try assumption; vm_compute; reflexivity.
Qed.
